(** * Lantern dependency graph nodes (core/lib/lantern/base-node.js)

    A shallow embedding of [BaseNode]: nodes live in an arena (the heap), a
    node reference is its index in the arena, and the two edge lists of a
    node hold references.  Every method that mutates a node takes the heap
    and returns the new one; a method that can throw returns a completion
    next to the heap it leaves behind.  Loops that JavaScript runs until a
    condition fails take fuel, and [None] stands for a run that needs more.

    The first part holds the definitions: the data model, the edge
    operations, root resolution, the traversal generator and [traverse],
    cycle detection and cloning, each with the invariants used in its
    proofs, and the example graphs.  The second part holds the
    properties, in the same order. *)

From stdpp Require Import base list strings gmap.

Open Scope string_scope.
Open Scope list_scope.
Open Scope nat_scope.

(** ** Data model *)

Abbreviation ref := nat (only parsing).

(** The four fields set by the constructor of [BaseNode]. *)
Record BaseNode := mkBaseNode {
  _id : string;
  _isMainDocument : bool;
  _dependents : list ref;
  _dependencies : list ref;
}.

Abbreviation heap := (list BaseNode) (only parsing).

(** [new BaseNode(id)] *)
Definition newBaseNode (id : string) : BaseNode :=
  mkBaseNode id false [] [].

Definition with_isMainDocument (v : bool) (n : BaseNode) : BaseNode :=
  mkBaseNode (_id n) v (_dependents n) (_dependencies n).

Definition with_dependents (l : list ref) (n : BaseNode) : BaseNode :=
  mkBaseNode (_id n) (_isMainDocument n) l (_dependencies n).

Definition with_dependencies (l : list ref) (n : BaseNode) : BaseNode :=
  mkBaseNode (_id n) (_isMainDocument n) (_dependents n) l.

(** How a call ends: it returns a value or throws [new Error(msg)]. *)
Inductive completion (A : Type) : Type :=
  | Normal (a : A)
  | Throw (msg : string).
Arguments Normal {A} a.
Arguments Throw {A} msg.

(** ** The array methods the class uses *)

(** [l.includes(x)] *)
Definition includes (x : ref) (l : list ref) : bool := bool_decide (x ∈ l).

(** [l.indexOf(x)]: the first index holding [x], or -1. *)
Fixpoint indexOf (x : ref) (l : list ref) : Z :=
  match l with
  | [] => -1
  | y :: l' =>
      if decide (y = x) then 0
      else let i := indexOf x l' in if (i <? 0)%Z then (-1)%Z else (i + 1)%Z
  end.

(** [l.splice(start, 1)]: a negative [start] counts from the end of the
    array, so that [splice(-1, 1)] removes the last element. *)
Definition splice1 (start : Z) (l : list ref) : list ref :=
  let len := Z.of_nat (length l) in
  let actualStart :=
    if (start <? 0)%Z then Z.max (len + start) 0 else Z.min start len in
  delete (Z.to_nat actualStart) l.

(** ** Accessors *)

Definition id (h : heap) (r : ref) : string :=
  from_option _id "" (h !! r).

Definition isMainDocument (h : heap) (r : ref) : bool :=
  from_option _isMainDocument false (h !! r).

Definition setIsMainDocument (this : ref) (value : bool) (h : heap) : heap :=
  alter (with_isMainDocument value) this h.

Definition getDependents (h : heap) (r : ref) : list ref :=
  from_option _dependents [] (h !! r).

Definition getDependencies (h : heap) (r : ref) : list ref :=
  from_option _dependencies [] (h !! r).

Definition getNumberOfDependents (h : heap) (r : ref) : nat :=
  length (getDependents h r).

Definition getNumberOfDependencies (h : heap) (r : ref) : nat :=
  length (getDependencies h r).

(** ** Edge management *)

(** [node._dependents.push(x)] and [node._dependencies.push(x)] *)
Definition push_dependents (x : ref) (n : BaseNode) : BaseNode :=
  with_dependents (_dependents n ++ [x]) n.

Definition push_dependencies (x : ref) (n : BaseNode) : BaseNode :=
  with_dependencies (_dependencies n ++ [x]) n.

Definition addDependency (this node : ref) (h : heap)
  : heap * completion unit :=
  if decide (node = this) then (h, Throw "Cannot add dependency on itself")
  else if includes node (getDependencies h this) then (h, Normal tt)
  else
    let h1 := alter (push_dependents this) node h in
    let h2 := alter (push_dependencies node) this h1 in
    (h2, Normal tt).

Definition addDependent (this node : ref) (h : heap)
  : heap * completion unit :=
  addDependency node this h.

Definition removeDependency (this node : ref) (h : heap) : heap :=
  if negb (includes node (getDependencies h this)) then h
  else
    let thisIndex := indexOf this (getDependents h node) in
    let h1 :=
      alter (λ n, with_dependents (splice1 thisIndex (_dependents n)) n)
            node h in
    alter (λ n, with_dependencies
                  (splice1 (indexOf node (_dependencies n)) (_dependencies n))
                  n)
          this h1.

Definition removeDependent (this node : ref) (h : heap) : heap :=
  removeDependency node this h.

(** The loop runs over a copy of the list taken before the first removal. *)
Definition removeAllDependencies (this : ref) (h : heap) : heap :=
  foldl (λ h' node, removeDependency this node h') h (getDependencies h this).

(** The five edge-management calls, and the heap each leaves behind (for
    a call that throws, the heap at the throw). *)
Inductive edge_op : Type :=
  | AddDependency (this node : ref)
  | AddDependent (this node : ref)
  | RemoveDependency (this node : ref)
  | RemoveDependent (this node : ref)
  | RemoveAllDependencies (this : ref).

Definition run_edge_op (op : edge_op) (h : heap) : heap :=
  match op with
  | AddDependency this node => fst (addDependency this node h)
  | AddDependent this node => fst (addDependent this node h)
  | RemoveDependency this node => removeDependency this node h
  | RemoveDependent this node => removeDependent this node h
  | RemoveAllDependencies this => removeAllDependencies this h
  end.

(** The nodes a call names are nodes of the heap. *)
Definition edge_op_in_heap (op : edge_op) (h : heap) : Prop :=
  match op with
  | AddDependency this node | AddDependent this node
  | RemoveDependency this node | RemoveDependent this node =>
      this < length h ∧ node < length h
  | RemoveAllDependencies this => this < length h
  end.

(** ** The invariants of the edge lists *)

Definition symmetric (h : heap) : Prop :=
  ∀ a b, a ∈ getDependencies h b ↔ b ∈ getDependents h a.

Definition duplicate_free (h : heap) : Prop :=
  ∀ n, NoDup (getDependencies h n) ∧ NoDup (getDependents h n).


Definition edges_ok (h : heap) : Prop := symmetric h ∧ duplicate_free h.

(** A heap of two nodes in which the edge lists agree on membership but
    node 0 lists node 1 twice. *)
Definition doubled_edge_heap : heap :=
  [mkBaseNode "a" false [] [1; 1]; mkBaseNode "x" false [0] []].

(** Every reference in an edge list is a node of the heap. *)
Definition closed (h : heap) : Prop :=
  ∀ a b, b ∈ getDependencies h a ∨ b ∈ getDependents h a → b < length h.

(** [b] is a dependency of [a]; a graph is acyclic when no node reaches
    itself along one or more dependency edges. *)
Definition dependency_edge (h : heap) (a b : ref) : Prop :=
  b ∈ getDependencies h a.

Definition dependent_edge (h : heap) (a b : ref) : Prop :=
  b ∈ getDependents h a.

Definition acyclic (h : heap) : Prop :=
  ∀ a, ¬ tc (dependency_edge h) a a.

(** Two nodes are connected when a chain of edges, each taken in either
    direction, links them. *)
Definition connected (h : heap) : Prop :=
  ∀ a b, a < length h → b < length h → rtsc (dependency_edge h) a b.

(** ** Root resolution *)

(** The loop of [getRootNode]; [None] when [fuel] iterations did not reach
    a node without dependencies. *)
Fixpoint getRootNode_loop (fuel : nat) (h : heap) (rootNode : ref)
  : option ref :=
  match getDependencies h rootNode with
  | [] => Some rootNode
  | first :: _ =>
      match fuel with
      | 0 => None
      | S fuel' => getRootNode_loop fuel' h first
      end
  end.

Definition getRootNode (fuel : nat) (h : heap) (this : ref) : option ref :=
  getRootNode_loop fuel h this.

(** A connected graph with two nodes that have no dependencies. *)
Definition two_roots_heap : heap :=
  [mkBaseNode "r1" false [2] []; mkBaseNode "r2" false [2] [];
   mkBaseNode "c" false [] [0; 1]].

(** ** Traversal *)

(** What [traverseGenerator] yields: [{node, traversalPath}]. *)
Record traversal_item := mkItem {
  node : ref;
  traversalPath : list ref;
}.

(** A [traverseGenerator] between two calls of [next()]: its queue, its
    visited set and, once it has yielded, the node and path of the last
    yield, whose next nodes are enqueued when the generator is resumed. *)
Record generator := mkGenerator {
  queue : list (list ref);
  visited : gset string;
  suspended : option (ref * list ref);
}.

(** The [for] loop over [getNextNodes(node)]: a next node whose id was not
    seen is marked and its path is pushed at the back of the queue. *)
Fixpoint enqueue (ids : ref → string) (nextNodes : list ref)
    (traversalPath : list ref) (queue : list (list ref))
    (visited : gset string) : list (list ref) * gset string :=
  match nextNodes with
  | [] => (queue, visited)
  | nextNode :: rest =>
      if decide (ids nextNode ∈ visited)
      then enqueue ids rest traversalPath queue visited
      else enqueue ids rest traversalPath
             (queue ++ [nextNode :: traversalPath])
             ({[ids nextNode]} ∪ visited)
  end.

(** Resuming after a yield runs the [for] loop for the node yielded. *)
Definition resume (ids : ref → string) (getNextNodes : ref → list ref)
    (g : generator) : list (list ref) * gset string :=
  match suspended g with
  | None => (queue g, visited g)
  | Some (node, traversalPath) =>
      enqueue ids (getNextNodes node) traversalPath (queue g) (visited g)
  end.

(** One call of [next()]: resume, test [queue.length], shift the queue and
    yield; [None] when the generator returns.  [ids] reads [node.id] and
    [getNextNodes] is the expansion function, both as they are when the
    generator is resumed.  (Every path in the queue starts with its node,
    so the second [None] is never reached.) *)
Definition next (ids : ref → string) (getNextNodes : ref → list ref)
    (g : generator) : option (traversal_item * generator) :=
  match resume ids getNextNodes g with
  | ([], _) => None
  | (traversalPath :: queue', visited') =>
      match traversalPath with
      | [] => None
      | node :: _ =>
          Some (mkItem node traversalPath,
                mkGenerator queue' visited' (Some (node, traversalPath)))
      end
  end.

(** [this.traverseGenerator(getNextNodes)] before its first [next()]. *)
Definition traverseGenerator (ids : ref → string) (this : ref) : generator :=
  mkGenerator [[this]] {[ids this]} None.

(** The default expansion function: [node => node.getDependents()]. *)
Definition default_getNextNodes (h : heap) : ref → list ref :=
  getDependents h.

(** The first [n] elements the generator yields (fewer when it returns
    before), for an expansion function that does not change on the way. *)
Fixpoint yields (n : nat) (ids : ref → string) (getNextNodes : ref → list ref)
    (g : generator) : list traversal_item :=
  match n with
  | 0 => []
  | S n' =>
      match next ids getNextNodes g with
      | None => []
      | Some (item, g') => item :: yields n' ids getNextNodes g'
      end
  end.

(** Everything the generator yields until it returns; [None] when it has
    not returned after [fuel] elements. *)
Fixpoint drain (fuel : nat) (ids : ref → string)
    (getNextNodes : ref → list ref) (g : generator)
  : option (list traversal_item) :=
  match next ids getNextNodes g with
  | None => Some []
  | Some (item, g') =>
      match fuel with
      | 0 => None
      | S fuel' => cons item <$> drain fuel' ids getNextNodes g'
      end
  end.

(** [this.traverse(callback, getNextNodes)]: the callback runs on each
    element as it is yielded and may change the state [St] that the
    expansion function reads when the generator is resumed.  A callback
    that throws ends the traversal; [None] is lack of fuel. *)
Section traverse.
Context {St : Type}.
Variable ids : St → ref → string.
Variable callback : ref → list ref → St → option (St * completion unit).
Variable getNextNodes : St → ref → list ref.

Fixpoint traverse_loop (fuel : nat) (g : generator) (s : St)
  : option (St * completion unit) :=
  match fuel with
  | 0 => None
  | S fuel' =>
      match next (ids s) (getNextNodes s) g with
      | None => Some (s, Normal tt)
      | Some (item, g') =>
          match callback (node item) (traversalPath item) s with
          | None => None
          | Some (s', Throw msg) => Some (s', Throw msg)
          | Some (s', Normal _) => traverse_loop fuel' g' s'
          end
      end
  end.

Definition traverse (fuel : nat) (this : ref) (s : St)
  : option (St * completion unit) :=
  traverse_loop fuel (traverseGenerator (ids s) this) s.
End traverse.

(** A callback that appends the node it is called on to a log. *)
Definition log_visit (node : ref) (traversalPath : list ref)
    (log : list ref) : option (list ref * completion unit) :=
  Some (log ++ [node], Normal tt).

(** The nodes reached from [start] by applying the expansion function. *)
Definition reachable (getNextNodes : ref → list ref) (start n : ref) : Prop :=
  rtc (λ a b, b ∈ getNextNodes a) start n.

(** [p] leads from its first node back to [start]: each element is a next
    node of the element after it. *)
Fixpoint path_to (getNextNodes : ref → list ref) (start : ref)
    (p : list ref) : Prop :=
  match p with
  | [] => False
  | x :: p' =>
      match p' with
      | [] => x = start
      | y :: _ => x ∈ getNextNodes y ∧ path_to getNextNodes start p'
      end
  end.

(** The node of a queued path is its first element. *)
Definition top (p : list ref) : ref := hd 0 p.

(** The ids of the nodes of a list of paths. *)
Definition path_ids (ids : ref → string) (ps : list (list ref))
  : list string :=
  ids <$> (top <$> ps).

(** What holds of the paths yielded so far ([done]), the queue and the
    visited set whenever the generator tests [queue.length]: every path
    leads back to the start, no two paths are for the same id, the visited
    set holds the ids of the paths, and the queue holds paths of length
    [m] followed by paths of length [m + 1], after yielded paths of length
    at most [m]. *)
Record queue_inv (ids : ref → string) (getNextNodes : ref → list ref)
    (start : ref) (m : nat) (done : list (list ref))
    (queue : list (list ref)) (visited : gset string) : Prop := {
  inv_paths : ∀ p, p ∈ done ++ queue → path_to getNextNodes start p;
  inv_nodup : NoDup (path_ids ids (done ++ queue));
  inv_visited : ∀ s, s ∈ visited ↔ s ∈ path_ids ids (done ++ queue);
  inv_levels :
    ∃ q1 q2, queue = q1 ++ q2
      ∧ Forall (λ p, length p = m) q1
      ∧ Forall (λ p, length p = S m) q2
      ∧ Forall (λ p, length p ≤ m) done;
  inv_start : [start] ∈ done ++ queue;
}.

(** Every next node of a path in [done] has a path among [all], at most
    one longer. *)
Definition expanded (getNextNodes : ref → list ref)
    (done all : list (list ref)) : Prop :=
  ∀ p y, p ∈ done → y ∈ getNextNodes (top p) →
    ∃ p', p' ∈ all ∧ top p' = y ∧ length p' ≤ S (length p).

Definition bfs_inv (ids : ref → string) (getNextNodes : ref → list ref)
    (start : ref) (done : list (list ref))
    (queue : list (list ref)) (visited : gset string) : Prop :=
  (∃ m, queue_inv ids getNextNodes start m done queue visited)
  ∧ expanded getNextNodes done (done ++ queue).

(** The part of the invariant that needs no assumption on the ids: the
    nodes stay in [U], no two paths are for the same id. *)
Record ids_inv (ids : ref → string) (U : list ref) (done : list (list ref))
    (queue : list (list ref)) (visited : gset string) : Prop := {
  ids_nonempty : ∀ p, p ∈ queue → p ≠ [];
  ids_nodup : NoDup (path_ids ids (done ++ queue));
  ids_visited : ∀ s, s ∈ visited ↔ s ∈ path_ids ids (done ++ queue);
  ids_within : ∀ p, p ∈ done ++ queue → top p ∈ U;
}.

(** ** Cycle detection *)

(** ['dependents' | 'dependencies' | 'both'] *)
Inductive direction : Type := Dependents | Dependencies | Both.

(** The four variables of the search.  [currentPath] is kept in the order
    of the array (the last node pushed is the last element); [toVisit] is
    kept with the top of the stack first, so that [pop()] takes the head
    and [push(x)] adds a head. *)
Record cycle_search := mkCycleSearch {
  seen : gset ref;               (* visited *)
  currentPath : list ref;
  toVisit : list ref;
  depthAdded : gmap ref nat;
}.

(** [direction === 'dependents' ? node._dependents : node._dependencies] *)
Definition nodesToExplore (d : direction) (h : heap) (currentNode : ref)
  : list ref :=
  match d with
  | Dependents => getDependents h currentNode
  | _ => getDependencies h currentNode
  end.

(** [while (currentPath.length > depth) currentPath.pop()]; a node
    without an entry in [depthAdded] gives [undefined] and the comparison
    fails. *)
Definition backtrack (depth : option nat) (currentPath : list ref)
  : list ref :=
  match depth with
  | Some d => take d currentPath
  | None => currentPath
  end.

(** The [for] loop over [nodesToExplore]: a next node that is not on the
    stack is pushed, with the length of the current path as its depth. *)
Fixpoint explore (nodes : list ref) (depth : nat) (toVisit : list ref)
    (depthAdded : gmap ref nat) : list ref * gmap ref nat :=
  match nodes with
  | [] => (toVisit, depthAdded)
  | nextNode :: rest =>
      if includes nextNode toVisit
      then explore rest depth toVisit depthAdded
      else explore rest depth (nextNode :: toVisit)
             (<[nextNode := depth]> depthAdded)
  end.

(** One iteration of the [while (toVisit.length)] loop: [inr b] when the
    function returns [b], [inl] with the next values of the variables
    otherwise. *)
Definition hasCycle_iteration (d : direction) (h : heap) (st : cycle_search)
  : cycle_search + bool :=
  match toVisit st with
  | [] => inr false
  | currentNode :: toVisit' =>
      if includes currentNode (currentPath st) then inr true
      else if decide (currentNode ∈ seen st)
      then inl (mkCycleSearch (seen st) (currentPath st) toVisit'
                  (depthAdded st))
      else
        let currentPath' :=
          backtrack (depthAdded st !! currentNode) (currentPath st)
            ++ [currentNode] in
        let '(toVisit'', depthAdded') :=
          explore (nodesToExplore d h currentNode) (length currentPath')
            toVisit' (depthAdded st) in
        inl (mkCycleSearch ({[currentNode]} ∪ seen st) currentPath'
               toVisit'' depthAdded')
  end.

Fixpoint hasCycle_loop (fuel : nat) (d : direction) (h : heap)
    (st : cycle_search) : option bool :=
  match hasCycle_iteration d h st with
  | inr b => Some b
  | inl st' =>
      match fuel with
      | 0 => None
      | S fuel' => hasCycle_loop fuel' d h st'
      end
  end.

(** The variables before the first iteration. *)
Definition hasCycle_init (node : ref) : cycle_search :=
  mkCycleSearch ∅ [] [node] {[node := 0]}.

(** [BaseNode.hasCycle(node, direction)]; ['both'] checks the dependents
    and, when they have no cycle, the dependencies. *)
Definition hasCycle (fuel : nat) (h : heap) (node : ref) (d : direction)
  : option bool :=
  match d with
  | Both =>
      match hasCycle_loop fuel Dependents h (hasCycle_init node) with
      | Some false => hasCycle_loop fuel Dependencies h (hasCycle_init node)
      | r => r
      end
  | _ => hasCycle_loop fuel d h (hasCycle_init node)
  end.

(** The variables after [k] iterations none of which returned. *)
Fixpoint hasCycle_iterations (k : nat) (d : direction) (h : heap)
    (st : cycle_search) : option cycle_search :=
  match k with
  | 0 => Some st
  | S k' =>
      match hasCycle_iteration d h st with
      | inl st' => hasCycle_iterations k' d h st'
      | inr _ => None
      end
  end.

(** The node about to be popped is on the current path. *)
Definition on_current_path (st : cycle_search) : Prop :=
  ∃ currentNode rest,
    toVisit st = currentNode :: rest ∧ currentNode ∈ currentPath st.

(** An edge in the direction searched. *)
Definition explored_edge (d : direction) (h : heap) (a b : ref) : Prop :=
  b ∈ nodesToExplore d h a.

(** Fuel that is enough for a search in direction [d]: one iteration per
    node pushed, and a node is pushed at the start or as a next node of a
    node visited for the first time. *)
Definition search_bound (d : direction) (h : heap) : nat :=
  S (sum_list_with (λ x, S (length (nodesToExplore d h x)))
       (seq 0 (length h))).

(** What remains to be done in a search: the stack, and the next nodes of
    the nodes not visited yet. *)
Definition search_weight (d : direction) (h : heap) (seen : gset ref)
    (x : ref) : nat :=
  if decide (x ∈ seen) then 0 else S (length (nodesToExplore d h x)).

Definition search_measure (d : direction) (h : heap) (st : cycle_search)
  : nat :=
  length (toVisit st)
  + sum_list_with (search_weight d h (seen st)) (seq 0 (length h)).

(** The depth recorded for a node of the stack. *)
Definition depth_of (st : cycle_search) (x : ref) : nat :=
  default 0 (depthAdded st !! x).

(** The depths recorded for the stack do not grow from its top down. *)
Fixpoint depths_sorted (depth : ref → nat) (stack : list ref) : Prop :=
  match stack with
  | [] => True
  | x :: rest =>
      (∀ y, y ∈ rest → depth y ≤ depth x) ∧ depths_sorted depth rest
  end.

(** What holds of the variables at the start of every iteration of the
    search from [start]: the current path is a chain of edges, its nodes
    and the nodes of the stack are reachable from [start], the stack has
    no duplicates, and a node of the stack with recorded depth [dx] is not
    on the path from position [dx] on and, for [dx = k + 1], is a next
    node of the node at position [k] of the path. *)
Record cycle_inv (d : direction) (h : heap) (start : ref)
    (st : cycle_search) : Prop := {
  ci_chain : ∀ i a b,
    currentPath st !! i = Some a → currentPath st !! S i = Some b →
    explored_edge d h a b;
  ci_reach : ∀ x, x ∈ currentPath st → rtc (explored_edge d h) start x;
  ci_nodup : NoDup (toVisit st);
  ci_pushed : ∀ x, x ∈ toVisit st →
    ∃ dx, depthAdded st !! x = Some dx
      ∧ dx ≤ length (currentPath st)
      ∧ (x ∉ drop dx (currentPath st))
      ∧ rtc (explored_edge d h) start x
      ∧ (∀ k, dx = S k →
           ∃ p, currentPath st !! k = Some p ∧ explored_edge d h p x);
  ci_depths : depths_sorted (depth_of st) (toVisit st);
}.

(** ** Cloning *)

(** [this.cloneWithoutRelationships()]: a new node with the id and the
    main-document flag of [this] and empty edge lists; the clone is
    allocated at the end of the heap. *)
Definition cloneWithoutRelationships (this : ref) (h : heap) : heap * ref :=
  let node := newBaseNode (id h this) in
  (h ++ [with_isMainDocument (isMainDocument h this) node], length h).

(** The heap and the [idsToIncludedClones] map while a graph is cloned. *)
Record clone_state := mkCloneState {
  clone_heap : heap;
  idsToIncludedClones : gmap string ref;
}.

(** [idsToIncludedClones.has(k)] *)
Definition has (m : gmap string ref) (k : string) : bool :=
  bool_decide (is_Some (m !! k)).

(** [node => idsToIncludedClones.set(node.id, node.cloneWithoutRelationships())] *)
Definition clone_into_map (node : ref) (s : clone_state) : clone_state :=
  let '(h', clone) := cloneWithoutRelationships node (clone_heap s) in
  mkCloneState h' (<[id (clone_heap s) node := clone]> (idsToIncludedClones s)).

(** The two functions of the walk back up the dependencies. *)
Definition clone_ancestor (node : ref) (traversalPath : list ref)
    (s : clone_state) : option (clone_state * completion unit) :=
  Some (clone_into_map node s, Normal tt).

Definition uncloned_dependencies (s : clone_state) (node : ref) : list ref :=
  filter (λ parent, has (idsToIncludedClones s) (id (clone_heap s) parent)
                    = false)
         (getDependencies (clone_heap s) node).

(** The callback of the first traversal (the walk down the dependents). *)
Definition clone_included (predicate : option (ref → bool)) (fuel : nat)
    (node : ref) (traversalPath : list ref) (s : clone_state)
  : option (clone_state * completion unit) :=
  if has (idsToIncludedClones s) (id (clone_heap s) node)
  then Some (s, Normal tt)
  else
    match predicate with
    | None => Some (clone_into_map node s, Normal tt)
    | Some predicate =>
        if predicate node
        then traverse (λ s, id (clone_heap s)) clone_ancestor
               uncloned_dependencies fuel node s
        else Some (s, Normal tt)
    end.

(** The [for] loop of the second traversal, over the dependencies of an
    original node that has the clone [clonedNode].  (The clones are not
    nodes of the original graph, so adding edges between them does not
    change the list the loop runs over.) *)
Fixpoint copy_dependencies (dependencies : list ref) (clonedNode : ref)
    (s : clone_state) : clone_state * completion unit :=
  match dependencies with
  | [] => (s, Normal tt)
  | dependency :: rest =>
      match idsToIncludedClones s !! id (clone_heap s) dependency with
      | None => (s, Throw "Dependency somehow not cloned")
      | Some clonedDependency =>
          match addDependency clonedNode clonedDependency (clone_heap s) with
          | (h', Normal _) =>
              copy_dependencies rest clonedNode
                (mkCloneState h' (idsToIncludedClones s))
          | (h', Throw msg) =>
              (mkCloneState h' (idsToIncludedClones s), Throw msg)
          end
      end
  end.

(** The callback of the second traversal. *)
Definition copy_edges (originalNode : ref) (traversalPath : list ref)
    (s : clone_state) : option (clone_state * completion unit) :=
  match idsToIncludedClones s !! id (clone_heap s) originalNode with
  | None => Some (s, Normal tt)
  | Some clonedNode =>
      Some (copy_dependencies (getDependencies (clone_heap s) originalNode)
              clonedNode s)
  end.

(** [this.cloneWithRelationships(predicate)]; [predicate] is [None] for
    [undefined].  The result is the heap the call leaves and the clone of
    [this] or the error thrown; [None] is lack of fuel. *)
Definition cloneWithRelationships (fuel : nat) (this : ref)
    (predicate : option (ref → bool)) (h : heap)
  : option (heap * completion ref) :=
  rootNode ← getRootNode fuel h this;
  let ids := λ s, id (clone_heap s) in
  let dependents := λ s, default_getNextNodes (clone_heap s) in
  r1 ← traverse ids (clone_included predicate fuel) dependents fuel rootNode
         (mkCloneState h ∅);
  match r1 with
  | (s1, Throw msg) => Some (clone_heap s1, Throw msg)
  | (s1, Normal _) =>
      r2 ← traverse ids copy_edges dependents fuel rootNode s1;
      match r2 with
      | (s2, Throw msg) => Some (clone_heap s2, Throw msg)
      | (s2, Normal _) =>
          match idsToIncludedClones s2 !! id (clone_heap s2) this with
          | None => Some (clone_heap s2, Throw "Cloned graph missing node")
          | Some clonedThisNode => Some (clone_heap s2, Normal clonedThisNode)
          end
      end
  end.

(** The predicates of the clone examples: only D (node 3) matches, only R
    (node 0) matches. *)
Definition only_D (n : ref) : bool := bool_decide (n = 3).
Definition only_R (n : ref) : bool := bool_decide (n = 0).

(** *** The invariants of a clone *)

(** The original heap [h0] is untouched, and the map sends an id to a node
    allocated after [h0] that has this id. *)
Record clone_wf (h0 : heap) (s : clone_state) : Prop := {
  cw_prefix : h0 `prefix_of` clone_heap s;
  cw_fresh : ∀ k c, idsToIncludedClones s !! k = Some c →
    length h0 ≤ c ∧ c < length (clone_heap s) ∧ id (clone_heap s) c = k;
}.

(** [m] is kept: it is a node that the walk down the dependents of [root]
    visits and the predicate matches, or a node that such a node reaches
    along dependencies. *)
Definition kept (h0 : heap) (root : ref) (predicate : ref → bool)
    (m : ref) : Prop :=
  ∃ n, rtc (dependent_edge h0) root n ∧ predicate n = true
       ∧ rtc (dependency_edge h0) n m.

(** Between two walks back up the dependencies: only kept nodes are in
    the map, and the dependencies of a node of the map are in the map. *)
Record pass1_inv (h0 : heap) (root : ref) (predicate : ref → bool)
    (s : clone_state) : Prop := {
  p1_wf : clone_wf h0 s;
  p1_sound : ∀ k, is_Some (idsToIncludedClones s !! k) →
    ∃ m, m < length h0 ∧ id h0 m = k ∧ kept h0 root predicate m;
  p1_closed : ∀ m m', m < length h0 →
    is_Some (idsToIncludedClones s !! id h0 m) →
    m' ∈ getDependencies h0 m →
    is_Some (idsToIncludedClones s !! id h0 m');
}.

(** During the walk back up the dependencies of [n], started with the
    map [m0]. *)
Record inner_inv (h0 : heap) (m0 : gmap string ref) (n : ref)
    (done queue : list (list ref)) (visited : gset string)
    (s : clone_state) : Prop := {
  in_ids : ids_inv (id h0) (seq 0 (length h0)) done queue visited;
  in_wf : clone_wf h0 s;
  in_dom : ∀ k, is_Some (idsToIncludedClones s !! k) ↔
    is_Some (m0 !! k) ∨ k ∈ path_ids (id h0) done;
  in_reach : ∀ p, p ∈ done ++ queue →
    rtc (dependency_edge h0) n (top p);
  in_expanded : ∀ p m', p ∈ done → m' ∈ getDependencies h0 (top p) →
    is_Some (idsToIncludedClones s !! id h0 m') ∨ id h0 m' ∈ visited;
  in_start : id h0 n ∈ visited;
}.

(** During the walk down the dependents of [root]. *)
Record outer_inv (h0 : heap) (root : ref) (predicate : ref → bool)
    (done queue : list (list ref)) (visited : gset string)
    (s : clone_state) : Prop := {
  out_ids : ids_inv (id h0) (seq 0 (length h0)) done queue visited;
  out_p1 : pass1_inv h0 root predicate s;
  out_reach : ∀ p, p ∈ done ++ queue →
    rtc (dependent_edge h0) root (top p);
  out_kept : ∀ p, p ∈ done → predicate (top p) = true →
    is_Some (idsToIncludedClones s !! id h0 (top p));
  out_expanded : ∀ p y, p ∈ done → y ∈ getDependents h0 (top p) →
    id h0 y ∈ visited;
  out_start : id h0 root ∈ visited;
}.

(** During the second traversal, which starts in state [s1]: the map and
    the ids of the nodes stay as they are. *)
Record pass2_inv (h0 : heap) (s1 : clone_state)
    (done queue : list (list ref)) (visited : gset string)
    (s : clone_state) : Prop := {
  p2_ids : ids_inv (id h0) (seq 0 (length h0)) done queue visited;
  p2_prefix : h0 `prefix_of` clone_heap s;
  p2_map : idsToIncludedClones s = idsToIncludedClones s1;
  p2_length : length (clone_heap s) = length (clone_heap s1);
  p2_id : ∀ c, id (clone_heap s) c = id (clone_heap s1) c;
}.

(** ** Checkers for concrete heaps *)

Definition closedb (h : heap) : bool :=
  forallb (λ n, forallb (λ r, r <? length h)
                        (_dependents n ++ _dependencies n)) h.

Definition symmetricb (h : heap) : bool :=
  forallb (λ i,
      forallb (λ d, includes i (getDependents h d)) (getDependencies h i)
      && forallb (λ d, includes i (getDependencies h d)) (getDependents h i))
    (seq 0 (length h)).

(** [rank] numbers the nodes so that every dependency has a smaller
    number than the node that depends on it. *)
Definition topologicalb (rank : ref → nat) (h : heap) : bool :=
  forallb (λ i, forallb (λ d, rank d <? rank i) (getDependencies h i))
    (seq 0 (length h)).

(** ** Example graphs *)

(** Root R (0) with dependents B (1) and C (2), and D (3) depending on
    both: built by B.addDependency(R), C.addDependency(R),
    D.addDependency(B), D.addDependency(C). *)
Definition diamond_heap : heap :=
  foldl (λ h op, run_edge_op op h) (newBaseNode <$> ["R"; "B"; "C"; "D"])
    [AddDependency 1 0; AddDependency 2 0;
     AddDependency 3 1; AddDependency 3 2].

(** Dependency edges A→B→C→A: A (0) depends on B (1), B on C (2) and C on
    A. *)
Definition cycle_heap : heap :=
  foldl (λ h op, run_edge_op op h) (newBaseNode <$> ["A"; "B"; "C"])
    [AddDependency 0 1; AddDependency 1 2; AddDependency 2 0].

(** [cycle_heap] with the back-edge C→A removed. *)
Definition chain_heap : heap := removeDependency 2 0 cycle_heap.

(** Dependency edges A→B, A→C, B→D, C→D: A (0) depends on B (1) and C (2),
    which both depend on D (3). *)
Definition dependency_diamond_heap : heap :=
  foldl (λ h op, run_edge_op op h) (newBaseNode <$> ["A"; "B"; "C"; "D"])
    [AddDependency 0 1; AddDependency 0 2;
     AddDependency 1 3; AddDependency 2 3].

(** A (0) depends on B (1) and C (2), and B and C depend on each other. *)
Definition late_cycle_heap : heap :=
  foldl (λ h op, run_edge_op op h) (newBaseNode <$> ["A"; "B"; "C"])
    [AddDependency 0 1; AddDependency 0 2;
     AddDependency 1 2; AddDependency 2 1].

(** ** Further invariants and methods *)

(** No node is listed in one of its own edge lists. *)
Definition no_self_edges (h : heap) : Prop :=
  ∀ n, (n ∉ getDependencies h n) ∧ (n ∉ getDependents h n).

(** [b] is [a._dependencies[0]], the step [getRootNode] takes. *)
Definition first_dependency (h : heap) (a b : ref) : Prop :=
  head (getDependencies h a) = Some b.

(** What holds of the paths yielded so far ([done]) and of the queue,
    for every id and expansion function: the queue holds paths as long
    as the last path yielded ([m]), followed by paths one longer, and two
    paths yielded one after the other differ in length by at most one,
    the later being the longer. *)
Record level_inv (m : nat) (done queue : list (list ref)) : Prop := {
  li_queue :
    ∃ q1 q2, queue = q1 ++ q2
      ∧ Forall (λ p, length p = m) q1
      ∧ Forall (λ p, length p = S m) q2;
  li_last : ∀ p, last done = Some p → length p = m;
  li_adjacent : ∀ i p1 p2,
    done !! i = Some p1 → done !! S i = Some p2 →
    length p1 ≤ length p2 ∧ length p2 ≤ S (length p1);
}.

(** *** [isDependentOn] *)

(** The two functions [isDependentOn] passes to [traverse]; the state is
    the variable [isDependentOnNode]. *)
Definition isDependentOn_callback (node : ref) (currentNode : ref)
    (traversalPath : list ref) (isDependentOnNode : bool)
  : option (bool * completion unit) :=
  if isDependentOnNode then Some (isDependentOnNode, Normal tt)
  else Some (bool_decide (currentNode = node), Normal tt).

Definition isDependentOn_getNextNodes (h : heap) (isDependentOnNode : bool)
    (currentNode : ref) : list ref :=
  if isDependentOnNode then [] else getDependencies h currentNode.

(** [this.isDependentOn(node)]; [None] is lack of fuel. *)
Definition isDependentOn (fuel : nat) (h : heap) (this node : ref)
  : option (completion bool) :=
  r ← traverse (λ _, id h) (isDependentOn_callback node)
         (isDependentOn_getNextNodes h) fuel this false;
  match r with
  | (isDependentOnNode, Normal _) => Some (Normal isDependentOnNode)
  | (_, Throw msg) => Some (Throw msg)
  end.

(** During the traversal of [isDependentOn]: once the variable is set,
    [node] is known to be reachable; while it is not set, the traversal is
    a breadth-first traversal of the dependencies that has not yielded
    [node]. *)
Definition isDependentOn_inv (h : heap) (this node : ref)
    (done queue : list (list ref)) (visited : gset string)
    (isDependentOnNode : bool) : Prop :=
  ids_inv (id h) (seq 0 (length h)) done queue visited
  ∧ if isDependentOnNode then rtc (dependency_edge h) this node
    else bfs_inv (id h) (getDependencies h) this done queue visited
         ∧ node ∉ top <$> done.

(** *** Cycles seen from the start of a search *)

(** A cycle of [R]-edges can be reached from [node]. *)
Definition cycle_from (R : relation ref) (node : ref) : Prop :=
  ∃ x, rtc R node x ∧ tc R x x.

(** What holds of the variables of a search from [start] after its first
    iteration: the current path begins with [start], which has been
    visited; every recorded depth of a node of the stack is positive; a
    next node of a visited node has been visited or is on the stack; and
    when [start] is a next node of a visited node it is on the stack. *)
Record revisit_inv (d : direction) (h : heap) (start : ref)
    (st : cycle_search) : Prop := {
  rv_head : head (currentPath st) = Some start;
  rv_seen : start ∈ seen st;
  rv_depth : ∀ x, x ∈ toVisit st →
    ∃ dx, depthAdded st !! x = Some dx ∧ 0 < dx;
  rv_closed : ∀ x y, x ∈ seen st → explored_edge d h x y →
    y ∈ seen st ∨ y ∈ toVisit st;
  rv_start : ∀ x, x ∈ seen st → explored_edge d h x start →
    start ∈ toVisit st;
}.

(** *** The clones and their edges *)

(** The clones of a list of original nodes, by the map. *)
Definition clones_of (h0 : heap) (clones : gmap string ref) (l : list ref)
  : list ref :=
  omap (λ m, clones !! id h0 m) l.

(** What holds of every traversal of the dependents of [root] in the
    original heap [h0]: the paths are for nodes reachable from [root], and
    the dependents of the nodes yielded have been seen. *)
Record walk_inv (h0 : heap) (root : ref) (done queue : list (list ref))
    (visited : gset string) : Prop := {
  wk_ids : ids_inv (id h0) (seq 0 (length h0)) done queue visited;
  wk_reach : ∀ p, p ∈ done ++ queue → rtc (dependent_edge h0) root (top p);
  wk_expanded : ∀ p y, p ∈ done → y ∈ getDependents h0 (top p) →
    id h0 y ∈ visited;
  wk_start : id h0 root ∈ visited;
}.

(** While the clones are allocated: a clone has no edges yet, and it has
    the main-document flag of an original node with its id. *)
Record cloned_inv (h0 : heap) (s : clone_state) : Prop := {
  cl_wf : clone_wf h0 s;
  cl_unlinked : ∀ c, length h0 ≤ c →
    getDependencies (clone_heap s) c = []
    ∧ getDependents (clone_heap s) c = [];
  cl_original : ∀ k c, idsToIncludedClones s !! k = Some c →
    ∃ m, m < length h0 ∧ id h0 m = k
         ∧ isMainDocument (clone_heap s) c = isMainDocument h0 m;
}.

(** During the first traversal of a call without predicate: the nodes
    yielded so far are the nodes that have a clone. *)
Record clone_all_inv (h0 : heap) (root : ref)
    (done queue : list (list ref)) (visited : gset string)
    (s : clone_state) : Prop := {
  ca_walk : walk_inv h0 root done queue visited;
  ca_wf : clone_wf h0 s;
  ca_dom : ∀ k, is_Some (idsToIncludedClones s !! k) ↔
    k ∈ path_ids (id h0) done;
}.

(** During the second traversal, which starts with the heap [h1] and the
    map [clones]: the nodes are as in [h1]; the dependencies of the clone
    of a node yielded are the clones of its dependencies, in their order,
    and the clone of a node not yielded has none; the dependents of a
    clone are the clones of the nodes yielded that depend on its
    original. *)
Record copy_inv (h0 : heap) (root : ref) (h1 : heap)
    (clones : gmap string ref) (done queue : list (list ref))
    (visited : gset string) (s : clone_state) : Prop := {
  cp_walk : walk_inv h0 root done queue visited;
  cp_wf : clone_wf h0 s;
  cp_map : idsToIncludedClones s = clones;
  cp_length : length (clone_heap s) = length h1;
  cp_nodes : ∀ c,
    id (clone_heap s) c = id h1 c
    ∧ isMainDocument (clone_heap s) c = isMainDocument h1 c;
  cp_cloned : ∀ p d, p ∈ done → is_Some (clones !! id h0 (top p)) →
    d ∈ getDependencies h0 (top p) → is_Some (clones !! id h0 d);
  cp_dependencies : ∀ m c, m < length h0 → clones !! id h0 m = Some c →
    getDependencies (clone_heap s) c =
      if decide (m ∈ top <$> done)
      then clones_of h0 clones (getDependencies h0 m) else [];
  cp_dependents : ∀ m c c', m < length h0 → clones !! id h0 m = Some c →
    c' ∈ getDependents (clone_heap s) c ↔
      ∃ m', m' ∈ top <$> done ∧ clones !! id h0 m' = Some c'
            ∧ m ∈ getDependencies h0 m';
}.

(** How the second traversal fails: a node it visits has a clone and a
    dependency without one. *)
Definition copy_failed (h0 : heap) (root : ref) (clones : gmap string ref)
    (s : clone_state) (msg : string) : Prop :=
  msg = "Dependency somehow not cloned"
  ∧ h0 `prefix_of` clone_heap s
  ∧ ∃ m d, rtc (dependent_edge h0) root m
      ∧ is_Some (clones !! id h0 m)
      ∧ d ∈ getDependencies h0 m ∧ clones !! id h0 d = None.

(** The dependencies of the nodes below [root] are below [root]. *)
Definition dependencies_below (h : heap) (root : ref) : Prop :=
  ∀ m d, rtc (dependent_edge h) root m → d ∈ getDependencies h m →
    rtc (dependent_edge h) root d.

(** What a call that returns normally has built, for the map [clones]
    from ids to clones it ends with: the original heap is a prefix of the
    heap [h']; a clone is a new node with the id and the main-document
    flag of its original; the dependencies of the clone of a node below
    [root] are the clones of its dependencies, in their order; the clone
    of a node that is not below [root] has no dependencies; and the
    dependents of a clone are the clones of the nodes below [root] that
    depend on its original. *)
Record cloned_graph (h0 : heap) (root : ref) (clones : gmap string ref)
    (h' : heap) : Prop := {
  cg_prefix : h0 `prefix_of` h';
  cg_clone : ∀ m c, m < length h0 → clones !! id h0 m = Some c →
    length h0 ≤ c ∧ c < length h'
    ∧ id h' c = id h0 m ∧ isMainDocument h' c = isMainDocument h0 m;
  cg_dependencies : ∀ m c, m < length h0 → clones !! id h0 m = Some c →
    rtc (dependent_edge h0) root m →
    Forall2 (λ d cd, clones !! id h0 d = Some cd)
      (getDependencies h0 m) (getDependencies h' c);
  cg_unvisited : ∀ m c, m < length h0 → clones !! id h0 m = Some c →
    ¬ rtc (dependent_edge h0) root m → getDependencies h' c = [];
  cg_dependents : ∀ m c c', m < length h0 → clones !! id h0 m = Some c →
    c' ∈ getDependents h' c ↔
      ∃ m', rtc (dependent_edge h0) root m'
            ∧ clones !! id h0 m' = Some c'
            ∧ m ∈ getDependencies h0 m';
}.
(** * Properties *)

(** ** Reading the edge lists of an updated heap *)

Section alter_lookup.
Context (f : BaseNode → BaseNode) (r : ref) (h : heap).

Lemma getDependencies_alter r' :
  getDependencies (alter f r h) r' =
  if decide (r = r') then from_option (λ n, _dependencies (f n)) [] (h !! r)
  else getDependencies h r'.
Proof.
  unfold getDependencies. case_decide as Hr.
  - subst. rewrite list_lookup_alter_eq. by destruct (h !! r').
  - by rewrite list_lookup_alter_ne.
Qed.

Lemma getDependents_alter r' :
  getDependents (alter f r h) r' =
  if decide (r = r') then from_option (λ n, _dependents (f n)) [] (h !! r)
  else getDependents h r'.
Proof.
  unfold getDependents. case_decide as Hr.
  - subst. rewrite list_lookup_alter_eq. by destruct (h !! r').
  - by rewrite list_lookup_alter_ne.
Qed.
End alter_lookup.

Lemma lookup_in_heap (h : heap) r : r < length h → ∃ n, h !! r = Some n.
Proof. intros Hr. by apply lookup_lt_is_Some_2. Qed.

(** ** [indexOf] and [splice] *)

Example indexOf_first : indexOf 7 [5; 7; 7] = 1%Z.
Proof. reflexivity. Qed.

Example indexOf_absent : indexOf 9 [5; 7] = (-1)%Z.
Proof. reflexivity. Qed.

Example splice1_at_index : splice1 1 [5; 7; 8] = [5; 8].
Proof. reflexivity. Qed.

Example splice1_minus_one : splice1 (-1) [5; 7; 8] = [5; 7].
Proof. reflexivity. Qed.

Example splice1_minus_one_empty : splice1 (-1) [] = [].
Proof. reflexivity. Qed.

Lemma indexOf_not_elem x l : x ∉ l → indexOf x l = (-1)%Z.
Proof.
  induction l as [|y l IH]; simpl; [done|].
  rewrite not_elem_of_cons. intros [Hxy Hl].
  case_decide; [congruence|]. rewrite (IH Hl). done.
Qed.

Lemma indexOf_elem x l :
  x ∈ l →
  ∃ i, indexOf x l = Z.of_nat i ∧ l !! i = Some x ∧ x ∉ take i l.
Proof.
  induction l as [|y l IH]; simpl; [by intros ?%elem_of_nil|].
  intros Hx. case_decide as Hy.
  - subst. exists 0. split_and!; [done|done|]. simpl. apply not_elem_of_nil.
  - apply elem_of_cons in Hx as [?|Hx]; [congruence|].
    destruct (IH Hx) as (i & Hi & Hl & Ht).
    exists (S i). rewrite Hi.
    destruct (Z.ltb_spec (Z.of_nat i) 0); [lia|].
    split_and!; [lia|done|]. simpl. rewrite not_elem_of_cons. split; [congruence|done].
Qed.

Lemma splice1_of_nat i l : i < length l → splice1 (Z.of_nat i) l = delete i l.
Proof.
  intros Hi. unfold splice1.
  destruct (Z.ltb_spec (Z.of_nat i) 0); [lia|].
  f_equal. lia.
Qed.

Lemma splice1_sublist start l : splice1 start l `sublist_of` l.
Proof. apply sublist_delete. Qed.

Lemma splice1_NoDup start l : NoDup l → NoDup (splice1 start l).
Proof. intros Hl. by eapply sublist_NoDup; [|apply splice1_sublist]. Qed.

(** On a list without duplicates, removing at [indexOf x] removes [x]. *)
Lemma splice1_indexOf_NoDup x l y :
  NoDup l → x ∈ l →
  y ∈ splice1 (indexOf x l) l ↔ y ∈ l ∧ y ≠ x.
Proof.
  intros Hnd Hx.
  destruct (indexOf_elem x l Hx) as (i & Hi & Hl & Ht).
  assert (i < length l) as Hlt by (by eapply lookup_lt_Some).
  rewrite Hi, splice1_of_nat, delete_take_drop by done.
  rewrite <- (take_drop_middle l i x Hl) in Hnd.
  rewrite <- (take_drop_middle l i x Hl) at 3.
  apply NoDup_app in Hnd as (_ & Hdisj & Hnd).
  apply NoDup_cons in Hnd as [Hxd _].
  rewrite !elem_of_app, elem_of_cons. split.
  - intros [Hy|Hy]; (split; [tauto|]); intros ->; [done|].
    by apply (Hdisj x); [|apply elem_of_cons; right].
  - intros [[Hy|[Hy|Hy]] Hyx]; tauto.
Qed.

(** ** The edge lists after each call *)

Section addDependency_new.
Context (this node : ref) (h : heap).
Hypothesis Hthis : this < length h.
Hypothesis Hnode : node < length h.
Hypothesis Hne : node ≠ this.
Hypothesis Hnew : node ∉ getDependencies h this.

Lemma addDependency_new :
  addDependency this node h =
  (alter (push_dependencies node) this
    (alter (push_dependents this) node h), Normal tt).
Proof.
  unfold addDependency, includes.
  rewrite decide_False by done. by rewrite bool_decide_eq_false_2.
Qed.

Lemma addDependency_new_dependencies r :
  getDependencies (addDependency this node h).1 r =
  if decide (r = this) then getDependencies h this ++ [node]
  else getDependencies h r.
Proof.
  rewrite addDependency_new. simpl.
  rewrite getDependencies_alter.
  destruct (decide (this = r)) as [->|Hr].
  - rewrite decide_True by done.
    rewrite list_lookup_alter_ne by done.
    destruct (lookup_in_heap h r Hthis) as [n Hn].
    unfold getDependencies. by rewrite Hn.
  - rewrite decide_False by done.
    rewrite getDependencies_alter. case_decide; [|done].
    subst. unfold getDependencies. by destruct (h !! r).
Qed.

Lemma addDependency_new_dependents r :
  getDependents (addDependency this node h).1 r =
  if decide (r = node) then getDependents h node ++ [this]
  else getDependents h r.
Proof.
  rewrite addDependency_new. simpl.
  rewrite getDependents_alter.
  destruct (decide (this = r)) as [<-|Hr].
  - rewrite decide_False by done.
    rewrite list_lookup_alter_ne by done.
    unfold getDependents. by destruct (h !! this).
  - rewrite getDependents_alter.
    destruct (decide (node = r)) as [<-|Hr'].
    + rewrite decide_True by done.
      destruct (lookup_in_heap h node Hnode) as [n Hn].
      unfold getDependents. by rewrite Hn.
    + by rewrite decide_False by done.
Qed.
End addDependency_new.

Lemma addDependency_present this node h :
  node ≠ this → node ∈ getDependencies h this →
  addDependency this node h = (h, Normal tt).
Proof.
  intros Hne Hin. unfold addDependency, includes.
  rewrite decide_False by done. by rewrite bool_decide_eq_true_2.
Qed.

Lemma removeDependency_absent this node h :
  node ∉ getDependencies h this → removeDependency this node h = h.
Proof.
  intros Hin. unfold removeDependency, includes.
  by rewrite bool_decide_eq_false_2.
Qed.

Section removeDependency_present.
Context (this node : ref) (h : heap).
Hypothesis Hin : node ∈ getDependencies h this.

Lemma removeDependency_present_dependencies r :
  getDependencies (removeDependency this node h) r =
  if decide (r = this)
  then splice1 (indexOf node (getDependencies h this))
  (getDependencies h this)
  else getDependencies h r.
Proof.
  unfold removeDependency, includes. rewrite bool_decide_eq_true_2 by done.
  simpl. rewrite getDependencies_alter.
  destruct (decide (this = r)) as [<-|Hr].
  - rewrite decide_True by done.
    unfold getDependencies in *.
    destruct (decide (node = this)) as [->|Hn].
    + rewrite list_lookup_alter_eq. by destruct (h !! this).
    + rewrite list_lookup_alter_ne by done. by destruct (h !! this).
  - rewrite decide_False by done.
    rewrite getDependencies_alter. case_decide; [|done].
    subst. unfold getDependencies. by destruct (h !! r).
Qed.

Lemma removeDependency_present_dependents r :
  getDependents (removeDependency this node h) r =
  if decide (r = node)
  then splice1 (indexOf this (getDependents h node))
  (getDependents h node)
  else getDependents h r.
Proof.
  unfold removeDependency, includes. rewrite bool_decide_eq_true_2 by done.
  simpl. rewrite getDependents_alter.
  assert (∀ r', getDependents
    (alter (λ n, with_dependents
    (splice1 (indexOf this (getDependents h node)) (_dependents n)) n)
    node h) r' =
    if decide (r' = node)
    then splice1 (indexOf this (getDependents h node)) (getDependents h node)
    else getDependents h r') as Hinner.
  { intros r'. rewrite getDependents_alter.
    destruct (decide (node = r')) as [<-|Hr'].
    - rewrite decide_True by done. unfold getDependents.
      by destruct (h !! node).
    - by rewrite decide_False by done. }
  destruct (decide (this = r)) as [<-|Hr].
  - rewrite <- Hinner. generalize (indexOf this (getDependents h node)).
    intros i. unfold getDependents. by destruct (alter _ node h !! this).
  - by rewrite Hinner.
Qed.
End removeDependency_present.

(** When the dependents list of [node] does not hold [this], [indexOf]
    gives -1 and [splice(-1, 1)] removes the last dependent of [node]. *)
Example removeDependency_unmatched :
  removeDependency 0 1
    [mkBaseNode "a" false [] [1]; mkBaseNode "x" false [2] [];
     mkBaseNode "y" false [] []] =
    [mkBaseNode "a" false [] []; mkBaseNode "x" false [] [];
     mkBaseNode "y" false [] []].
Proof. reflexivity. Qed.

(** ** The invariant: matched pairs, each edge once *)


Lemma addDependency_edges_ok this node h :
  this < length h → node < length h →
  edges_ok h → edges_ok (addDependency this node h).1.
Proof.
  intros Hthis Hnode [Hsym Hnd].
  destruct (decide (node = this)) as [->|Hne].
  { unfold addDependency. by rewrite decide_True. }
  destruct (decide (node ∈ getDependencies h this)) as [Hin|Hnew].
  { by rewrite addDependency_present. }
  split.
  - intros a b.
    rewrite addDependency_new_dependencies, addDependency_new_dependents
      by done.
    specialize (Hsym a b).
    repeat case_decide; subst; rewrite ?elem_of_app, ?list_elem_of_singleton;
      tauto.
  - intros n.
    rewrite addDependency_new_dependencies, addDependency_new_dependents
      by done.
    destruct (Hnd n) as [Hd1 Hd2].
    split; case_decide; subst; try done.
    + apply NoDup_app. split_and!; [done| |apply NoDup_singleton].
      intros x Hx ->%list_elem_of_singleton. done.
    + apply NoDup_app. split_and!; [done| |apply NoDup_singleton].
      intros x Hx ->%list_elem_of_singleton. by apply Hnew, Hsym.
Qed.

Lemma removeDependency_edges_ok this node h :
  edges_ok h → edges_ok (removeDependency this node h).
Proof.
  intros [Hsym Hnd].
  destruct (decide (node ∈ getDependencies h this)) as [Hin|Hnew];
    [|by rewrite removeDependency_absent].
  assert (this ∈ getDependents h node) as Hin' by by apply Hsym.
  split.
  - intros a b.
    rewrite removeDependency_present_dependencies,
      removeDependency_present_dependents by done.
    specialize (Hsym a b).
    repeat case_decide; subst;
      rewrite ?splice1_indexOf_NoDup by (done || apply Hnd); tauto.
  - intros n.
    rewrite removeDependency_present_dependencies,
      removeDependency_present_dependents by done.
    destruct (Hnd n) as [Hd1 Hd2].
    split; case_decide; subst; try done; by apply splice1_NoDup.
Qed.

Lemma removeAllDependencies_edges_ok this h :
  edges_ok h → edges_ok (removeAllDependencies this h).
Proof.
  unfold removeAllDependencies. generalize (getDependencies h this).
  intros l. revert h. induction l as [|x l IH]; intros h Hh; simpl; [done|].
  by apply IH, removeDependency_edges_ok.
Qed.

(** A heap of nodes that were just constructed satisfies the invariant,
    and so does every heap the five calls build from it. *)
Lemma unlinked_edges_ok (ids : list string) : edges_ok (newBaseNode <$> ids).
Proof.
  assert (∀ r, getDependencies (newBaseNode <$> ids) r = [] ∧
               getDependents (newBaseNode <$> ids) r = []) as Hempty.
  { intros r. unfold getDependencies, getDependents.
    rewrite list_lookup_fmap. by destruct (ids !! r). }
  split.
  - intros a b. destruct (Hempty a) as [_ ->], (Hempty b) as [-> _].
    by rewrite !elem_of_nil.
  - intros n. destruct (Hempty n) as [-> ->]. split; apply NoDup_nil_2.
Qed.

Lemma run_edge_op_length op h : length (run_edge_op op h) = length h.
Proof.
  assert (∀ this node h', length (addDependency this node h').1 = length h')
    as Hadd.
  { intros this node h'. unfold addDependency.
    repeat case_match; simpl; by rewrite ?length_alter. }
  assert (∀ this node h', length (removeDependency this node h') = length h')
    as Hrem.
  { intros this node h'. unfold removeDependency.
    case_match; simpl; by rewrite ?length_alter. }
  destruct op; simpl; unfold addDependent, removeDependent; try done.
  unfold removeAllDependencies. generalize (getDependencies h this).
  intros l. revert h. induction l as [|x l IH]; intros h; simpl; [done|].
  by rewrite IH, Hrem.
Qed.

(** ** C5 *)

(** C5. [N.addDependency(N)] throws the self-dependency error for every
    node [N] and every heap, and the heap after the failed call is the heap
    before it: no list of any node has changed. *)
Theorem addDependency_self_throws (h : heap) (N : ref) :
  addDependency N N h = (h, Throw "Cannot add dependency on itself").
Proof. unfold addDependency. by rewrite decide_True. Qed.

(** ** C6 *)

Lemma NoDup_filter_eq_length (l : list ref) x :
  NoDup l → x ∈ l → length (filter (λ y, y = x) l) = 1.
Proof.
  induction l as [|z l IH]; [by intros _ ?%elem_of_nil|].
  intros [Hz Hnd]%NoDup_cons Hx.
  assert (x ∉ l → filter (λ y, y = x) l = []) as Hnone.
  { clear. intros Hl. induction l as [|y l IH]; [done|].
    apply not_elem_of_cons in Hl as [Hy Hl].
    rewrite filter_cons_False by done. by apply IH. }
  destruct (decide (z = x)) as [->|Hne].
  - rewrite filter_cons_True by done. by rewrite Hnone.
  - rewrite filter_cons_False by done. apply IH; [done|].
    apply elem_of_cons in Hx as [?|?]; [congruence|done].
Qed.

Lemma addDependency_adds this node h :
  this < length h → node ≠ this →
  node ∈ getDependencies (addDependency this node h).1 this.
Proof.
  intros Hthis Hne.
  destruct (decide (node ∈ getDependencies h this)) as [Hin|Hnew].
  - by rewrite addDependency_present.
  - unfold addDependency, includes. rewrite decide_False by done.
    rewrite bool_decide_eq_false_2 by done. simpl.
    rewrite getDependencies_alter, decide_True by done.
    rewrite list_lookup_alter_ne by done.
    destruct (lookup_in_heap h this Hthis) as [n ->]. simpl.
    apply elem_of_app. right. by left.
Qed.

(** C6. For distinct nodes [A] and [X], in every state both calls of
    [A.addDependency(X)] return normally and the second leaves the heap
    reached by the first as it is; when the edge lists were symmetric and
    free of duplicates (as in every state built by these calls), [X] is
    listed exactly once in [A]'s dependencies and [A] exactly once in
    [X]'s dependents after the calls; and [A.removeDependency(X)] on an
    edge that is not there leaves the heap as it is. *)
Theorem addDependency_idempotent_removeDependency_absent
    (h : heap) (A X : ref) :
  A ≠ X → A < length h → X < length h →
  let once := (addDependency A X h).1 in
  addDependency A X h = (once, Normal tt)
  ∧ addDependency A X once = (once, Normal tt)
  ∧ (symmetric h → duplicate_free h →
       length (filter (λ y, y = X) (getDependencies once A)) = 1
       ∧ length (filter (λ y, y = A) (getDependents once X)) = 1)
  ∧ (X ∉ getDependencies h A → removeDependency A X h = h).
Proof.
  intros Hne HA HX once. subst once.
  assert (X ≠ A) as Hne' by congruence.
  pose proof (addDependency_adds A X h HA Hne') as Hadded.
  split_and!.
  - destruct (decide (X ∈ getDependencies h A)) as [Hin|Hnew].
    + by rewrite addDependency_present.
    + by rewrite addDependency_new.
  - by apply addDependency_present.
  - intros Hsym Hnd.
    destruct (addDependency_edges_ok A X h HA HX (conj Hsym Hnd))
      as [Hsym' Hnd'].
    split; apply NoDup_filter_eq_length; try apply Hnd'; [done|].
    by apply Hsym'.
  - apply removeDependency_absent.
Qed.

Lemma addDependency_idempotent_removeDependency_absent_witness :
  let h := [mkBaseNode "a" false [] []; mkBaseNode "x" false [] []] in
  let once := (addDependency 0 1 h).1 in
  once = [mkBaseNode "a" false [] [1]; mkBaseNode "x" false [0] []]
  ∧ addDependency 0 1 once = (once, Normal tt)
  ∧ removeDependency 0 1 h = h.
Proof.
  intros h once.
  destruct (addDependency_idempotent_removeDependency_absent h 0 1)
    as (H1 & H2 & H3 & H4); [done|simpl; lia|simpl; lia|].
  split_and!; [reflexivity|exact H2|].
  apply H4. vm_compute. by intros ?%elem_of_nil.
Defined.

Lemma run_edge_op_edges_ok (op : edge_op) (h : heap) :
  edge_op_in_heap op h → edges_ok h → edges_ok (run_edge_op op h).
Proof.
  intros Hin Hok.
  destruct op; simpl in *; unfold addDependent, removeDependent.
  - apply addDependency_edges_ok; tauto.
  - apply addDependency_edges_ok; tauto.
  - by apply removeDependency_edges_ok.
  - by apply removeDependency_edges_ok.
  - by apply removeAllDependencies_edges_ok.
Qed.

(** Every heap built from unlinked nodes by the five calls is symmetric
    and free of duplicates. *)
Lemma built_heaps_edges_ok (ids : list string) (ops : list edge_op) :
  Forall (λ op, edge_op_in_heap op (newBaseNode <$> ids)) ops →
  edges_ok (foldl (λ h op, run_edge_op op h) (newBaseNode <$> ids) ops).
Proof.
  pose proof (unlinked_edges_ok ids) as Hok. revert Hok.
  generalize (newBaseNode <$> ids). intros h Hok Hall.
  revert h Hok Hall. induction ops as [|op ops IH]; intros h Hok Hall; [done|].
  apply Forall_cons in Hall as [Hop Hall]. simpl. apply IH.
  - by apply run_edge_op_edges_ok.
  - eapply Forall_impl; [done|]. intros op'.
    destruct op'; simpl; rewrite run_edge_op_length; tauto.
Qed.

(** ** C1 *)

Lemma doubled_edge_heap_symmetric : symmetric doubled_edge_heap.
Proof.
  intros a b. unfold doubled_edge_heap, getDependencies, getDependents.
  destruct a as [|[|a]], b as [|[|b]]; simpl;
    rewrite ?elem_of_cons, ?elem_of_nil; split; intros; lia || tauto.
Qed.

(** Why the absence of duplicates is carried along: membership symmetry
    on its own is not inductive.  In [doubled_edge_heap],
    [removeDependency] takes one of the two entries of node 1 out of node
    0's dependencies and the only entry of node 0 out of node 1's
    dependents. *)
Lemma symmetry_alone_not_preserved :
  ¬ (∀ (op : edge_op) (h : heap),
       edge_op_in_heap op h → symmetric h → symmetric (run_edge_op op h)).
Proof.
  intros Hclaim.
  pose proof (Hclaim (RemoveDependency 0 1) doubled_edge_heap) as Hsym.
  assert (1 ∈ getDependencies
                (run_edge_op (RemoveDependency 0 1) doubled_edge_heap) 0)
    as Hin by (vm_compute; apply list_elem_of_here).
  apply Hsym in Hin.
  - vm_compute in Hin. by apply elem_of_nil in Hin.
  - simpl. lia.
  - apply doubled_edge_heap_symmetric.
Qed.

(** No sequence of calls on newly constructed nodes builds
    [doubled_edge_heap]: [addDependency] returns early when the edge is
    there, so no list ever names a node twice. *)
Lemma doubled_edge_heap_not_built (ids : list string) (ops : list edge_op) :
  Forall (λ op, edge_op_in_heap op (newBaseNode <$> ids)) ops →
  foldl (λ h op, run_edge_op op h) (newBaseNode <$> ids) ops
    ≠ doubled_edge_heap.
Proof.
  intros Hops Heq. destruct (built_heaps_edges_ok ids ops Hops) as [_ Hnd].
  rewrite Heq in Hnd. destruct (Hnd 0) as [Hdup _].
  vm_compute in Hdup. apply NoDup_cons in Hdup as [Hin _].
  apply Hin, list_elem_of_here.
Qed.

(** C1. The edge lists of every state of the graph are symmetric, and the
    five calls keep them so.  Each of [addDependency], [addDependent],
    [removeDependency], [removeDependent] and [removeAllDependencies],
    called on nodes of a heap whose edge lists are symmetric ([A] is in
    [B]'s dependencies iff [B] is in [A]'s dependents) and name no node
    twice, leaves a heap with the same two properties.  Every heap built
    from newly constructed nodes by these calls has both, so that in every
    such heap the invariant holds and each of the five calls preserves
    it. *)
Theorem edge_ops_preserve_symmetry :
  (∀ (op : edge_op) (h : heap),
     edge_op_in_heap op h → symmetric h → duplicate_free h →
     symmetric (run_edge_op op h) ∧ duplicate_free (run_edge_op op h))
  ∧ (∀ (ids : list string) (ops : list edge_op),
       Forall (λ op, edge_op_in_heap op (newBaseNode <$> ids)) ops →
       let h := foldl (λ h op, run_edge_op op h) (newBaseNode <$> ids) ops in
       symmetric h ∧ duplicate_free h
       ∧ ∀ op, edge_op_in_heap op h → symmetric (run_edge_op op h)).
Proof.
  split.
  - intros op h Hin Hsym Hnd. by apply run_edge_op_edges_ok.
  - intros ids ops Hops h.
    destruct (built_heaps_edges_ok ids ops Hops) as [Hsym Hnd].
    split_and!; [done|done|].
    intros op Hin. by apply run_edge_op_edges_ok.
Qed.

Lemma edge_ops_preserve_symmetry_witness :
  let h := foldl (λ h op, run_edge_op op h)
             (newBaseNode <$> ["R"; "B"; "C"; "D"])
             [AddDependency 1 0; AddDependency 2 0;
              AddDependency 3 1; AddDependency 3 2] in
  let h' := run_edge_op (RemoveDependency 3 1) h in
  h = [mkBaseNode "R" false [1; 2] []; mkBaseNode "B" false [3] [0];
       mkBaseNode "C" false [3] [0]; mkBaseNode "D" false [] [1; 2]]
  ∧ h' = [mkBaseNode "R" false [1; 2] []; mkBaseNode "B" false [] [0];
          mkBaseNode "C" false [3] [0]; mkBaseNode "D" false [] [2]]
  ∧ symmetric h ∧ duplicate_free h
  ∧ symmetric h' ∧ duplicate_free h'.
Proof.
  intros h h'.
  destruct (proj2 edge_ops_preserve_symmetry ["R"; "B"; "C"; "D"]
              [AddDependency 1 0; AddDependency 2 0;
               AddDependency 3 1; AddDependency 3 2])
    as (Hsym & Hnd & _).
  { repeat constructor; simpl; lia. }
  split_and!; [reflexivity|reflexivity|exact Hsym|exact Hnd| |];
    apply (proj1 edge_ops_preserve_symmetry (RemoveDependency 3 1) h);
    try done; simpl; lia.
Defined.

(** ** Root resolution *)

Lemma getRootNode_loop_mono fuel fuel' h a r :
  fuel ≤ fuel' →
  getRootNode_loop fuel h a = Some r → getRootNode_loop fuel' h a = Some r.
Proof.
  revert fuel' a. induction fuel as [|fuel IH]; intros fuel' a Hle; simpl.
  - destruct fuel'; simpl; by destruct (getDependencies h a).
  - destruct fuel' as [|fuel']; [lia|]. simpl.
    destruct (getDependencies h a); [done|]. apply IH. lia.
Qed.

(** What [getRootNode] returns has no dependencies and is reached from the
    start along dependency edges. *)
Lemma getRootNode_loop_root fuel h a r :
  getRootNode_loop fuel h a = Some r →
  getDependencies h r = [] ∧ rtc (dependency_edge h) a r.
Proof.
  revert a. induction fuel as [|fuel IH]; intros a; simpl.
  - destruct (getDependencies h a) eqn:Ha; [|done].
    intros [= <-]. by split.
  - destruct (getDependencies h a) as [|d l] eqn:Ha.
    + intros [= <-]. by split.
    + intros Hr. destruct (IH _ Hr) as [Hd Hrtc]. split; [done|].
      eapply rtc_l; [|done]. unfold dependency_edge. rewrite Ha.
      apply list_elem_of_here.
Qed.

Lemma closed_rtc h a b :
  closed h → a < length h → rtc (dependency_edge h) a b → b < length h.
Proof.
  intros Hc Ha Hrtc. induction Hrtc as [|x y z Hxy _ IH]; [done|].
  apply IH. apply (Hc x y). by left.
Qed.

(** A list of distinct nodes of the heap is no longer than the heap. *)
Lemma NoDup_heap_bound (h : heap) (l : list ref) :
  NoDup l → (∀ x, x ∈ l → x < length h) → length l ≤ length h.
Proof.
  intros Hnd Hl.
  transitivity (length (seq 0 (length h))); [|by rewrite length_seq].
  apply submseteq_length, NoDup_submseteq; [done|].
  intros x Hx. apply elem_of_seq. specialize (Hl x Hx). lia.
Qed.

(** In an acyclic closed heap the chain of first dependencies ends within
    as many steps as the heap has nodes. *)
Lemma getRootNode_loop_terminates h fuel (seen : list ref) a :
  closed h → acyclic h →
  NoDup seen → (∀ s, s ∈ seen → s < length h) →
  (∀ s, s ∈ seen → tc (dependency_edge h) s a) →
  a < length h → length h ≤ fuel + S (length seen) →
  is_Some (getRootNode_loop fuel h a).
Proof.
  intros Hc Hac. revert seen a.
  induction fuel as [|fuel IH]; intros seen a Hnd Hlt Htc Ha Hlen; simpl.
  - destruct (getDependencies h a) as [|d l] eqn:Hdeps; [done|].
    exfalso.
    assert (a ∉ seen) as Hfresh by (intros Hin; by apply (Hac a), Htc).
    assert (length (a :: seen) ≤ length h) as Hbound.
    { apply NoDup_heap_bound; [by apply NoDup_cons|].
      intros x [->|Hx]%elem_of_cons; auto. }
    simpl in *.
    assert (d < length h) as Hd.
    { apply (Hc a d). left. rewrite Hdeps. apply list_elem_of_here. }
    assert (d ∉ a :: seen) as Hfresh'.
    { intros [->|Hin]%elem_of_cons.
      - apply (Hac a), tc_once. unfold dependency_edge. rewrite Hdeps.
        apply list_elem_of_here.
      - apply (Hac d). eapply tc_r; [by apply Htc|].
        unfold dependency_edge. rewrite Hdeps. apply list_elem_of_here. }
    assert (length (d :: a :: seen) ≤ length h) as Hbound'.
    { apply NoDup_heap_bound.
      - apply NoDup_cons. split; [done|]. by apply NoDup_cons.
      - intros x [->|[->|Hx]%elem_of_cons]%elem_of_cons; auto. }
    simpl in *. lia.
  - destruct (getDependencies h a) as [|d l] eqn:Hdeps; [done|].
    assert (dependency_edge h a d) as Hedge.
    { unfold dependency_edge. rewrite Hdeps. apply list_elem_of_here. }
    apply (IH (a :: seen)).
    + apply NoDup_cons. split; [|done].
      intros Hin. by apply (Hac a), Htc.
    + intros s [->|Hs]%elem_of_cons; auto.
    + intros s [->|Hs]%elem_of_cons; [by apply tc_once|].
      eapply tc_r; [by apply Htc|done].
    + apply (Hc a d). by left.
    + simpl. lia.
Qed.

(** ** Soundness of the checkers *)

Lemma getDependencies_in_heap (h : heap) a b :
  b ∈ getDependencies h a → a < length h.
Proof.
  unfold getDependencies. destruct (h !! a) eqn:Ha; simpl.
  - intros _. by eapply lookup_lt_Some.
  - by intros ?%elem_of_nil.
Qed.

Lemma getDependents_in_heap (h : heap) a b :
  b ∈ getDependents h a → a < length h.
Proof.
  unfold getDependents. destruct (h !! a) eqn:Ha; simpl.
  - intros _. by eapply lookup_lt_Some.
  - by intros ?%elem_of_nil.
Qed.

Lemma forallb_seq_heap (P : ref → bool) (h : heap) i :
  forallb P (seq 0 (length h)) = true → i < length h → P i = true.
Proof.
  rewrite forallb_forall. intros HP Hi. apply HP, in_seq. lia.
Qed.

Lemma forallb_elem (P : ref → bool) (l : list ref) x :
  forallb P l = true → x ∈ l → P x = true.
Proof. rewrite forallb_forall. intros HP Hx. by apply HP, list_elem_of_In. Qed.

Lemma closedb_closed h : closedb h = true → closed h.
Proof.
  unfold closedb. rewrite forallb_forall. intros Hall a b Hb.
  assert (∃ n, h !! a = Some n ∧ b ∈ _dependents n ++ _dependencies n)
    as (n & Hn & Hin).
  { unfold getDependencies, getDependents in Hb.
    destruct (h !! a) as [n|]; simpl in Hb.
    - exists n. split; [done|]. apply elem_of_app. tauto.
    - destruct Hb as [Hb|Hb]; by apply elem_of_nil in Hb. }
  assert (In n h) as Hn'.
  { apply list_elem_of_In. by eapply list_elem_of_lookup_2. }
  specialize (Hall n Hn'). apply (forallb_elem _ _ b) in Hall; [|done].
  by apply Nat.ltb_lt in Hall.
Qed.

Lemma symmetricb_symmetric h : symmetricb h = true → symmetric h.
Proof.
  unfold symmetricb. intros Hall a b. split; intros Hin.
  - pose proof (getDependencies_in_heap _ _ _ Hin) as Hb.
    apply (forallb_seq_heap _ _ b) in Hall; [|done].
    apply andb_true_iff in Hall as [Hall _].
    apply (forallb_elem _ _ a) in Hall; [|done].
    by apply bool_decide_eq_true in Hall.
  - pose proof (getDependents_in_heap _ _ _ Hin) as Ha.
    apply (forallb_seq_heap _ _ a) in Hall; [|done].
    apply andb_true_iff in Hall as [_ Hall].
    apply (forallb_elem _ _ b) in Hall; [|done].
    by apply bool_decide_eq_true in Hall.
Qed.

Lemma topologicalb_acyclic rank h : topologicalb rank h = true → acyclic h.
Proof.
  unfold topologicalb. intros Hall.
  assert (∀ a b, tc (dependency_edge h) a b → rank b < rank a) as Hdecr.
  { intros a b Htc. induction Htc as [a b Hab|a b c Hab _ IH].
    - pose proof (getDependencies_in_heap _ _ _ Hab) as Ha.
      apply (forallb_seq_heap _ _ a) in Hall; [|done].
      apply (forallb_elem _ _ b) in Hall; [|done].
      by apply Nat.ltb_lt in Hall.
    - pose proof (getDependencies_in_heap _ _ _ Hab) as Ha.
      apply (forallb_seq_heap _ _ a) in Hall; [|done].
      apply (forallb_elem _ _ b) in Hall; [|done].
      apply Nat.ltb_lt in Hall. lia. }
  intros a Ha. apply Hdecr in Ha. lia.
Qed.

(** ** C9 *)

Lemma two_roots_heap_connected : connected two_roots_heap.
Proof.
  assert (∀ a, a < 3 → rtsc (dependency_edge two_roots_heap) a 2) as Hto.
  { intros a Ha. destruct a as [|[|[|a]]]; [| |done|lia].
    - apply rtsc_rl. unfold dependency_edge. vm_compute. apply list_elem_of_here.
    - apply rtsc_rl. unfold dependency_edge. vm_compute.
      apply list_elem_of_further, list_elem_of_here. }
  intros a b Ha Hb. simpl in *.
  transitivity 2; [by apply Hto|]. symmetry. by apply Hto.
Qed.

(** C9, as stated, fails: in the connected graph [two_roots_heap], node 2
    depends on nodes 0 and 1 and neither of these has a dependency, so
    [getRootNode] returns node 0 on node 0 and node 1 on node 1. *)
Lemma getRootNode_connected_not_stable :
  ¬ (∀ (h : heap) (fuel a b ra rb : nat),
       connected h → a < length h → b < length h →
       getRootNode fuel h a = Some ra → getRootNode fuel h b = Some rb →
       id h ra = id h rb).
Proof.
  intros Hclaim.
  specialize (Hclaim two_roots_heap 3 0 1 0 1 two_roots_heap_connected).
  simpl in Hclaim. discriminate Hclaim; (lia || reflexivity).
Qed.

(** C9 (amended). In a graph without dependency cycles in which exactly
    one node has no dependencies, [getRootNode] (following the first entry
    of the dependencies list until a node has none) returns that node on
    every member, hence the same node on any two members. *)
Theorem getRootNode_single_root (h : heap) (root a b fuel : nat) :
  closed h → acyclic h →
  (∀ r, r < length h → getDependencies h r = [] → r = root) →
  a < length h → b < length h → length h ≤ fuel →
  getRootNode fuel h a = Some root ∧ getRootNode fuel h b = Some root.
Proof.
  intros Hc Hac Hroot Ha Hb Hfuel.
  assert (∀ x, x < length h → getRootNode fuel h x = Some root) as Hone.
  { intros x Hx. unfold getRootNode.
    destruct (getRootNode_loop_terminates h fuel [] x) as [r Hr];
      try done.
    - apply NoDup_nil_2.
    - by intros s ?%elem_of_nil.
    - by intros s ?%elem_of_nil.
    - simpl. lia.
    - rewrite Hr. f_equal.
      destruct (getRootNode_loop_root _ _ _ _ Hr) as [Hd Hrtc].
      apply Hroot; [|done]. by eapply closed_rtc. }
  split; by apply Hone.
Qed.

Example diamond_heap_nodes :
  diamond_heap =
    [mkBaseNode "R" false [1; 2] []; mkBaseNode "B" false [3] [0];
     mkBaseNode "C" false [3] [0]; mkBaseNode "D" false [] [1; 2]].
Proof. reflexivity. Qed.

Lemma diamond_heap_closed : closed diamond_heap.
Proof. by apply closedb_closed. Qed.

Lemma diamond_heap_acyclic : acyclic diamond_heap.
Proof. by apply (topologicalb_acyclic (λ r, r)). Qed.

Lemma diamond_heap_symmetric : symmetric diamond_heap.
Proof. by apply symmetricb_symmetric. Qed.

Lemma getRootNode_single_root_witness :
  getRootNode 4 diamond_heap 3 = Some 0
  ∧ getRootNode 4 diamond_heap 2 = Some 0.
Proof.
  apply (getRootNode_single_root diamond_heap 0 3 2 4).
  - apply diamond_heap_closed.
  - apply diamond_heap_acyclic.
  - intros r Hr. destruct r as [|[|[|[|r]]]]; try done. simpl in Hr. lia.
  - simpl. lia.
  - simpl. lia.
  - simpl. lia.
Defined.

(** ** The traversal generator *)

Section generator.
Context (ids : ref → string) (getNextNodes : ref → list ref).

Lemma next_Some g item g' :
  next ids getNextNodes g = Some (item, g') →
  ∃ p q v,
    resume ids getNextNodes g = (p :: q, v)
    ∧ p ≠ [] ∧ item = mkItem (top p) p
    ∧ resume ids getNextNodes g' =
        enqueue ids (getNextNodes (top p)) p q v.
Proof.
  unfold next. destruct (resume ids getNextNodes g) as [[|p q] v]; [done|].
  destruct p as [|n p']; [done|]. intros [= <- <-].
  exists (n :: p'), q, v. by split_and!.
Qed.

Lemma next_None g q v :
  next ids getNextNodes g = None →
  resume ids getNextNodes g = (q, v) →
  (∀ p, p ∈ q → p ≠ []) → q = [].
Proof.
  unfold next. intros Hnext Hres Hne. rewrite Hres in Hnext.
  destruct q as [|p q]; [done|].
  destruct p as [|n p']; [|done].
  by destruct (Hne [] (list_elem_of_here _ _)).
Qed.

(** The first [n] elements are a prefix of all the elements. *)
Lemma drain_yields fuel g items :
  drain fuel ids getNextNodes g = Some items →
  ∀ n, yields n ids getNextNodes g = take n items.
Proof.
  revert g items. induction fuel as [|fuel IH]; intros g items; simpl.
  - destruct (next ids getNextNodes g) as [[item g']|] eqn:Hnext; [done|].
    intros [= <-] n. destruct n; simpl; by rewrite ?Hnext.
  - destruct (next ids getNextNodes g) as [[item g']|] eqn:Hnext.
    + destruct (drain fuel ids getNextNodes g') as [items'|] eqn:Hd; [|done].
      intros [= <-] n. destruct n; simpl; [done|].
      rewrite Hnext. f_equal. by apply IH.
    + intros [= <-] n. destruct n; simpl; by rewrite ?Hnext.
Qed.

Lemma drain_mono fuel fuel' g items :
  fuel ≤ fuel' →
  drain fuel ids getNextNodes g = Some items →
  drain fuel' ids getNextNodes g = Some items.
Proof.
  revert fuel' g items.
  induction fuel as [|fuel IH]; intros fuel' g items Hle; simpl.
  - destruct (next ids getNextNodes g) as [[item g']|] eqn:Hnext; [done|].
    intros [= <-]. destruct fuel'; simpl; by rewrite Hnext.
  - destruct fuel' as [|fuel']; [lia|]. simpl.
    destruct (next ids getNextNodes g) as [[item g']|] eqn:Hnext; [|done].
    destruct (drain fuel ids getNextNodes g') as [items'|] eqn:Hd; [|done].
    intros [= <-]. by rewrite (IH fuel' g' items') by (done || lia).
Qed.

(** *** The invariant rule *)

Section rule.
Context (I : list (list ref) → list (list ref) → gset string → Prop).
Hypothesis I_nonempty : ∀ P q v p, I P q v → p ∈ q → p ≠ [].
Hypothesis I_step : ∀ P p q v,
  I P (p :: q) v →
  I (P ++ [p]) (enqueue ids (getNextNodes (top p)) p q v).1
               (enqueue ids (getNextNodes (top p)) p q v).2.

Local Abbreviation I_gen P g :=
  (I P (resume ids getNextNodes g).1 (resume ids getNextNodes g).2).

Lemma I_next P g item g' :
  I_gen P g → next ids getNextNodes g = Some (item, g') →
  traversalPath item = node item :: tail (traversalPath item)
  ∧ I_gen (P ++ [traversalPath item]) g'.
Proof.
  intros HI (p & q & v & Hres & Hp & -> & Hres')%next_Some.
  rewrite Hres in HI. rewrite Hres'. simpl in *.
  split; [by destruct p|]. by apply I_step.
Qed.

Lemma yields_invariant n P g :
  I_gen P g →
  let items := yields n ids getNextNodes g in
  Forall (λ it, traversalPath it = node it :: tail (traversalPath it))
  items
  ∧ ∃ q v, I (P ++ (traversalPath <$> items)) q v.
Proof.
  revert P g. induction n as [|n IH]; intros P g HI; simpl.
  - split; [done|]. rewrite app_nil_r. by eexists _, _.
  - destruct (next ids getNextNodes g) as [[item g']|] eqn:Hnext; simpl.
    + destruct (I_next _ _ _ _ HI Hnext) as [Hitem HI'].
      destruct (IH _ _ HI') as [Hall (q & v & HIq)].
      split; [by apply Forall_cons|].
      exists q, v. by rewrite <- app_assoc in HIq.
    + split; [done|]. rewrite app_nil_r. by eexists _, _.
Qed.

Lemma drain_invariant fuel P g items :
  I_gen P g → drain fuel ids getNextNodes g = Some items →
  ∃ v, I (P ++ (traversalPath <$> items)) [] v.
Proof.
  revert P g items. induction fuel as [|fuel IH]; intros P g items HI;
    simpl; destruct (next ids getNextNodes g) as [[item g']|] eqn:Hnext;
    try done.
  - intros [= <-]. simpl. rewrite app_nil_r.
    destruct (resume ids getNextNodes g) as [q v] eqn:Hres.
    exists v. simpl in HI.
    by rewrite (next_None g q v Hnext Hres (λ p, I_nonempty _ _ _ p HI))
      in HI.
  - destruct (drain fuel ids getNextNodes g') as [items'|] eqn:Hd; [|done].
    intros [= <-]. destruct (I_next _ _ _ _ HI Hnext) as [_ HI'].
    destruct (IH _ _ _ HI' Hd) as [v Hv]. exists v. simpl.
    by rewrite <- app_assoc in Hv.
  - intros [= <-]. simpl. rewrite app_nil_r.
    destruct (resume ids getNextNodes g) as [q v] eqn:Hres.
    exists v. simpl in HI.
    by rewrite (next_None g q v Hnext Hres (λ p, I_nonempty _ _ _ p HI))
      in HI.
Qed.
End rule.
End generator.

(** ** Ids are never enqueued twice *)

Lemma path_ids_app ids ps1 ps2 :
  path_ids ids (ps1 ++ ps2) = path_ids ids ps1 ++ path_ids ids ps2.
Proof. unfold path_ids. by rewrite !fmap_app. Qed.

Lemma elem_of_path_ids ids ps s :
  s ∈ path_ids ids ps ↔ ∃ p, p ∈ ps ∧ ids (top p) = s.
Proof.
  unfold path_ids. rewrite list_elem_of_fmap. split.
  - intros (x & -> & (p & -> & Hp)%list_elem_of_fmap). eauto.
  - intros (p & Hp & <-). exists (top p). split; [done|].
    apply list_elem_of_fmap. eauto.
Qed.

Section ids_only.
Context (ids : ref → string) (getNextNodes : ref → list ref).
Context (U : list ref).
Hypothesis U_closed : ∀ x y, x ∈ U → y ∈ getNextNodes x → y ∈ U.

Lemma ids_inv_enqueue P p nextNodes q v :
  ids_inv ids U P q v → (∀ y, y ∈ nextNodes → y ∈ U) →
  ids_inv ids U P (enqueue ids nextNodes p q v).1
  (enqueue ids nextNodes p q v).2.
Proof.
  revert q v. induction nextNodes as [|y l IH]; intros q v Hinv Hl; [done|].
  simpl. case_decide as Hy.
  - apply IH; [done|]. intros y' Hy'. apply Hl. by right.
  - apply IH; [|intros y' Hy'; apply Hl; by right].
    destruct Hinv as [Hne Hnd Hv Hin].
    assert (path_ids ids (P ++ q ++ [y :: p]) =
      path_ids ids (P ++ q) ++ [ids y]) as Heq.
    { by rewrite app_assoc, path_ids_app. }
    split.
    + intros p' [Hp'|Hp']%elem_of_app; [auto|].
      by apply list_elem_of_singleton in Hp' as ->.
    + rewrite Heq. apply NoDup_app. split_and!; [done| |apply NoDup_singleton].
      intros s Hs ->%list_elem_of_singleton. by apply Hy, Hv.
    + intros s. rewrite Heq, elem_of_app, list_elem_of_singleton.
      rewrite elem_of_union, elem_of_singleton, Hv. tauto.
    + intros p'. rewrite app_assoc.
      intros [Hp'|Hp']%elem_of_app; [auto|].
      apply list_elem_of_singleton in Hp' as ->. apply Hl. by left.
Qed.

Lemma ids_inv_step P p q v :
  ids_inv ids U P (p :: q) v →
  ids_inv ids U (P ++ [p])
  (enqueue ids (getNextNodes (top p)) p q v).1
  (enqueue ids (getNextNodes (top p)) p q v).2.
Proof.
  intros Hinv.
  assert (top p ∈ U) as Hp.
  { apply (ids_within _ _ _ _ _ Hinv). apply elem_of_app. right. by left. }
  apply ids_inv_enqueue; [|by eauto].
  destruct Hinv as [Hne Hnd Hv Hin].
  split; rewrite <- ?app_assoc; try done.
  intros p' Hp'. apply Hne. by right.
Qed.

Lemma ids_inv_start this :
  this ∈ U → ids_inv ids U [] [[this]] {[ids this]}.
Proof.
  intros Hthis. split; simpl.
  - by intros p ->%list_elem_of_singleton.
  - apply NoDup_singleton.
  - intros s. unfold path_ids. simpl. by rewrite elem_of_singleton, list_elem_of_singleton.
  - by intros p ->%list_elem_of_singleton.
Qed.

(** The number of paths never exceeds the number of ids in [U]. *)
Lemma ids_inv_bound P q v :
  ids_inv ids U P q v →
  length P + length q ≤ size (list_to_set (C := gset string) (ids <$> U)).
Proof.
  intros [Hne Hnd Hv Hin].
  rewrite <- length_app.
  replace (length (P ++ q)) with (length (path_ids ids (P ++ q)))
    by (unfold path_ids; by rewrite !length_fmap).
  rewrite <- (size_list_to_set (C := gset string)) by done.
  apply subseteq_size. intros s.
  rewrite !elem_of_list_to_set, elem_of_path_ids.
  intros (p & Hp & <-). apply list_elem_of_fmap. eauto.
Qed.

(** With as much fuel as there are ids, the generator returns. *)
Lemma drain_terminates fuel P g :
  ids_inv ids U P (resume ids getNextNodes g).1 (resume ids getNextNodes g).2 →
  size (list_to_set (C := gset string) (ids <$> U)) ≤ fuel + length P →
  is_Some (drain fuel ids getNextNodes g).
Proof.
  revert P g. induction fuel as [|fuel IH]; intros P g Hinv Hfuel; simpl.
  - destruct (next ids getNextNodes g) as [[item g']|] eqn:Hnext; [|done].
    apply next_Some in Hnext as (p & q & v & Hres & _).
    rewrite Hres in Hinv. apply ids_inv_bound in Hinv. simpl in *. lia.
  - destruct (next ids getNextNodes g) as [[item g']|] eqn:Hnext; [|done].
    apply next_Some in Hnext as (p & q & v & Hres & Hp & -> & Hres').
    rewrite Hres in Hinv. simpl in Hinv.
    destruct (IH (P ++ [p]) g') as [items Hitems].
    + rewrite Hres'. by apply ids_inv_step.
    + rewrite length_app. simpl. lia.
    + by rewrite Hitems.
Qed.
End ids_only.

Lemma size_list_to_set_le (l : list string) :
  size (list_to_set (C := gset string) l) ≤ length l.
Proof.
  induction l as [|x l IH]; [by rewrite list_to_set_nil, size_empty|].
  rewrite list_to_set_cons, size_union_alt, size_singleton. simpl length.
  assert (size (list_to_set (C := gset string) l ∖ {[x]}) ≤
          size (list_to_set (C := gset string) l)); [|lia].
  apply subseteq_size. intros y Hy. by apply elem_of_difference in Hy as [? _].
Qed.

Lemma drain_finite
    (ids : ref → string) (getNextNodes : ref → list ref)
    (U : list ref) (this : ref) (fuel : nat) :
  this ∈ U → (∀ x y, x ∈ U → y ∈ getNextNodes x → y ∈ U) →
  length U ≤ fuel →
  ∃ items,
    drain fuel ids getNextNodes (traverseGenerator ids this) = Some items
    ∧ NoDup (ids <$> (node <$> items))
    ∧ (∀ item, item ∈ items → node item ∈ U)
    ∧ length items ≤ size (list_to_set (C := gset string) (ids <$> U)).
Proof.
  intros Hthis Hclosed Hfuel.
  pose proof (ids_inv_start ids U this Hthis) as Hstart.
  destruct (drain_terminates ids getNextNodes U Hclosed fuel []
              (traverseGenerator ids this)) as [items Hitems]; [done| |].
  { pose proof (size_list_to_set_le (ids <$> U)) as Hle.
    rewrite length_fmap in Hle. simpl. lia. }
  exists items. split; [done|].
  destruct (drain_invariant ids getNextNodes (ids_inv ids U)
              (λ P q v p H, ids_nonempty _ _ _ _ _ H p)
              (ids_inv_step ids getNextNodes U Hclosed)
              fuel [] (traverseGenerator ids this) items Hstart Hitems)
    as [v Hinv].
  pose proof (yields_invariant ids getNextNodes (ids_inv ids U)
              (ids_inv_step ids getNextNodes U Hclosed)
              (length items) [] (traverseGenerator ids this) Hstart)
    as [Hshape _].
  rewrite (drain_yields _ _ _ _ _ Hitems), firstn_all in Hshape.
  simpl in Hinv.
  assert (top <$> (traversalPath <$> items) = node <$> items) as Hnodes.
  { clear -Hshape. induction Hshape as [|it l Hit _ IH]; [done|].
    rewrite !fmap_cons, IH. f_equal. unfold top. by rewrite Hit. }
  pose proof (ids_inv_bound _ _ _ _ _ Hinv) as Hbound.
  destruct Hinv as [_ Hnd _ Hin].
  rewrite app_nil_r in *. unfold path_ids in Hnd. rewrite Hnodes in Hnd.
  split_and!; [done| |].
  - intros item Hitem.
    assert (node item ∈ top <$> (traversalPath <$> items)) as Hn.
    { rewrite Hnodes. by apply list_elem_of_fmap_2. }
    apply list_elem_of_fmap in Hn as (p & -> & Hp). by apply Hin.
  - rewrite length_fmap in Hbound. simpl in Hbound. lia.
Qed.

(** ** C10 *)

(** C10. For every finite set [U] of nodes, every expansion function whose
    results on [U] stay in [U] and every start in [U] (no assumption on
    cycles or on the ids), the generator returns after finitely many
    elements: with fuel for [length U] elements or more it yields one and
    the same list of elements, whose nodes are in [U] and have pairwise
    different ids, hence at most one element per id of [U]. *)
Theorem traverseGenerator_finite
    (ids : ref → string) (getNextNodes : ref → list ref)
    (U : list ref) (this : ref) :
  this ∈ U → (∀ x y, x ∈ U → y ∈ getNextNodes x → y ∈ U) →
  ∃ items,
    (∀ fuel, length U ≤ fuel →
       drain fuel ids getNextNodes (traverseGenerator ids this) = Some items)
    ∧ NoDup (ids <$> (node <$> items))
    ∧ (∀ item, item ∈ items → node item ∈ U)
    ∧ length items ≤ size (list_to_set (C := gset string) (ids <$> U)).
Proof.
  intros Hthis Hclosed.
  destruct (drain_finite ids getNextNodes U this (length U))
    as (items & Hitems & Hrest); [done..|].
  exists items. split; [|done].
  intros fuel Hfuel. by apply (drain_mono _ _ (length U)).
Qed.

(** ** Breadth-first order *)

Lemma NoDup_fmap_eq {A B} (f : A → B) (l : list A) x y :
  NoDup (f <$> l) → x ∈ l → y ∈ l → f x = f y → x = y.
Proof.
  induction l as [|z l IH]; [by intros _ ?%elem_of_nil|].
  rewrite fmap_cons, NoDup_cons. intros [Hz Hnd] Hx Hy Hxy.
  apply elem_of_cons in Hx as [->|Hx], Hy as [->|Hy]; try done.
  - destruct Hz. rewrite Hxy. by apply list_elem_of_fmap_2.
  - destruct Hz. rewrite <- Hxy. by apply list_elem_of_fmap_2.
  - by apply IH.
Qed.

Section bfs.
Context (ids : ref → string) (getNextNodes : ref → list ref).
Context (start : ref).
Hypothesis ids_inj : ∀ x y,
  reachable getNextNodes start x → reachable getNextNodes start y →
  ids x = ids y → x = y.

Local Abbreviation path := (path_to getNextNodes start).
Local Abbreviation qinv := (queue_inv ids getNextNodes start).

Lemma path_to_nonempty p : path p → p ≠ [].
Proof. by destruct p. Qed.

Lemma path_to_reachable p : path p → reachable getNextNodes start (top p).
Proof.
  induction p as [|x p IH]; [done|]. simpl.
  destruct p as [|y p'].
  - intros ->. apply rtc_refl.
  - intros [Hxy Hp]. eapply rtc_r; [by apply IH|done].
Qed.

Lemma path_to_cons p y : path p → y ∈ getNextNodes (top p) → path (y :: p).
Proof. destruct p as [|x p']; [done|]. intros Hp Hy. by split. Qed.

Lemma queue_inv_same_top m P q v p p' :
  qinv m P q v → p ∈ P ++ q → p' ∈ P ++ q → top p = top p' → p = p'.
Proof.
  intros Hinv Hp Hp' Htop.
  apply (NoDup_fmap_eq (λ p, ids (top p)) (P ++ q)); try done.
  - pose proof (inv_nodup _ _ _ _ _ _ _ Hinv) as Hnd.
    unfold path_ids in Hnd. by rewrite <- list_fmap_compose in Hnd.
  - by rewrite Htop.
Qed.

Lemma queue_inv_length m P q v p :
  qinv m P q v → p ∈ P ++ q → length p ≤ S m.
Proof.
  intros Hinv Hp.
  destruct (inv_levels _ _ _ _ _ _ _ Hinv) as (q1 & q2 & -> & H1 & H2 & HP).
  rewrite Forall_forall in H1, H2, HP.
  apply elem_of_app in Hp as [Hp|[Hp|Hp]%elem_of_app].
  - specialize (HP p Hp). lia.
  - specialize (H1 p Hp). lia.
  - specialize (H2 p Hp). lia.
Qed.

Lemma queue_inv_queue_length m P q v p :
  qinv m P q v → p ∈ q → m ≤ length p.
Proof.
  intros Hinv Hp.
  destruct (inv_levels _ _ _ _ _ _ _ Hinv) as (q1 & q2 & -> & H1 & H2 & HP).
  rewrite Forall_forall in H1, H2.
  apply elem_of_app in Hp as [Hp|Hp].
  - specialize (H1 p Hp). lia.
  - specialize (H2 p Hp). lia.
Qed.

Lemma queue_inv_pop m P p q v :
  qinv m P (p :: q) v → qinv (length p) (P ++ [p]) q v.
Proof.
  intros [Hpaths Hnd Hv Hlev Hstart].
  split; rewrite <- ?app_assoc; try done.
  destruct Hlev as (q1 & q2 & Hq & H1 & H2 & HP).
  destruct q1 as [|p1 q1]; simpl in Hq.
  - subst q2. apply Forall_cons in H2 as [Hp H2].
    exists q, []. rewrite app_nil_r, Hp. split_and!; try done.
    apply Forall_app. split; [|apply Forall_singleton; lia].
    eapply Forall_impl; [done|]. simpl. lia.
  - injection Hq as <- ->. apply Forall_cons in H1 as [Hp H1].
    exists q1, q2. rewrite Hp. split_and!; try done.
    apply Forall_app. split; [done|]. apply Forall_singleton. lia.
Qed.

Lemma queue_inv_push m P q v p y :
  qinv m P q v → p ∈ P → length p = m →
  y ∈ getNextNodes (top p) → ids y ∉ v →
  qinv m P (q ++ [y :: p]) ({[ids y]} ∪ v).
Proof.
  intros [Hpaths Hnd Hv Hlev Hstart] Hp Hlen Hy Hnew.
  assert (path_ids ids (P ++ q ++ [y :: p]) =
    path_ids ids (P ++ q) ++ [ids y]) as Heq.
  { by rewrite app_assoc, path_ids_app. }
  split.
  - intros p'. rewrite app_assoc. intros [Hp'|Hp']%elem_of_app; [auto|].
    apply list_elem_of_singleton in Hp' as ->.
    apply path_to_cons; [|done]. apply Hpaths, elem_of_app. by left.
  - rewrite Heq. apply NoDup_app. split_and!; [done| |apply NoDup_singleton].
    intros s Hs ->%list_elem_of_singleton. by apply Hnew, Hv.
  - intros s. rewrite Heq, elem_of_app, list_elem_of_singleton.
    rewrite elem_of_union, elem_of_singleton, Hv. tauto.
  - destruct Hlev as (q1 & q2 & -> & H1 & H2 & HP).
    exists q1, (q2 ++ [y :: p]). rewrite app_assoc. split_and!; try done.
    apply Forall_app. split; [done|]. apply Forall_singleton. simpl. lia.
  - rewrite app_assoc. apply elem_of_app. by left.
Qed.

Lemma queue_inv_seen m P q v p y :
  qinv m P q v → p ∈ P ++ q →
  y ∈ getNextNodes (top p) → ids y ∈ v →
  ∃ p', p' ∈ P ++ q ∧ top p' = y ∧ length p' ≤ S m.
Proof.
  intros Hinv Hp Hy Hseen.
  apply (inv_visited _ _ _ _ _ _ _ Hinv), elem_of_path_ids in Hseen
    as (p' & Hp' & Hid).
  exists p'. split_and!; [done| |by eapply queue_inv_length].
  apply ids_inj; [| |done].
  - by apply path_to_reachable, (inv_paths _ _ _ _ _ _ _ Hinv).
  - eapply rtc_r; [|done].
    by apply path_to_reachable, (inv_paths _ _ _ _ _ _ _ Hinv).
Qed.

Lemma queue_inv_enqueue m P p nextNodes q v :
  qinv m P q v → p ∈ P → length p = m →
  (∀ y, y ∈ nextNodes → y ∈ getNextNodes (top p)) →
  let r := enqueue ids nextNodes p q v in
  qinv m P r.1 r.2
  ∧ (∃ ext, r.1 = q ++ ext)
  ∧ ∀ y, y ∈ nextNodes →
      ∃ p', p' ∈ P ++ r.1 ∧ top p' = y ∧ length p' ≤ S m.
Proof.
  revert q v.
  induction nextNodes as [|y l IH]; intros q v Hinv Hp Hlen Hl; simpl.
  - split_and!; [done|exists []; by rewrite app_nil_r|].
    by intros y ?%elem_of_nil.
  - assert (∀ y', y' ∈ l → y' ∈ getNextNodes (top p)) as Hl'.
    { intros y' Hy'. apply Hl. by right. }
    assert (y ∈ getNextNodes (top p)) as Hy by (apply Hl; by left).
    case_decide as Hseen.
    + destruct (IH q v Hinv Hp Hlen Hl') as (Hinv' & [ext Hext] & Hall).
      split_and!; [done|by exists ext|].
      intros y' [->|Hy']%elem_of_cons; [|by apply Hall].
      destruct (queue_inv_seen m P q v p y) as (p' & Hp' & Htop & Hlen');
        try done.
      { apply elem_of_app. by left. }
      exists p'. split_and!; [|done|done].
      rewrite Hext, app_assoc. apply elem_of_app. by left.
    + pose proof (queue_inv_push m P q v p y Hinv Hp Hlen Hy Hseen) as Hinv1.
      destruct (IH _ _ Hinv1 Hp Hlen Hl') as (Hinv' & [ext Hext] & Hall).
      split_and!; [done| |].
      * exists ([y :: p] ++ ext). by rewrite Hext, <- app_assoc.
      * intros y' [->|Hy']%elem_of_cons; [|by apply Hall].
        exists (y :: p). split_and!; [|done|simpl; lia].
        rewrite Hext. rewrite !elem_of_app, list_elem_of_singleton. tauto.
Qed.

Lemma bfs_inv_step P p q v :
  bfs_inv ids getNextNodes start P (p :: q) v →
  bfs_inv ids getNextNodes start (P ++ [p])
  (enqueue ids (getNextNodes (top p)) p q v).1
  (enqueue ids (getNextNodes (top p)) p q v).2.
Proof.
  intros [[m Hinv] Hexp].
  apply queue_inv_pop in Hinv.
  destruct (queue_inv_enqueue (length p) (P ++ [p]) p
    (getNextNodes (top p)) q v)
    as (Hinv' & [ext Hext] & Hall); try done.
  { apply elem_of_app. right. by left. }
  split; [by exists (length p)|].
  intros p0 y [Hp0|Hp0]%elem_of_app Hy.
  - destruct (Hexp p0 y Hp0 Hy) as (p' & Hp' & Htop & Hlen).
    exists p'. split_and!; try done.
    rewrite Hext. rewrite elem_of_app, elem_of_cons in Hp'.
    rewrite !elem_of_app, list_elem_of_singleton. tauto.
  - apply list_elem_of_singleton in Hp0 as ->. by apply Hall.
Qed.

Lemma bfs_inv_nonempty P q v p :
  bfs_inv ids getNextNodes start P q v → p ∈ q → p ≠ [].
Proof.
  intros [[m Hinv] _] Hp. apply path_to_nonempty.
  apply (inv_paths _ _ _ _ _ _ _ Hinv), elem_of_app. by right.
Qed.

Lemma bfs_inv_start :
  bfs_inv ids getNextNodes start [] [[start]] {[ids start]}.
Proof.
  split; [exists 1; split|]; simpl.
  - by intros p ->%list_elem_of_singleton.
  - apply NoDup_singleton.
  - intros s. unfold path_ids. simpl.
    by rewrite elem_of_singleton, list_elem_of_singleton.
  - exists [[start]], []. split_and!; try done. by apply Forall_singleton.
  - by left.
  - by intros p y ?%elem_of_nil.
Qed.

(** Every path to a node is at least as long as the one the traversal
    has for that node. *)
Lemma bfs_inv_reaches m P q v c :
  qinv m P q v → expanded getNextNodes P (P ++ q) →
  path c → length c ≤ m →
  ∃ p, p ∈ P ++ q ∧ top p = top c ∧ length p ≤ length c.
Proof.
  intros Hinv Hexp. induction c as [|x c IH]; [done|].
  simpl. destruct c as [|y c'].
  - intros -> _. exists [start]. split_and!; [|done|done].
    apply (inv_start _ _ _ _ _ _ _ Hinv).
  - intros [Hxy Hc] Hlen.
    destruct (IH Hc) as (py & Hpy & Htop & Hlen'); [simpl in *; lia|].
    apply elem_of_app in Hpy as [Hpy|Hpy].
    + destruct (Hexp py x Hpy) as (p' & Hp' & Htop' & Hlen'').
      { by rewrite Htop. }
      exists p'. split_and!; [done|done|]. simpl in *. lia.
    + pose proof (queue_inv_queue_length _ _ _ _ _ Hinv Hpy).
      simpl in *. lia.
Qed.

Lemma bfs_inv_shortest P q v p c :
  bfs_inv ids getNextNodes start P q v →
  p ∈ P ++ q → path c → top c = top p → length p ≤ length c.
Proof.
  intros [[m Hinv] Hexp] Hp Hc Htop.
  destruct (decide (length c ≤ m)) as [Hle|Hgt].
  - destruct (bfs_inv_reaches m P q v c) as (p' & Hp' & Htop' & Hlen);
      try done.
    rewrite (queue_inv_same_top m P q v p p'); try done. congruence.
  - pose proof (queue_inv_length _ _ _ _ _ Hinv Hp). lia.
Qed.

(** Once the queue is empty the yielded paths cover what is reachable. *)
Lemma bfs_inv_complete P v n :
  bfs_inv ids getNextNodes start P [] v →
  n ∈ top <$> P ↔ reachable getNextNodes start n.
Proof.
  intros [[m Hinv] Hexp]. rewrite app_nil_r in *. split.
  - intros (p & -> & Hp)%list_elem_of_fmap.
    apply path_to_reachable, (inv_paths _ _ _ _ _ _ _ Hinv).
    by rewrite app_nil_r.
  - revert n. apply rtc_ind_r; [|intros x y Hx Hxy IH].
    + apply list_elem_of_fmap. exists [start]. split; [done|].
      pose proof (inv_start _ _ _ _ _ _ _ Hinv) as Hs.
      by rewrite app_nil_r in Hs.
    + apply list_elem_of_fmap in IH as (p & -> & Hp).
      destruct (Hexp p y Hp Hxy) as (p' & Hp' & Htop & _).
      apply list_elem_of_fmap. eauto.
Qed.
End bfs.

(** [traverse] calls the callback on the elements of the generator, in
    order, when neither the callback nor its state changes the expansion
    function. *)
Lemma traverse_loop_drain {St} (f : ref → list ref → St → St)
    (ids : ref → string) (getNextNodes : ref → list ref) fuel g s items :
  drain fuel ids getNextNodes g = Some items →
  traverse_loop (λ _, ids) (λ n p s, Some (f n p s, Normal tt))
    (λ _, getNextNodes) (S fuel) g s =
  Some (foldl (λ s it, f (node it) (traversalPath it) s) s items, Normal tt).
Proof.
  revert g s items. induction fuel as [|fuel IH]; intros g s items.
  - simpl. destruct (next ids getNextNodes g) as [[item g']|]; [done|].
    by intros [= <-].
  - intros Hd. simpl in Hd. change (traverse_loop _ _ _ (S (S fuel)) g s) with
      (match next ids getNextNodes g with
       | None => Some (s, Normal tt)
       | Some (item, g') =>
           traverse_loop (λ _, ids) (λ n p s, Some (f n p s, Normal tt))
             (λ _, getNextNodes) (S fuel) g'
             (f (node item) (traversalPath item) s)
       end).
    destruct (next ids getNextNodes g) as [[item g']|]; [|by injection Hd as <-].
    destruct (drain fuel ids getNextNodes g') as [items'|] eqn:Hd'; [|done].
    injection Hd as <-. by rewrite (IH _ _ _ Hd').
Qed.

Lemma items_nodes (items : list traversal_item) :
  Forall (λ it, traversalPath it = node it :: tail (traversalPath it)) items →
  top <$> (traversalPath <$> items) = node <$> items.
Proof.
  induction 1 as [|it l Hit _ IH]; [done|].
  rewrite !fmap_cons, IH. f_equal. unfold top. by rewrite Hit.
Qed.

Lemma path_to_spec getNextNodes start p :
  path_to getNextNodes start p ↔
    last p = Some start
    ∧ ∀ i a b, p !! i = Some a → p !! S i = Some b → a ∈ getNextNodes b.
Proof.
  induction p as [|x p IH]; simpl; [by split; [|intros [? _]]|].
  destruct p as [|y p'].
  - split.
    + intros ->. split; [done|]. intros i a b _ Hb. by destruct i.
    + by intros [[= ->] _].
  - rewrite IH. clear IH. split.
    + intros [Hxy [Hlast Hstep]]. split; [done|].
      intros [|i] a b; simpl; [by intros [= <-] [= <-]|]. apply Hstep.
    + intros [Hlast Hstep]. split_and!; [by apply (Hstep 0)|done|].
      intros i a b. apply (Hstep (S i)).
Qed.

Lemma traverse_log_visit
    (ids : ref → string) (getNextNodes : ref → list ref) fuel this items :
  drain fuel ids getNextNodes (traverseGenerator ids this) = Some items →
  traverse (λ _, ids) log_visit (λ _, getNextNodes) (S fuel) this [] =
    Some (node <$> items, Normal tt).
Proof.
  intros Hitems. unfold traverse.
  change log_visit
    with (λ (n : ref) (p log : list ref), Some (log ++ [n], Normal tt)).
  rewrite (traverse_loop_drain (λ n p log, log ++ [n]) ids getNextNodes
             fuel _ [] items Hitems).
  do 2 f_equal.
  assert (∀ acc : list ref,
    foldl (λ s it, s ++ [node it]) acc items = acc ++ (node <$> items))
    as Hfold.
  { clear. induction items as [|it l IH]; intros acc; simpl.
    - by rewrite app_nil_r.
    - rewrite IH. by rewrite <- app_assoc. }
  by rewrite Hfold.
Qed.

Lemma drain_complete_unique
    (ids : ref → string) (getNextNodes : ref → list ref)
    (U : list ref) (this : ref) (fuel : nat) :
  this ∈ U → (∀ x y, x ∈ U → y ∈ getNextNodes x → y ∈ U) →
  (∀ x y, x ∈ U → y ∈ U → ids x = ids y → x = y) →
  length U ≤ fuel →
  ∃ items,
    drain fuel ids getNextNodes (traverseGenerator ids this) = Some items
    ∧ NoDup (node <$> items)
    ∧ (∀ n, n ∈ node <$> items ↔ reachable getNextNodes this n).
Proof.
  intros Hthis Hclosed Hinj Hfuel.
  assert (∀ x, reachable getNextNodes this x → x ∈ U) as HU.
  { intros x Hx. induction Hx as [|x y z Hxy _ IH]; eauto. }
  assert (∀ x y, reachable getNextNodes this x →
                 reachable getNextNodes this y → ids x = ids y → x = y)
    as Hinj' by (intros x y Hx Hy; apply Hinj; auto).
  destruct (drain_terminates ids getNextNodes U Hclosed fuel []
              (traverseGenerator ids this)) as [items Hitems].
  { by apply ids_inv_start. }
  { pose proof (size_list_to_set_le (ids <$> U)) as Hle.
    rewrite length_fmap in Hle. simpl. lia. }
  exists items. split; [done|].
  pose proof (bfs_inv_start ids getNextNodes this) as Hstart.
  destruct (drain_invariant ids getNextNodes
              (bfs_inv ids getNextNodes this)
              (λ P q v p, bfs_inv_nonempty ids getNextNodes this P q v p)
              (bfs_inv_step ids getNextNodes this Hinj')
              fuel [] (traverseGenerator ids this) items Hstart Hitems)
    as [v Hinv].
  pose proof (yields_invariant ids getNextNodes
              (bfs_inv ids getNextNodes this)
              (bfs_inv_step ids getNextNodes this Hinj')
              (length items) [] (traverseGenerator ids this) Hstart)
    as [Hshape _].
  rewrite (drain_yields _ _ _ _ _ Hitems), firstn_all in Hshape.
  simpl in Hinv. rewrite <- (items_nodes items Hshape).
  split.
  - destruct Hinv as [[m Hq] _]. destruct Hq as [_ Hnd _ _ _].
    rewrite app_nil_r in Hnd. by apply NoDup_fmap_1 in Hnd.
  - intros n. by apply (bfs_inv_complete ids getNextNodes this _ v).
Qed.

(** ** C2 *)

(** C2. On a finite graph [U] closed under the expansion function and
    whose nodes have pairwise different ids, the generator started at a
    node of [U] returns (with fuel for [length U] elements or more), and
    the nodes of the elements it has yielded are exactly the nodes
    reachable from the start through the expansion function, each one
    once, however many paths lead to it; [traverse] calls its callback on
    the same nodes in the same order. *)
Theorem traverse_complete_unique
    (ids : ref → string) (getNextNodes : ref → list ref)
    (U : list ref) (this : ref) :
  this ∈ U → (∀ x y, x ∈ U → y ∈ getNextNodes x → y ∈ U) →
  (∀ x y, x ∈ U → y ∈ U → ids x = ids y → x = y) →
  ∃ items,
    (∀ fuel, length U ≤ fuel →
       drain fuel ids getNextNodes (traverseGenerator ids this) = Some items
       ∧ traverse (λ _, ids) log_visit (λ _, getNextNodes) (S fuel) this []
           = Some (node <$> items, Normal tt))
    ∧ NoDup (node <$> items)
    ∧ (∀ n, n ∈ node <$> items ↔ reachable getNextNodes this n).
Proof.
  intros Hthis Hclosed Hinj.
  destruct (drain_complete_unique ids getNextNodes U this (length U))
    as (items & Hitems & Hrest); [done..|].
  exists items. split; [|done].
  intros fuel Hfuel.
  assert (drain fuel ids getNextNodes (traverseGenerator ids this)
          = Some items) as Hdrain by by apply (drain_mono _ _ (length U)).
  split; [done|]. by apply traverse_log_visit.
Qed.

Example yields_diamond_heap :
  yields 10 (id diamond_heap) (default_getNextNodes diamond_heap)
    (traverseGenerator (id diamond_heap) 0) =
  [mkItem 0 [0]; mkItem 1 [1; 0]; mkItem 2 [2; 0]; mkItem 3 [3; 1; 0]].
Proof. reflexivity. Qed.

Example yields_cycle_heap :
  yields 10 (id cycle_heap) (getDependencies cycle_heap)
    (traverseGenerator (id cycle_heap) 0) =
  [mkItem 0 [0]; mkItem 1 [1; 0]; mkItem 2 [2; 1; 0]].
Proof. reflexivity. Qed.

(** ** C7 *)

(** C7. When the nodes reachable from the start have pairwise different
    ids, every element the generator yields carries a path that starts
    with the yielded node, ends with the start, in which every element is
    a next node of the element after it, and that is no longer than any
    other such path from the start to the yielded node. *)
Theorem traversalPath_shortest
    (ids : ref → string) (getNextNodes : ref → list ref)
    (this : ref) (n : nat) (item : traversal_item) :
  (∀ x y, reachable getNextNodes this x → reachable getNextNodes this y →
          ids x = ids y → x = y) →
  item ∈ yields n ids getNextNodes (traverseGenerator ids this) →
  head (traversalPath item) = Some (node item)
  ∧ last (traversalPath item) = Some this
  ∧ (∀ i a b, traversalPath item !! i = Some a →
              traversalPath item !! S i = Some b → a ∈ getNextNodes b)
  ∧ (∀ c, path_to getNextNodes this c → head c = Some (node item) →
          length (traversalPath item) ≤ length c).
Proof.
  intros Hinj Hitem.
  pose proof (bfs_inv_start ids getNextNodes this) as Hstart.
  pose proof (yields_invariant ids getNextNodes
              (bfs_inv ids getNextNodes this)
              (bfs_inv_step ids getNextNodes this Hinj)
              n [] (traverseGenerator ids this) Hstart)
    as [Hshape (q & v & Hinv)].
  simpl in Hinv. rewrite Forall_forall in Hshape.
  specialize (Hshape item Hitem).
  assert (traversalPath item ∈
            (traversalPath <$> yields n ids getNextNodes
                                 (traverseGenerator ids this)) ++ q) as Hin.
  { apply elem_of_app. left. by apply list_elem_of_fmap_2. }
  assert (path_to getNextNodes this (traversalPath item)) as Hpath.
  { destruct Hinv as [[m Hq] _]. by apply (inv_paths _ _ _ _ _ _ _ Hq). }
  split; [by rewrite Hshape|].
  pose proof Hpath as [Hlast Hsteps]%path_to_spec.
  split_and!; [done|done|].
  intros c Hc Hhead.
  apply (bfs_inv_shortest ids getNextNodes this _ _ _ _ _ Hinv Hin Hc).
  unfold top. rewrite Hshape. destruct c; by simplify_eq/=.
Qed.

(** ** Traversals of a heap *)

Lemma id_injective (h : heap) x y :
  NoDup (_id <$> h) → x < length h → y < length h →
  id h x = id h y → x = y.
Proof.
  intros Hnd Hx Hy. unfold id.
  destruct (lookup_in_heap h x Hx) as [nx Hnx].
  destruct (lookup_in_heap h y Hy) as [ny Hny].
  rewrite Hnx, Hny. simpl. intros Heq.
  apply (NoDup_lookup (_id <$> h) x y (_id nx)); [done| |].
  - by rewrite list_lookup_fmap, Hnx.
  - by rewrite list_lookup_fmap, Hny, Heq.
Qed.

Lemma elem_of_heap_refs (h : heap) x : x ∈ seq 0 (length h) ↔ x < length h.
Proof. rewrite elem_of_seq. lia. Qed.

Lemma closed_dependents (h : heap) x y :
  closed h → y ∈ getDependents h x → y < length h.
Proof. intros Hc Hy. apply (Hc x y). by right. Qed.

Lemma closed_dependencies (h : heap) x y :
  closed h → y ∈ getDependencies h x → y < length h.
Proof. intros Hc Hy. apply (Hc x y). by left. Qed.

Lemma reachable_in_heap (h : heap) (f : ref → list ref) start x :
  (∀ a b, b ∈ f a → b < length h) → start < length h →
  reachable f start x → x < length h.
Proof.
  intros Hf Hs Hx. induction Hx as [|a b c Hab _ IH]; [done|].
  apply IH. by eapply Hf.
Qed.

Lemma traversalPath_shortest_witness :
  let h := diamond_heap in
  let item := mkItem 3 [3; 1; 0] in
  item ∈ yields 4 (id h) (getDependents h) (traverseGenerator (id h) 0)
  ∧ last (traversalPath item) = Some 0
  ∧ (∀ c, path_to (getDependents h) 0 c → head c = Some 3 → 3 ≤ length c).
Proof.
  intros h item.
  assert (item ∈ yields 4 (id h) (getDependents h)
                   (traverseGenerator (id h) 0)) as Hitem.
  { vm_compute. do 3 apply list_elem_of_further. apply list_elem_of_here. }
  split; [done|].
  destruct (traversalPath_shortest (id h) (getDependents h) 0 4 item)
    as (_ & Hlast & _ & Hmin);
    [|done|split; [exact Hlast|intros c Hc Hh; exact (Hmin c Hc Hh)]].
  intros x y Hx Hy.
  apply id_injective.
  - apply (bool_decide_unpack _). by vm_compute.
  - apply (reachable_in_heap h (getDependents h) 0 x); [|simpl; lia|done].
    intros a b. apply closed_dependents, diamond_heap_closed.
  - apply (reachable_in_heap h (getDependents h) 0 y); [|simpl; lia|done].
    intros a b. apply closed_dependents, diamond_heap_closed.
Defined.

Lemma traverse_complete_unique_witness :
  let h := diamond_heap in
  ∃ items,
    drain 4 (id h) (getDependents h) (traverseGenerator (id h) 0) = Some items
    ∧ node <$> items = [0; 1; 2; 3]
    ∧ NoDup (node <$> items)
    ∧ (∀ n, n ∈ node <$> items ↔ reachable (getDependents h) 0 n).
Proof.
  intros h.
  destruct (traverse_complete_unique (id h) (getDependents h)
              (seq 0 (length h)) 0)
    as (items & Hitems & Hnd & Hreach).
  - by apply elem_of_heap_refs; simpl; lia.
  - intros x y _ Hy. apply elem_of_heap_refs.
    by eapply closed_dependents; [apply diamond_heap_closed|].
  - intros x y Hx%elem_of_heap_refs Hy%elem_of_heap_refs.
    apply id_injective; [|done|done].
    apply (bool_decide_unpack _). by vm_compute.
  - destruct (Hitems 4) as [Hdrain _]; [simpl; lia|].
    exists items. split_and!; try done.
    vm_compute in Hdrain. by injection Hdrain as <-.
Defined.

Lemma traverseGenerator_finite_witness :
  let h := cycle_heap in
  ∃ items,
    drain 3 (id h) (getDependents h) (traverseGenerator (id h) 0) = Some items
    ∧ node <$> items = [0; 2; 1]
    ∧ NoDup (id h <$> (node <$> items))
    ∧ length items ≤ 3.
Proof.
  intros h.
  destruct (traverseGenerator_finite (id h) (getDependents h) [0; 1; 2] 0)
    as (items & Hitems & Hnd & _ & Hlen).
  - apply list_elem_of_here.
  - intros x y Hx Hy.
    assert (x < 3) as Hx3.
    { apply (elem_of_heap_refs h). exact Hx. }
    apply (elem_of_heap_refs h).
    apply (closed_dependents h x y); [by apply closedb_closed|done].
  - pose proof (Hitems 3 ltac:(simpl; lia)) as Hdrain.
    exists items. split_and!; try done.
    vm_compute in Hdrain. by injection Hdrain as <-.
Defined.

(** ** Cycle detection *)

Example hasCycle_cycle_heap :
  hasCycle 10 cycle_heap 0 Dependencies = Some true.
Proof. reflexivity. Qed.

Example hasCycle_chain_heap :
  hasCycle 10 chain_heap 0 Dependencies = Some false.
Proof. reflexivity. Qed.

Example hasCycle_dependency_diamond_heap :
  hasCycle 10 dependency_diamond_heap 0 Dependencies = Some false.
Proof. reflexivity. Qed.

Example hasCycle_late_cycle_heap :
  hasCycle 10 late_cycle_heap 0 Dependencies = Some false.
Proof. reflexivity. Qed.

Lemma hasCycle_loop_mono fuel fuel' d h st b :
  fuel ≤ fuel' →
  hasCycle_loop fuel d h st = Some b → hasCycle_loop fuel' d h st = Some b.
Proof.
  revert fuel' st. induction fuel as [|fuel IH]; intros fuel' st Hle; simpl.
  - destruct (hasCycle_iteration d h st) eqn:Hit; [done|].
    intros [= <-]. destruct fuel'; simpl; by rewrite Hit.
  - destruct fuel' as [|fuel']; [lia|]. simpl.
    destruct (hasCycle_iteration d h st); [|done]. apply IH. lia.
Qed.

(** The loop returns [true] exactly when some iteration starts with the
    node to pop on the current path. *)
Lemma hasCycle_iteration_true d h st :
  hasCycle_iteration d h st = inr true ↔ on_current_path st.
Proof.
  unfold hasCycle_iteration, on_current_path, includes.
  destruct (toVisit st) as [|x rest].
  - split; [done|]. by intros (? & ? & ? & _).
  - case_bool_decide as Hx.
    + split; [|done]. intros _. by exists x, rest.
    + split.
      * case_decide; [done|]. by destruct (explore _ _ _ _).
      * intros (? & ? & [= <- <-] & ?). done.
Qed.

Lemma hasCycle_loop_true fuel d h st :
  hasCycle_loop fuel d h st = Some true ↔
    ∃ k st', k ≤ fuel ∧ hasCycle_iterations k d h st = Some st'
             ∧ on_current_path st'.
Proof.
  revert st. induction fuel as [|fuel IH]; intros st; simpl.
  - destruct (hasCycle_iteration d h st) as [st1|b] eqn:Hit.
    + split; [done|]. intros (k & st' & Hk & Hst' & Hon).
      assert (k = 0) as -> by lia. injection Hst' as <-.
      apply (hasCycle_iteration_true d h) in Hon. congruence.
    + split.
      * intros [= ->]. exists 0, st. split_and!; [done|done|].
        by apply (hasCycle_iteration_true d h).
      * intros (k & st' & Hk & Hst' & Hon).
        assert (k = 0) as -> by lia. injection Hst' as <-.
        apply (hasCycle_iteration_true d h) in Hon. congruence.
  - destruct (hasCycle_iteration d h st) as [st1|b] eqn:Hit.
    + rewrite IH. split.
      * intros (k & st' & Hk & Hst' & Hon). exists (S k), st'.
        split_and!; [lia| |done]. simpl. by rewrite Hit.
      * intros (k & st' & Hk & Hst' & Hon). destruct k as [|k].
        -- injection Hst' as <-.
           apply (hasCycle_iteration_true d h) in Hon. congruence.
        -- simpl in Hst'. rewrite Hit in Hst'. exists k, st'.
           split_and!; [lia|done|done].
    + split.
      * intros [= ->]. exists 0, st. split_and!; [lia|done|].
        by apply (hasCycle_iteration_true d h).
      * intros (k & st' & Hk & Hst' & Hon). destruct k as [|k].
        -- injection Hst' as <-.
           apply (hasCycle_iteration_true d h) in Hon. congruence.
        -- simpl in Hst'. by rewrite Hit in Hst'.
Qed.

(** *** The [for] loop *)

Lemma explore_spec nodes depth tv da :
  let r := explore nodes depth tv da in
  ∃ new,
    r.1 = new ++ tv
    ∧ (NoDup tv → NoDup r.1)
    ∧ (∀ c, c ∈ new → c ∈ nodes ∧ (c ∉ tv) ∧ r.2 !! c = Some depth)
    ∧ (∀ x, x ∈ tv → r.2 !! x = da !! x).
Proof.
  revert tv da. induction nodes as [|c nodes IH]; intros tv da; simpl.
  - exists []. split_and!; try done. by intros c ?%elem_of_nil.
  - unfold includes. case_bool_decide as Hc.
    + destruct (IH tv da) as (new & Hnew & Hnd & Hin & Hold).
      exists new. split_and!; try done.
      intros c' Hc'. destruct (Hin c' Hc') as (? & ? & ?).
      split_and!; [by right|done|done].
    + destruct (IH (c :: tv) (<[c:=depth]> da))
        as (new & Hnew & Hnd & Hin & Hold).
      exists (new ++ [c]). split_and!.
      * by rewrite Hnew, <- app_assoc.
      * intros Htv. apply Hnd. by apply NoDup_cons.
      * intros c' [Hc'|Hc']%elem_of_app.
        -- destruct (Hin c' Hc') as (? & [? ?]%not_elem_of_cons & ?).
           split_and!; [by right|done|done].
        -- apply list_elem_of_singleton in Hc' as ->.
           split_and!; [by left|done|].
           rewrite Hold by by left. apply lookup_insert_eq.
      * intros x Hx. rewrite Hold by by right.
        apply lookup_insert_ne. by intros ->.
Qed.

Lemma depths_sorted_ext f g stack :
  (∀ x, x ∈ stack → f x = g x) →
  depths_sorted f stack → depths_sorted g stack.
Proof.
  induction stack as [|x rest IH]; [done|]. simpl. intros Hfg [Hx Hrest].
  split.
  - intros y Hy. rewrite <- !Hfg; [by apply Hx|by left|by right].
  - apply IH; [|done]. intros y Hy. apply Hfg. by right.
Qed.

Lemma depths_sorted_push f stack new depth :
  (∀ c, c ∈ new → f c = depth) → (∀ x, x ∈ stack → f x ≤ depth) →
  depths_sorted f stack → depths_sorted f (new ++ stack).
Proof.
  intros Hnew Hstack Hs. induction new as [|c new IH]; [done|].
  simpl. split.
  - intros y Hy. rewrite (Hnew c) by by left.
    apply elem_of_app in Hy as [Hy|Hy]; [|by apply Hstack].
    rewrite (Hnew y); [done|by right].
  - apply IH. intros c' Hc'. apply Hnew. by right.
Qed.

(** A chain of edges links each of its nodes to the later ones. *)
Lemma chain_rtc {A} (R : relation A) (l : list A) i j a b :
  (∀ i a b, l !! i = Some a → l !! S i = Some b → R a b) →
  i ≤ j → l !! i = Some a → l !! j = Some b → rtc R a b.
Proof.
  intros Hchain Hij Ha. revert b.
  induction Hij as [|j Hij IH]; intros b Hb.
  - assert (a = b) as -> by congruence. done.
  - destruct (l !! j) as [c|] eqn:Hc.
    + eapply rtc_r; [by apply IH|]. by eapply Hchain.
    + apply lookup_ge_None in Hc. apply lookup_lt_Some in Hb. lia.
Qed.

(** *** The invariant of the search *)

Section search.
Context (d : direction) (h : heap) (start : ref).

Local Abbreviation E := (explored_edge d h).

Lemma cycle_inv_init : cycle_inv d h start (hasCycle_init start).
Proof.
  split; simpl.
  - by intros i a b ?.
  - by intros x ?%elem_of_nil.
  - apply NoDup_singleton.
  - intros x ->%list_elem_of_singleton. exists 0.
    split_and!; [apply lookup_singleton_eq|done|apply not_elem_of_nil|done|].
    by intros k ?.
  - split; [|done]. by intros y ?%elem_of_nil.
Qed.

Lemma cycle_inv_skip st N rest :
  cycle_inv d h start st → toVisit st = N :: rest →
  cycle_inv d h start
  (mkCycleSearch (seen st) (currentPath st) rest (depthAdded st)).
Proof.
  intros [Hchain Hreach Hnd Hpushed Hdepths] Htv. rewrite Htv in *.
  split; simpl; try done.
  - by apply NoDup_cons in Hnd as [_ ?].
  - intros x Hx. apply Hpushed. by right.
  - by destruct Hdepths.
Qed.

Lemma cycle_inv_visit st N rest :
  cycle_inv d h start st → toVisit st = N :: rest →
  let currentPath' :=
  backtrack (depthAdded st !! N) (currentPath st) ++ [N] in
  let r := explore (nodesToExplore d h N) (length currentPath') rest
  (depthAdded st) in
  cycle_inv d h start
  (mkCycleSearch ({[N]} ∪ seen st) currentPath' r.1 r.2).
Proof.
  intros [Hchain Hreach Hnd Hpushed Hdepths] Htv path' r.
  rewrite Htv in *.
  destruct (Hpushed N) as (dN & HdN & Hlen & Hstale & HreachN & HedgeN);
    [by left|].
  apply NoDup_cons in Hnd as [HN Hnd]. destruct Hdepths as [Htop Hsorted].
  assert (path' = take dN (currentPath st) ++ [N]) as Hpath'.
  { unfold path'. by rewrite HdN. }
  assert (length (take dN (currentPath st)) = dN) as Htake
    by (rewrite length_take; lia).
  assert (length path' = S dN) as Hlen'.
  { rewrite Hpath', length_app, Htake. simpl. lia. }
  assert (∀ k, k < dN → path' !! k = currentPath st !! k) as Hlow.
  { intros k Hk. rewrite Hpath', lookup_app_l by lia.
    by apply lookup_take_lt. }
  assert (path' !! dN = Some N) as Hlast.
  { rewrite Hpath', lookup_app_r by lia. by rewrite Htake, Nat.sub_diag. }
  destruct (explore_spec (nodesToExplore d h N) (length path') rest
    (depthAdded st)) as (new & Hnew & Hnd' & Hin & Hold).
  fold r in Hnew, Hnd', Hin, Hold. rewrite Hlen' in Hin.
  assert (∀ x, x ∈ rest → depthAdded st !! x = Some (depth_of st x)
    ∧ depth_of st x ≤ dN) as Hrest.
  { intros x Hx.
    destruct (Hpushed x) as (dx & Hdx & _); [by right|].
    specialize (Htop x Hx). unfold depth_of in *.
    rewrite Hdx, HdN in *. simpl in *. by split. }
  split; simpl.
  - intros i a b Ha Hb.
    assert (S i < length path') as Hi by (by eapply lookup_lt_Some).
    destruct (decide (S i = dN)) as [Heq|Hne].
    + rewrite <- Heq in Hlast. rewrite Hlow in Ha by lia.
      destruct (HedgeN i) as (p & Hp & Hedge); [done|].
      by simplify_eq.
    + rewrite Hlow in Ha, Hb by lia. by eapply Hchain.
  - intros x. rewrite Hpath'.
    intros [Hx|Hx]%elem_of_app; [by apply Hreach, (subseteq_take dN)|].
    by apply list_elem_of_singleton in Hx as ->.
  - by apply Hnd'.
  - intros x. rewrite Hnew. intros [Hx|Hx]%elem_of_app.
    + destruct (Hin x Hx) as (Hnode & Hfresh & Hdx).
      exists (S dN). split_and!; [done|lia| | |].
      * rewrite drop_ge by lia. apply not_elem_of_nil.
      * eapply rtc_r; [exact HreachN|done].
      * intros k [= <-]. by exists N.
    + destruct (Hrest x Hx) as [Hdx Hle].
      destruct (Hpushed x) as (dx & Hdx' & _ & Hstale' & Hreach' & Hedge');
        [by right|].
      assert (depth_of st x = dx) as Heq by congruence. rewrite Heq in *.
      exists dx. split_and!; [by rewrite Hold|lia| |done|].
      * rewrite Hpath', drop_app_le by lia.
        intros [Hd|Hd]%elem_of_app.
        -- apply Hstale'. rewrite <- (take_drop dN (currentPath st)) .
           rewrite drop_app_le by lia. apply elem_of_app. by left.
        -- apply list_elem_of_singleton in Hd as ->. done.
      * intros k ->. destruct (Hedge' k) as (p & Hp & Hedge); [done|].
        exists p. split; [|done]. by rewrite Hlow by lia.
  - rewrite Hnew.
    assert (∀ x, x ∈ rest →
      default 0 (r.2 !! x) = depth_of st x) as Hsame.
    { intros x Hx. rewrite Hold by done. done. }
    apply (depths_sorted_push _ _ _ (S dN)).
    + intros c Hc. destruct (Hin c Hc) as (_ & _ & Hdc).
      unfold depth_of. simpl. by rewrite Hdc.
    + intros x Hx. unfold depth_of at 1. simpl. rewrite Hsame by done.
      destruct (Hrest x Hx). lia.
    + eapply depths_sorted_ext; [|done].
      intros x Hx. unfold depth_of at 2. simpl. by rewrite Hsame.
Qed.

Lemma cycle_inv_step st st' :
  cycle_inv d h start st → hasCycle_iteration d h st = inl st' →
  cycle_inv d h start st'.
Proof.
  intros Hinv. unfold hasCycle_iteration.
  destruct (toVisit st) as [|N rest] eqn:Htv; [done|].
  destruct (includes N (currentPath st)); [done|].
  case_decide.
  - intros [= <-]. by eapply cycle_inv_skip.
  - pose proof (cycle_inv_visit st N rest Hinv Htv) as Hvisit.
    simpl in Hvisit.
    destruct (explore _ _ _ _) as [tv da]. intros [= <-]. exact Hvisit.
Qed.

Lemma cycle_inv_iterations k st st' :
  cycle_inv d h start st → hasCycle_iterations k d h st = Some st' →
  cycle_inv d h start st'.
Proof.
  revert st. induction k as [|k IH]; intros st Hinv; simpl.
  - by intros [= <-].
  - destruct (hasCycle_iteration d h st) as [st1|] eqn:Hit; [|done].
    apply IH. by eapply cycle_inv_step.
Qed.

(** A node of the stack that is on the current path is one of the
    ancestors of the node that pushed it: there is a chain of edges from
    it to that node, and an edge back. *)
Lemma cycle_inv_back_edge st N rest :
  cycle_inv d h start st → toVisit st = N :: rest → N ∈ currentPath st →
  rtc E start N ∧ ∃ y, y ∈ currentPath st ∧ rtc E N y ∧ E y N.
Proof.
  intros [Hchain Hreach Hnd Hpushed Hdepths] Htv HN. rewrite Htv in *.
  destruct (Hpushed N) as (dN & HdN & Hlen & Hstale & HreachN & HedgeN);
    [by left|].
  split; [done|].
  rewrite <- (take_drop dN (currentPath st)) in HN.
  apply elem_of_app in HN as [HN|HN]; [|done].
  apply list_elem_of_lookup in HN as [i Hi].
  pose proof (lookup_lt_Some _ _ _ Hi) as Hlt.
  rewrite length_take in Hlt.
  rewrite lookup_take_lt in Hi by lia.
  destruct dN as [|k]; [lia|].
  destruct (HedgeN k) as (p & Hp & Hedge); [done|].
  exists p. split_and!; [by eapply list_elem_of_lookup_2| |done].
  apply (chain_rtc E (currentPath st) i k); [done|lia|done|done].
Qed.
End search.

(** *** The search ends *)

Lemma sum_list_with_le {A} (f g : A → nat) (l : list A) :
  (∀ x, x ∈ l → g x ≤ f x) → sum_list_with g l ≤ sum_list_with f l.
Proof.
  induction l as [|y l IH]; intros Hle; simpl; [done|].
  assert (g y ≤ f y) by (apply Hle; by left).
  assert (sum_list_with g l ≤ sum_list_with f l); [|lia].
  apply IH. intros x Hx. apply Hle. by right.
Qed.

Lemma sum_list_with_le_at {A} (f g : A → nat) (l : list A) x c :
  (∀ y, y ∈ l → g y ≤ f y) → x ∈ l → g x + c ≤ f x →
  sum_list_with g l + c ≤ sum_list_with f l.
Proof.
  induction l as [|y l IH]; intros Hle Hx Hc; [by apply elem_of_nil in Hx|].
  simpl. apply elem_of_cons in Hx as [->|Hx].
  - assert (sum_list_with g l ≤ sum_list_with f l); [|lia].
    apply sum_list_with_le. intros z Hz. apply Hle. by right.
  - assert (g y ≤ f y) by (apply Hle; by left).
    assert (sum_list_with g l + c ≤ sum_list_with f l); [|lia].
    apply IH; [|done|done]. intros z Hz. apply Hle. by right.
Qed.

Lemma explore_length nodes depth tv da :
  length (explore nodes depth tv da).1 ≤ length nodes + length tv.
Proof.
  revert tv da. induction nodes as [|c nodes IH]; intros tv da; simpl; [lia|].
  destruct (includes c tv).
  - specialize (IH tv da). lia.
  - specialize (IH (c :: tv) (<[c:=depth]> da)). simpl in IH. lia.
Qed.

Lemma nodesToExplore_outside d (h : heap) x :
  length h ≤ x → nodesToExplore d h x = [].
Proof.
  intros Hx. unfold nodesToExplore, getDependents, getDependencies.
  rewrite (lookup_ge_None_2 h x) by done. by destruct d.
Qed.

Lemma search_weight_visit d (h : heap) (seen : gset ref) N :
  N ∉ seen →
  sum_list_with (search_weight d h ({[N]} ∪ seen)) (seq 0 (length h))
  + length (nodesToExplore d h N)
  ≤ sum_list_with (search_weight d h seen) (seq 0 (length h)).
Proof.
  intros HN.
  assert (∀ y, search_weight d h ({[N]} ∪ seen) y ≤ search_weight d h seen y)
    as Hle.
  { intros y. unfold search_weight. repeat case_decide; try lia.
    exfalso. set_solver. }
  destruct (decide (N < length h)) as [Hlt|Hge].
  - apply sum_list_with_le_at with (x := N); [auto| |].
    + apply elem_of_seq. lia.
    + unfold search_weight. rewrite decide_True by set_solver.
      rewrite decide_False by done. lia.
  - rewrite nodesToExplore_outside by lia. simpl.
    rewrite Nat.add_0_r. apply sum_list_with_le. auto.
Qed.

Lemma hasCycle_iteration_measure d h st st' :
  hasCycle_iteration d h st = inl st' →
  search_measure d h st' < search_measure d h st.
Proof.
  unfold hasCycle_iteration, search_measure.
  destruct (toVisit st) as [|N rest] eqn:Htv; [done|].
  destruct (includes N (currentPath st)); [done|].
  case_decide as Hseen.
  - intros [= <-]. simpl. lia.
  - pose proof (explore_length (nodesToExplore d h N)
      (length (backtrack (depthAdded st !! N) (currentPath st) ++ [N]))
      rest (depthAdded st)) as Hlen.
    destruct (explore _ _ _ _) as [tv da]. intros [= <-]. simpl in *.
    pose proof (search_weight_visit d h (seen st) N Hseen). lia.
Qed.

Lemma hasCycle_loop_terminates fuel d h st :
  search_measure d h st ≤ fuel → is_Some (hasCycle_loop fuel d h st).
Proof.
  revert st. induction fuel as [|fuel IH]; intros st Hfuel; simpl.
  - destruct (hasCycle_iteration d h st) as [st'|b] eqn:Hit; [|done].
    apply hasCycle_iteration_measure in Hit. lia.
  - destruct (hasCycle_iteration d h st) as [st'|b] eqn:Hit; [|done].
    apply IH. apply hasCycle_iteration_measure in Hit. lia.
Qed.

Lemma search_measure_init d h node :
  search_measure d h (hasCycle_init node) = search_bound d h.
Proof.
  unfold search_measure, search_bound. simpl. f_equal.
Qed.

(** With fuel for both directions, [hasCycle] returns. *)
Lemma hasCycle_terminates fuel h node d :
  search_bound Dependents h `max` search_bound Dependencies h ≤ fuel →
  is_Some (hasCycle fuel h node d).
Proof.
  intros Hfuel.
  assert (∀ d', is_Some (hasCycle_loop fuel d' h (hasCycle_init node)))
    as Hrun.
  { intros d'. apply hasCycle_loop_terminates.
    rewrite search_measure_init. destruct d'; unfold search_bound in *;
      simpl in *; lia. }
  destruct d; simpl; try apply Hrun.
  destruct (Hrun Dependents) as [[|] ->]; [done|apply Hrun].
Qed.

Lemma hasCycle_mono fuel fuel' h node d b :
  fuel ≤ fuel' →
  hasCycle fuel h node d = Some b → hasCycle fuel' h node d = Some b.
Proof.
  intros Hle. destruct d; simpl; try by apply hasCycle_loop_mono.
  destruct (hasCycle_loop fuel Dependents h (hasCycle_init node))
    as [[|]|] eqn:H1; [| |done].
  - intros [= <-]. by rewrite (hasCycle_loop_mono _ _ _ _ _ _ Hle H1).
  - intros H2. rewrite (hasCycle_loop_mono _ _ _ _ _ _ Hle H1).
    by apply (hasCycle_loop_mono fuel).
Qed.

(** ** The search and its current path *)

(** What the loop does with its own [currentPath].  With dependency edges
    A→B→C→A, [hasCycle(A, 'dependencies')] is true; without the edge C→A
    it is false; on the diamond A→B, A→C, B→D, C→D it is false in every
    direction.  The search returns (with fuel for one iteration per node
    pushed), and in one direction it returns true exactly when an
    iteration finds the node it pops on [currentPath]; that node is then
    reachable from the start and a chain of explored edges leads from it
    to a node of the path that has an edge back to it, whereas a popped
    node that was visited before and is not on [currentPath] is
    skipped. *)
Theorem hasCycle_back_edge_detection :
  (∀ fuel, 3 ≤ fuel → hasCycle fuel cycle_heap 0 Dependencies = Some true)
  ∧ (∀ fuel, 3 ≤ fuel → hasCycle fuel chain_heap 0 Dependencies = Some false)
  ∧ (∀ fuel d, 5 ≤ fuel →
       hasCycle fuel dependency_diamond_heap 0 d = Some false)
  ∧ (∀ fuel h node d,
       search_bound Dependents h `max` search_bound Dependencies h ≤ fuel →
       ∃ b, hasCycle fuel h node d = Some b)
  ∧ (∀ fuel h node d, d ≠ Both →
       hasCycle fuel h node d = Some true ↔
         ∃ k st, k ≤ fuel
           ∧ hasCycle_iterations k d h (hasCycle_init node) = Some st
           ∧ on_current_path st)
  ∧ (∀ h node d k st x rest,
       hasCycle_iterations k d h (hasCycle_init node) = Some st →
       toVisit st = x :: rest →
       (x ∈ currentPath st →
          rtc (explored_edge d h) node x
          ∧ ∃ y, y ∈ currentPath st
              ∧ rtc (explored_edge d h) x y ∧ explored_edge d h y x)
       ∧ (x ∉ currentPath st → x ∈ seen st →
            hasCycle_iteration d h st =
              inl (mkCycleSearch (seen st) (currentPath st) rest
                     (depthAdded st)))).
Proof.
  split_and!.
  - intros fuel Hfuel. by apply (hasCycle_mono 3).
  - intros fuel Hfuel. by apply (hasCycle_mono 3).
  - intros fuel d Hfuel. apply (hasCycle_mono 5); [done|]. by destruct d.
  - intros fuel h node d Hfuel. by apply hasCycle_terminates.
  - intros fuel h node d Hd.
    destruct d; try done; simpl; apply hasCycle_loop_true.
  - intros h node d k st x rest Hst Htv.
    pose proof (cycle_inv_iterations d h node k _ st
                  (cycle_inv_init d h node) Hst) as Hinv.
    split.
    + intros Hx. by apply (cycle_inv_back_edge d h node st x rest).
    + intros Hx Hseen. unfold hasCycle_iteration, includes. rewrite Htv.
      rewrite bool_decide_eq_false_2 by done. by rewrite decide_True.
Qed.

Lemma hasCycle_back_edge_detection_witness :
  hasCycle 3 cycle_heap 0 Dependencies = Some true
  ∧ hasCycle 3 chain_heap 0 Dependencies = Some false
  ∧ hasCycle 5 dependency_diamond_heap 0 Both = Some false
  ∧ ∃ k st, k ≤ 3
      ∧ hasCycle_iterations k Dependencies cycle_heap (hasCycle_init 0)
          = Some st
      ∧ on_current_path st.
Proof.
  destruct hasCycle_back_edge_detection as (H1 & H2 & H3 & _ & H4 & _).
  split_and!.
  - apply H1. lia.
  - apply H2. lia.
  - apply H3. lia.
  - apply (H4 3 cycle_heap 0 Dependencies); [done|]. apply H1. lia.
Defined.

(** ** C3 *)

(** C3. [hasCycle] misses a cycle that a depth-first search finds.
    [late_cycle_heap] is built by four [addDependency] calls: A (0)
    depends on B (1) and C (2), B depends on C and C on B.  B is a
    dependency of A and lies on the dependency cycle B→C→B, so a search
    along dependencies from A meets a node that is still on its active
    path.  [hasCycle(A, d)] returns false for each of the three
    directions: B is on the stack when C is expanded, so the edge C→B is
    not pushed and [depthAdded] keeps the depth A gave to B; when B is
    popped the path is cut back to A, C leaves it, and the edge B→C then
    pops a node that is visited and off the path.  Called on B or on C
    the same search returns true. *)
Theorem hasCycle_misses_cycle :
  late_cycle_heap =
    [mkBaseNode "A" false [] [1; 2]; mkBaseNode "B" false [0; 2] [2];
     mkBaseNode "C" false [0; 1] [1]]
  ∧ dependency_edge late_cycle_heap 0 1
  ∧ tc (dependency_edge late_cycle_heap) 1 1
  ∧ (∀ fuel d, 4 ≤ fuel → hasCycle fuel late_cycle_heap 0 d = Some false)
  ∧ (∀ fuel, 4 ≤ fuel →
       hasCycle fuel late_cycle_heap 1 Dependencies = Some true
       ∧ hasCycle fuel late_cycle_heap 2 Dependencies = Some true).
Proof.
  split_and!.
  - reflexivity.
  - unfold dependency_edge. vm_compute. apply list_elem_of_here.
  - apply (tc_l _ 1 2 1); [|apply tc_once];
      unfold dependency_edge; vm_compute; apply list_elem_of_here.
  - intros fuel d Hfuel. apply (hasCycle_mono 4); [done|]. by destruct d.
  - intros fuel Hfuel. split; by apply (hasCycle_mono 4).
Qed.

(** ** Cloning *)

Example cloneWithoutRelationships_diamond_D :
  cloneWithoutRelationships 3 (setIsMainDocument 3 true diamond_heap) =
    (setIsMainDocument 3 true diamond_heap ++ [mkBaseNode "D" true [] []], 4).
Proof. reflexivity. Qed.

(** Without a predicate every node is cloned, in the order of the walk
    down the dependents. *)
Example clone_diamond_all :
  cloneWithRelationships 5 3 None diamond_heap =
    Some (diamond_heap ++
            [mkBaseNode "R" false [5; 6] []; mkBaseNode "B" false [7] [4];
             mkBaseNode "C" false [7] [4]; mkBaseNode "D" false [] [5; 6]],
          Normal 7).
Proof. vm_compute. reflexivity. Qed.

Example clone_diamond_only_D :
  cloneWithRelationships 5 0 (Some only_D) diamond_heap =
    Some (diamond_heap ++
            [mkBaseNode "D" false [] [5; 6]; mkBaseNode "B" false [4] [7];
             mkBaseNode "C" false [4] [7]; mkBaseNode "R" false [5; 6] []],
          Normal 7).
Proof. vm_compute. reflexivity. Qed.

(** *** Traversals whose callback changes what the expansion function
    reads *)

Lemma next_Some_generator ids getNextNodes g item g' :
  next ids getNextNodes g = Some (item, g') →
  ∃ p q v,
    resume ids getNextNodes g = (p :: q, v)
    ∧ p ≠ [] ∧ item = mkItem (top p) p
    ∧ g' = mkGenerator q v (Some (top p, p)).
Proof.
  unfold next. destruct (resume ids getNextNodes g) as [[|p q] v]; [done|].
  destruct p as [|n p']; [done|]. intros [= <- <-].
  exists (n :: p'), q, v. by split_and!.
Qed.

Section traverse_rule.
Context {St : Type}.
Context (ids : St → ref → string).
Context (callback : ref → list ref → St → option (St * completion unit)).
Context (getNextNodes : St → ref → list ref).
Context (R : list (list ref) → list (list ref) → gset string → St → Prop).
Context (N : nat).
Hypothesis R_nonempty : ∀ P q v s p, R P q v s → p ∈ q → p ≠ [].
Hypothesis R_bound : ∀ P q v s, R P q v s → length P + length q ≤ N.
Hypothesis R_step : ∀ P p q v s,
  R P (p :: q) v s →
  ∃ s', callback (top p) p s = Some (s', Normal tt)
    ∧ R (P ++ [p])
        (enqueue (ids s') (getNextNodes s' (top p)) p q v).1
        (enqueue (ids s') (getNextNodes s' (top p)) p q v).2 s'.

(** With fuel for one more element than the bound, the traversal ends
    normally in a state that satisfies the invariant with an empty
    queue. *)
Lemma traverse_loop_rule fuel P g s :
  R P (resume (ids s) (getNextNodes s) g).1
      (resume (ids s) (getNextNodes s) g).2 s →
  N < fuel + length P →
  ∃ P' v' s',
    traverse_loop ids callback getNextNodes fuel g s = Some (s', Normal tt)
    ∧ R P' [] v' s'.
Proof.
  revert P g s. induction fuel as [|fuel IH]; intros P g s HR Hfuel.
  - pose proof (R_bound _ _ _ _ HR). lia.
  - simpl.
    destruct (next (ids s) (getNextNodes s) g) as [[item g']|] eqn:Hnext.
    + apply next_Some_generator in Hnext
        as (p & q & v & Hres & Hp & -> & ->).
      rewrite Hres in HR. simpl in HR.
      destruct (R_step _ _ _ _ _ HR) as (s' & Hcb & HR'). simpl.
      rewrite Hcb. apply (IH (P ++ [p])); [done|].
      rewrite length_app. simpl. lia.
    + destruct (resume (ids s) (getNextNodes s) g) as [q v] eqn:Hres.
      simpl in HR.
      rewrite (next_None _ _ g q v Hnext Hres
        (λ p, R_nonempty _ _ _ _ p HR)) in HR.
      by exists P, v, s.
Qed.
End traverse_rule.

(** *** What [enqueue] adds *)

Lemma enqueue_ext ids ids' nextNodes p q v :
  (∀ y, y ∈ nextNodes → ids y = ids' y) →
  enqueue ids nextNodes p q v = enqueue ids' nextNodes p q v.
Proof.
  revert q v. induction nextNodes as [|y l IH]; intros q v Hext; [done|].
  simpl. rewrite (Hext y) by by left.
  case_decide; apply IH; intros y' Hy'; apply Hext; by right.
Qed.

Lemma enqueue_spec ids nextNodes p q v :
  let r := enqueue ids nextNodes p q v in
  ∃ new,
    r.1 = q ++ ((λ y, y :: p) <$> new)
    ∧ (∀ y, y ∈ new → y ∈ nextNodes)
    ∧ v ⊆ r.2
    ∧ (∀ y, y ∈ nextNodes → ids y ∈ r.2).
Proof.
  revert q v. induction nextNodes as [|y l IH]; intros q v; simpl.
  - exists []. split_and!; [by rewrite app_nil_r|done|done|].
    by intros y ?%elem_of_nil.
  - case_decide as Hy.
    + destruct (IH q v) as (new & Hq & Hnew & Hv & Hall).
      exists new. split_and!; [done| |done|].
      * intros y' Hy'. right. by apply Hnew.
      * intros y' [->|Hy']%elem_of_cons; [by apply Hv|by apply Hall].
    + destruct (IH (q ++ [y :: p]) ({[ids y]} ∪ v))
        as (new & Hq & Hnew & Hv & Hall).
      exists (y :: new). split_and!.
      * rewrite Hq, <- app_assoc. done.
      * intros y' [->|Hy']%elem_of_cons; [by left|right; by apply Hnew].
      * set_solver.
      * intros y' [->|Hy']%elem_of_cons; [|by apply Hall].
        apply Hv. set_solver.
Qed.

(** *** The original nodes in a heap that extends the original heap *)

Section extended_heap.
Context (h0 hs : heap).
Hypothesis Hprefix : h0 `prefix_of` hs.

Lemma prefix_heap_lookup r : r < length h0 → hs !! r = h0 !! r.
Proof. intros Hr. symmetry. by apply prefix_lookup_lt. Qed.

Lemma prefix_heap_id r : r < length h0 → id hs r = id h0 r.
Proof. intros Hr. unfold id. by rewrite prefix_heap_lookup. Qed.

Lemma prefix_heap_dependencies r :
  r < length h0 → getDependencies hs r = getDependencies h0 r.
Proof. intros Hr. unfold getDependencies. by rewrite prefix_heap_lookup. Qed.

Lemma prefix_heap_dependents r :
  r < length h0 → getDependents hs r = getDependents h0 r.
Proof. intros Hr. unfold getDependents. by rewrite prefix_heap_lookup. Qed.
End extended_heap.

Lemma elem_of_done_queue {A} (P : list A) p q ext p' :
  p' ∈ (P ++ [p]) ++ q ++ ext ↔ p' ∈ P ++ p :: q ∨ p' ∈ ext.
Proof.
  rewrite !elem_of_app, !elem_of_cons, elem_of_nil. tauto.
Qed.

Lemma ids_inv_pop ids U P p q v :
  ids_inv ids U P (p :: q) v → ids_inv ids U (P ++ [p]) q v ∧ top p ∈ U.
Proof.
  intros [Hne Hnd Hv Hin]. split.
  - split; rewrite <- ?app_assoc; try done.
    intros p' Hp'. apply Hne. by right.
  - apply Hin, elem_of_app. right. by left.
Qed.

Lemma ids_inv_heap_bound (h0 : heap) P q v :
  ids_inv (id h0) (seq 0 (length h0)) P q v →
  length P + length q ≤ length h0.
Proof.
  intros Hinv%ids_inv_bound.
  pose proof (size_list_to_set_le (id h0 <$> seq 0 (length h0))) as Hle.
  rewrite length_fmap, length_seq in Hle. lia.
Qed.

Lemma ids_inv_top_eq (h0 : heap) P q v p p' :
  NoDup (_id <$> h0) →
  ids_inv (id h0) (seq 0 (length h0)) P q v →
  p ∈ P ++ q → p' ∈ P ++ q → id h0 (top p) = id h0 (top p') →
  top p = top p'.
Proof.
  intros Hnd Hinv Hp Hp' Heq.
  apply (id_injective h0); [done| | |done].
  - by apply elem_of_heap_refs, (ids_within _ _ _ _ _ Hinv).
  - by apply elem_of_heap_refs, (ids_within _ _ _ _ _ Hinv).
Qed.

(** A visited id is the id of the node of a yielded or queued path. *)
Lemma ids_inv_visited_node (h0 : heap) P q v y :
  NoDup (_id <$> h0) →
  ids_inv (id h0) (seq 0 (length h0)) P q v →
  y < length h0 → id h0 y ∈ v → ∃ p, p ∈ P ++ q ∧ top p = y.
Proof.
  intros Hnd Hinv Hy Hv.
  apply (ids_visited _ _ _ _ _ Hinv), elem_of_path_ids in Hv
    as (p & Hp & Hid).
  exists p. split; [done|].
  apply (id_injective h0); [done| |done|done].
  by apply elem_of_heap_refs, (ids_within _ _ _ _ _ Hinv).
Qed.

(** *** Allocating a clone *)

Lemma clone_into_map_wf h0 s m :
  clone_wf h0 s → m < length h0 →
  let s' := clone_into_map m s in
  clone_wf h0 s'
  ∧ idsToIncludedClones s' =
      <[id h0 m := length (clone_heap s)]> (idsToIncludedClones s).
Proof.
  intros [Hprefix Hfresh] Hm. simpl. unfold clone_into_map. simpl.
  rewrite (prefix_heap_id h0 _ Hprefix m Hm).
  split; [|done]. split; simpl.
  - by apply prefix_app_r.
  - intros k c. rewrite length_app. simpl.
    pose proof (prefix_length _ _ Hprefix) as Hlen.
    intros [[<- <-]|[Hne Hk]]%lookup_insert_Some.
    + split_and!; [done|lia|]. unfold id.
      by rewrite list_lookup_middle.
    + destruct (Hfresh k c Hk) as (? & ? & Hid).
      split_and!; [done|lia|]. unfold id in *.
      by rewrite lookup_app_l.
Qed.

Lemma has_true (m : gmap string ref) k : has m k = true ↔ is_Some (m !! k).
Proof. unfold has. apply bool_decide_eq_true. Qed.

Lemma has_false (m : gmap string ref) k : has m k = false ↔ m !! k = None.
Proof.
  unfold has. rewrite bool_decide_eq_false, <- eq_None_not_Some. done.
Qed.

Section clone.
Context (h0 : heap) (root : ref) (predicate : ref → bool).
Hypothesis Hclosed : closed h0.
Hypothesis Hids : NoDup (_id <$> h0).

Local Abbreviation U := (seq 0 (length h0)).
Local Abbreviation ids_of := (λ s : clone_state, id (clone_heap s)).

(** *** The walk back up the dependencies *)

Lemma uncloned_dependencies_spec s m y :
  clone_wf h0 s → m < length h0 →
  y ∈ uncloned_dependencies s m ↔
    y ∈ getDependencies h0 m ∧ idsToIncludedClones s !! id h0 y = None.
Proof.
  intros [Hprefix _] Hm. unfold uncloned_dependencies.
  rewrite list_elem_of_filter, (prefix_heap_dependencies h0) by done.
  split.
  - intros [Hhas Hy]. split; [done|].
    rewrite <- (prefix_heap_id h0 _ Hprefix y)
      by by eapply closed_dependencies.
    by apply has_false.
  - intros [Hy Hnone]. split; [|done]. apply has_false.
    by rewrite (prefix_heap_id h0 _ Hprefix y)
      by by eapply closed_dependencies.
Qed.

Lemma inner_inv_step m0 n P p q v s :
  inner_inv h0 m0 n P (p :: q) v s →
  let s' := clone_into_map (top p) s in
  let r := enqueue (ids_of s') (uncloned_dependencies s' (top p)) p q v in
  inner_inv h0 m0 n (P ++ [p]) r.1 r.2 s'.
Proof.
  intros [Hinv Hwf Hdom Hreach Hexp Hstart] s' r.
  destruct (ids_inv_pop _ _ _ _ _ _ Hinv) as [Hinv1 Hm%elem_of_heap_refs].
  destruct (clone_into_map_wf h0 s (top p) Hwf Hm) as [Hwf' HM'].
  fold s' in Hwf', HM'.
  pose proof (cw_prefix _ _ Hwf') as Hprefix'.
  pose proof (uncloned_dependencies_spec s' (top p)) as Hnexts.
  assert (∀ y, y ∈ uncloned_dependencies s' (top p) → y < length h0) as Hlt.
  { intros y [Hy _]%Hnexts; [|done|done]. by eapply closed_dependencies. }
  assert (r = enqueue (id h0) (uncloned_dependencies s' (top p)) p q v) as Hr.
  { apply enqueue_ext. intros y Hy. apply (prefix_heap_id h0); auto. }
  destruct (enqueue_spec (id h0) (uncloned_dependencies s' (top p)) p q v)
    as (new & Hq & Hnew & Hv & Hall).
  rewrite <- Hr in Hq, Hv, Hall.
  split.
  - rewrite Hr. apply ids_inv_enqueue; [done|].
    intros y Hy. apply elem_of_heap_refs. auto.
  - done.
  - intros k. rewrite HM', lookup_insert_is_Some, Hdom, path_ids_app.
    change (path_ids (id h0) [p]) with [id h0 (top p)].
    rewrite elem_of_app, list_elem_of_singleton.
    destruct (decide (id h0 (top p) = k)); intuition congruence.
  - intros p'. rewrite Hq.
    intros [Hp'|Hp']%elem_of_done_queue; [by apply Hreach|].
    apply list_elem_of_fmap in Hp' as (y & -> & Hy).
    apply Hnew, Hnexts in Hy as [Hy _]; [|done|done].
    eapply rtc_r; [apply Hreach|exact Hy].
    apply elem_of_app. right. by left.
  - intros p0 m' [Hp0|Hp0]%elem_of_app Hm'.
    + destruct (Hexp p0 m' Hp0 Hm') as [HM|Hvis].
      * left. rewrite HM', lookup_insert_is_Some.
        destruct (decide (id h0 (top p) = id h0 m')); auto.
      * right. by apply Hv.
    + apply list_elem_of_singleton in Hp0 as ->.
      destruct (idsToIncludedClones s' !! id h0 m') eqn:Hlook; [by left|].
      right. apply Hall, Hnexts; done.
  - by apply Hv.
Qed.

Lemma inner_traverse fuel s n :
  pass1_inv h0 root predicate s → n < length h0 →
  rtc (dependent_edge h0) root n → predicate n = true →
  length h0 < fuel →
  ∃ s',
    traverse ids_of clone_ancestor uncloned_dependencies fuel n s =
    Some (s', Normal tt)
    ∧ pass1_inv h0 root predicate s'
    ∧ is_Some (idsToIncludedClones s' !! id h0 n)
    ∧ (∀ k, is_Some (idsToIncludedClones s !! k) →
      is_Some (idsToIncludedClones s' !! k)).
Proof.
  intros [Hwf Hsound Hcl] Hn Hrn Hpn Hfuel.
  destruct (traverse_loop_rule ids_of clone_ancestor uncloned_dependencies
    (inner_inv h0 (idsToIncludedClones s) n) (length h0))
    with (fuel := fuel) (P := @nil (list ref))
    (g := traverseGenerator (ids_of s) n) (s := s)
    as (P' & v' & s' & Hrun & Hend).
  - intros P q v s0 p Hinv. apply (ids_nonempty _ _ _ _ _ (in_ids _ _ _ _ _ _ _ Hinv)).
  - intros P q v s0 Hinv.
    eapply ids_inv_heap_bound, (in_ids _ _ _ _ _ _ _ Hinv).
  - intros P p q v s0 Hinv. exists (clone_into_map (top p) s0).
    split; [done|]. by apply inner_inv_step.
  - simpl. rewrite (prefix_heap_id h0 _ (cw_prefix _ _ Hwf) n Hn).
    split; simpl.
    + apply ids_inv_start. by apply elem_of_heap_refs.
    + done.
    + intros k. unfold path_ids. simpl. rewrite elem_of_nil. tauto.
    + by intros p ->%list_elem_of_singleton.
    + by intros p m' ?%elem_of_nil.
    + by apply elem_of_singleton.
  - simpl. lia.
  - exists s'. split; [exact Hrun|].
    destruct Hend as [Hinv Hwf' Hdom Hreach Hexp Hstart].
    rewrite app_nil_r in *.
    assert (∀ y, y < length h0 → id h0 y ∈ v' →
      ∃ p, p ∈ P' ∧ top p = y) as Hvis.
    { intros y Hy Hv.
      destruct (ids_inv_visited_node h0 P' [] v' y) as (p & Hp & Htop);
        try done.
      exists p. by rewrite app_nil_r in Hp. }
    assert (∀ p, p ∈ P' →
      is_Some (idsToIncludedClones s' !! id h0 (top p))) as Hyielded.
    { intros p Hp. apply Hdom. right. apply elem_of_path_ids. eauto. }
    split_and!.
    + split; [done| |].
      * intros k [Hk|Hk]%Hdom; [by apply Hsound|].
        apply elem_of_path_ids in Hk as (p & Hp & <-).
        exists (top p). split_and!; [|done|].
        -- apply elem_of_heap_refs, (ids_within _ _ _ _ _ Hinv).
           by rewrite app_nil_r.
        -- exists n. split_and!; [done|done|by apply Hreach].
      * intros m m' Hm [Hk|Hk]%Hdom Hm'.
        -- apply Hdom. left. by eapply Hcl.
        -- apply elem_of_path_ids in Hk as (p & Hp & Hid).
           assert (top p = m) as Htop.
           { apply (id_injective h0); [done| |done|done].
             apply elem_of_heap_refs, (ids_within _ _ _ _ _ Hinv).
             by rewrite app_nil_r. }
           destruct (Hexp p m' Hp) as [HM|Hv]; [by rewrite Htop|done|].
           destruct (Hvis m') as (p' & Hp' & <-); [|done|by apply Hyielded].
           by eapply closed_dependencies.
    + destruct (Hvis n Hn Hstart) as (p & Hp & <-). by apply Hyielded.
    + intros k Hk. apply Hdom. by left.
Qed.
(** *** The walk down the dependents *)

Lemma clone_included_step fuel s m :
  pass1_inv h0 root predicate s → m < length h0 →
  rtc (dependent_edge h0) root m → length h0 < fuel →
  ∃ s',
    clone_included (Some predicate) fuel m [] s = Some (s', Normal tt)
    ∧ pass1_inv h0 root predicate s'
    ∧ (∀ k, is_Some (idsToIncludedClones s !! k) →
      is_Some (idsToIncludedClones s' !! k))
    ∧ (predicate m = true → is_Some (idsToIncludedClones s' !! id h0 m)).
Proof.
  intros Hp1 Hm Hreach Hfuel. unfold clone_included.
  rewrite (prefix_heap_id h0 _ (cw_prefix _ _ (p1_wf _ _ _ _ Hp1)) m Hm).
  destruct (has (idsToIncludedClones s) (id h0 m)) eqn:Hhas.
  - exists s. split_and!; try done. intros _. by apply has_true.
  - destruct (predicate m) eqn:Hpm.
    + destruct (inner_traverse fuel s m) as (s' & Hrun & Hp1' & Hin & Hmono);
        try done.
      by exists s'.
    + by exists s.
Qed.

Lemma outer_inv_step fuel P p q v s :
  length h0 < fuel →
  outer_inv h0 root predicate P (p :: q) v s →
  ∃ s',
    clone_included (Some predicate) fuel (top p) p s = Some (s', Normal tt)
    ∧ outer_inv h0 root predicate (P ++ [p])
        (enqueue (ids_of s')
           (default_getNextNodes (clone_heap s') (top p)) p q v).1
        (enqueue (ids_of s')
           (default_getNextNodes (clone_heap s') (top p)) p q v).2 s'.
Proof.
  intros Hfuel [Hinv Hp1 Hreach Hkept Hexp Hstart].
  destruct (ids_inv_pop _ _ _ _ _ _ Hinv) as [Hinv1 Hm%elem_of_heap_refs].
  assert (rtc (dependent_edge h0) root (top p)) as Hrm.
  { apply Hreach, elem_of_app. right. by left. }
  destruct (clone_included_step fuel s (top p))
    as (s' & Hcb & Hp1' & Hmono & Hin); try done.
  exists s'. split; [exact Hcb|].
  pose proof (cw_prefix _ _ (p1_wf _ _ _ _ Hp1')) as Hprefix'.
  unfold default_getNextNodes.
  rewrite (prefix_heap_dependents h0 _ Hprefix') by done.
  rewrite (enqueue_ext (ids_of s') (id h0)).
  2: { intros y Hy. apply (prefix_heap_id h0); [done|].
    by eapply closed_dependents. }
  destruct (enqueue_spec (id h0) (getDependents h0 (top p)) p q v)
    as (new & Hq & Hnew & Hv & Hall).
  split.
  - apply ids_inv_enqueue; [done|].
    intros y Hy. apply elem_of_heap_refs. by eapply closed_dependents.
  - done.
  - intros p'. rewrite Hq.
    intros [Hp'|Hp']%elem_of_done_queue; [by apply Hreach|].
    apply list_elem_of_fmap in Hp' as (y & -> & Hy).
    eapply rtc_r; [exact Hrm|]. by apply Hnew.
  - intros p0 [Hp0|Hp0]%elem_of_app Hpred.
    + by apply Hmono, Hkept.
    + apply list_elem_of_singleton in Hp0 as ->. by apply Hin.
  - intros p0 y [Hp0|Hp0]%elem_of_app Hy.
    + apply Hv. by eapply Hexp.
    + apply list_elem_of_singleton in Hp0 as ->. by apply Hall.
  - by apply Hv.
Qed.

Lemma pass1_inv_init : pass1_inv h0 root predicate (mkCloneState h0 ∅).
Proof.
  split; simpl.
  - split; simpl; [done|]. by intros k c ?.
  - intros k [c Hc]. by rewrite lookup_empty in Hc.
  - intros m m' _ [c Hc]. by rewrite lookup_empty in Hc.
Qed.

Lemma pass1_traverse fuel :
  root < length h0 → length h0 < fuel →
  ∃ s1,
    traverse ids_of (clone_included (Some predicate) fuel)
    (λ s, default_getNextNodes (clone_heap s)) fuel root
    (mkCloneState h0 ∅) = Some (s1, Normal tt)
    ∧ pass1_inv h0 root predicate s1
    ∧ (∀ n, rtc (dependent_edge h0) root n → predicate n = true →
      is_Some (idsToIncludedClones s1 !! id h0 n)).
Proof.
  intros Hroot Hfuel.
  destruct (traverse_loop_rule ids_of (clone_included (Some predicate) fuel)
    (λ s, default_getNextNodes (clone_heap s))
    (outer_inv h0 root predicate) (length h0))
    with (fuel := fuel) (P := @nil (list ref))
    (g := traverseGenerator (id h0) root) (s := mkCloneState h0 ∅)
    as (P' & v' & s' & Hrun & Hend).
  - intros P q v s0 p Hinv.
    apply (ids_nonempty _ _ _ _ _ (out_ids _ _ _ _ _ _ _ Hinv)).
  - intros P q v s0 Hinv.
    eapply ids_inv_heap_bound, (out_ids _ _ _ _ _ _ _ Hinv).
  - intros P p q v s0 Hinv. by apply outer_inv_step.
  - split; simpl.
    + apply ids_inv_start. by apply elem_of_heap_refs.
    + apply pass1_inv_init.
    + by intros p ->%list_elem_of_singleton.
    + by intros p ?%elem_of_nil.
    + by intros p y ?%elem_of_nil.
    + by apply elem_of_singleton.
  - simpl. lia.
  - exists s'. split; [exact Hrun|].
    destruct Hend as [Hinv Hp1 Hreach Hkept Hexp Hstart].
    split; [done|]. rewrite app_nil_r in *.
    assert (∀ n, rtc (dependent_edge h0) root n →
      ∃ p, p ∈ P' ∧ top p = n) as Hall.
    { apply rtc_ind_r.
      - destruct (ids_inv_visited_node h0 P' [] v' root)
          as (p & Hp & Htop); try done.
        exists p. by rewrite app_nil_r in Hp.
      - intros x y _ Hxy (p & Hp & <-).
        destruct (ids_inv_visited_node h0 P' [] v' y)
          as (p' & Hp' & Htop); try done.
        + by eapply closed_dependents.
        + by eapply Hexp.
        + exists p'. by rewrite app_nil_r in Hp'. }
    intros n Hn Hpn. destruct (Hall n Hn) as (p & Hp & <-).
    by apply Hkept.
Qed.

(** *** Copying the edges *)

Lemma alter_edges_id (f : BaseNode → BaseNode) (h : heap) r c :
  (∀ n, _id (f n) = _id n) → id (alter f r h) c = id h c.
Proof.
  intros Hf. unfold id. destruct (decide (r = c)) as [->|Hne].
  - rewrite list_lookup_alter_eq. destruct (h !! c); simpl; [apply Hf|done].
  - by rewrite list_lookup_alter_ne.
Qed.

Lemma alter_keeps_prefix (f : BaseNode → BaseNode) (h : heap) r :
  h0 `prefix_of` h → length h0 ≤ r → h0 `prefix_of` alter f r h.
Proof.
  intros [k ->] Hr. rewrite alter_app_r_alt by done. by apply prefix_app_r.
Qed.

(** Adding an edge between two different clones changes neither the
    original nodes nor any id. *)
Lemma addDependency_clones (h : heap) this node :
  h0 `prefix_of` h → length h0 ≤ this → length h0 ≤ node → node ≠ this →
  ∃ h', addDependency this node h = (h', Normal tt)
  ∧ h0 `prefix_of` h' ∧ length h' = length h ∧ ∀ c, id h' c = id h c.
Proof.
  intros Hprefix Hthis Hnode Hne. unfold addDependency.
  rewrite decide_False by done.
  destruct (includes node (getDependencies h this)).
  - by exists h.
  - eexists. split; [done|]. split_and!.
    + apply alter_keeps_prefix; [apply alter_keeps_prefix|]; done.
    + by rewrite !length_alter.
    + intros c. by rewrite !alter_edges_id.
Qed.

Lemma copy_dependencies_clones s1 dependencies clonedNode s :
  h0 `prefix_of` clone_heap s →
  idsToIncludedClones s = idsToIncludedClones s1 →
  length h0 ≤ clonedNode →
  (∀ m', m' ∈ dependencies →
    m' < length h0
    ∧ ∃ c', idsToIncludedClones s1 !! id h0 m' = Some c'
    ∧ length h0 ≤ c' ∧ c' ≠ clonedNode) →
  ∃ s', copy_dependencies dependencies clonedNode s = (s', Normal tt)
  ∧ h0 `prefix_of` clone_heap s'
  ∧ idsToIncludedClones s' = idsToIncludedClones s1
  ∧ length (clone_heap s') = length (clone_heap s)
  ∧ ∀ c, id (clone_heap s') c = id (clone_heap s) c.
Proof.
  revert s. induction dependencies as [|m' l IH];
    intros s Hprefix Hmap Hc Hall; simpl.
  - by exists s.
  - destruct (Hall m') as (Hm' & c' & Hc' & Hfresh & Hne); [by left|].
    rewrite (prefix_heap_id h0 _ Hprefix m' Hm'), Hmap, Hc'.
    destruct (addDependency_clones (clone_heap s) clonedNode c')
      as (h' & Hadd & Hprefix' & Hlen & Hid); try done.
    rewrite Hadd.
    destruct (IH (mkCloneState h' (idsToIncludedClones s)))
      as (s' & Hrun & Hp' & Hm & Hl & Hi); try done.
    { intros m'' Hm''. apply Hall. by right. }
    exists s'. split_and!; try done.
    + by rewrite <- Hmap.
    + simpl in Hl. congruence.
    + intros c. rewrite Hi. simpl. apply Hid.
Qed.

Hypothesis Hacyclic : acyclic h0.

Lemma pass2_inv_step s1 P p q v s :
  pass1_inv h0 root predicate s1 →
  pass2_inv h0 s1 P (p :: q) v s →
  ∃ s',
    copy_edges (top p) p s = Some (s', Normal tt)
    ∧ pass2_inv h0 s1 (P ++ [p])
        (enqueue (ids_of s')
           (default_getNextNodes (clone_heap s') (top p)) p q v).1
        (enqueue (ids_of s')
           (default_getNextNodes (clone_heap s') (top p)) p q v).2 s'.
Proof.
  intros [Hwf1 Hsound1 Hcl1] [Hinv Hprefix Hmap Hlen Hid].
  destruct (ids_inv_pop _ _ _ _ _ _ Hinv) as [Hinv1 Hm%elem_of_heap_refs].
  assert (∃ s', copy_edges (top p) p s = Some (s', Normal tt)
    ∧ h0 `prefix_of` clone_heap s'
    ∧ idsToIncludedClones s' = idsToIncludedClones s1
    ∧ length (clone_heap s') = length (clone_heap s)
    ∧ ∀ c, id (clone_heap s') c = id (clone_heap s) c)
    as (s' & Hcb & Hprefix' & Hmap' & Hlen' & Hid').
  { unfold copy_edges.
    rewrite (prefix_heap_id h0 _ Hprefix _ Hm), Hmap.
    destruct (idsToIncludedClones s1 !! id h0 (top p)) as [c|] eqn:Hc;
      [|by exists s].
    rewrite (prefix_heap_dependencies h0 _ Hprefix _ Hm).
    destruct (cw_fresh _ _ Hwf1 _ _ Hc) as (Hfresh & Hlt & Hidc).
    destruct (copy_dependencies_clones s1 (getDependencies h0 (top p)) c s)
      as (s' & Hrun & Hrest); try done.
    - intros m' Hm'.
      assert (m' < length h0) as Hlt' by by eapply closed_dependencies.
      split; [done|].
      destruct (Hcl1 (top p) m' Hm) as [c' Hc']; [by rewrite Hc|done|].
      exists c'. destruct (cw_fresh _ _ Hwf1 _ _ Hc') as (Hf' & _ & Hidc').
      split_and!; [done|done|]. intros ->.
      assert (m' = top p) as ->.
      { apply (id_injective h0); [done|done|done|congruence]. }
      by apply (Hacyclic (top p)), tc_once.
    - exists s'. by rewrite Hrun. }
  exists s'. split; [exact Hcb|].
  unfold default_getNextNodes.
  rewrite (prefix_heap_dependents h0 _ Hprefix') by done.
  rewrite (enqueue_ext (ids_of s') (id h0)).
  2: { intros y Hy. apply (prefix_heap_id h0); [done|].
    by eapply closed_dependents. }
  split; try done.
  - apply ids_inv_enqueue; [done|].
    intros y Hy. apply elem_of_heap_refs. by eapply closed_dependents.
  - congruence.
  - intros c. by rewrite Hid'.
Qed.

Lemma pass2_traverse fuel s1 :
  pass1_inv h0 root predicate s1 → root < length h0 → length h0 < fuel →
  ∃ s2,
    traverse ids_of copy_edges (λ s, default_getNextNodes (clone_heap s))
    fuel root s1 = Some (s2, Normal tt)
    ∧ h0 `prefix_of` clone_heap s2
    ∧ idsToIncludedClones s2 = idsToIncludedClones s1
    ∧ length (clone_heap s2) = length (clone_heap s1)
    ∧ ∀ c, id (clone_heap s2) c = id (clone_heap s1) c.
Proof.
  intros Hp1 Hroot Hfuel.
  pose proof (cw_prefix _ _ (p1_wf _ _ _ _ Hp1)) as Hprefix.
  destruct (traverse_loop_rule ids_of copy_edges
    (λ s, default_getNextNodes (clone_heap s))
    (pass2_inv h0 s1) (length h0))
    with (fuel := fuel) (P := @nil (list ref))
    (g := traverseGenerator (ids_of s1) root) (s := s1)
    as (P' & v' & s' & Hrun & Hend).
  - intros P q v s0 p Hinv.
    apply (ids_nonempty _ _ _ _ _ (p2_ids _ _ _ _ _ _ Hinv)).
  - intros P q v s0 Hinv.
    eapply ids_inv_heap_bound, (p2_ids _ _ _ _ _ _ Hinv).
  - intros P p q v s0 Hinv. by apply pass2_inv_step.
  - simpl. rewrite (prefix_heap_id h0 _ Hprefix root Hroot).
    split; simpl; try done.
    apply ids_inv_start. by apply elem_of_heap_refs.
  - simpl. lia.
  - exists s'. split; [exact Hrun|]. by destruct Hend.
Qed.

End clone.

(** *** More fuel does not change a result *)

Lemma traverse_loop_mono {St} (ids : St → ref → string)
    (callback callback' : ref → list ref → St → option (St * completion unit))
    (getNextNodes : St → ref → list ref) fuel fuel' g s r :
  (∀ n p s r, callback n p s = Some r → callback' n p s = Some r) →
  fuel ≤ fuel' →
  traverse_loop ids callback getNextNodes fuel g s = Some r →
  traverse_loop ids callback' getNextNodes fuel' g s = Some r.
Proof.
  intros Hcb. revert fuel' g s.
  induction fuel as [|fuel IH]; intros fuel' g s Hle; [done|].
  destruct fuel' as [|fuel']; [lia|]. simpl.
  destruct (next (ids s) (getNextNodes s) g) as [[item g']|]; [|done].
  destruct (callback (node item) (traversalPath item) s) as [[s' c]|] eqn:Hc;
    [|done].
  rewrite (Hcb _ _ _ _ Hc). destruct c; [|done]. apply IH. lia.
Qed.

Lemma clone_included_mono predicate fuel fuel' n p s r :
  fuel ≤ fuel' →
  clone_included predicate fuel n p s = Some r →
  clone_included predicate fuel' n p s = Some r.
Proof.
  intros Hle. unfold clone_included.
  destruct (has _ _); [done|]. destruct predicate as [f|]; [|done].
  destruct (f n); [|done]. unfold traverse. by apply traverse_loop_mono.
Qed.

Lemma cloneWithRelationships_mono fuel fuel' this predicate h r :
  fuel ≤ fuel' →
  cloneWithRelationships fuel this predicate h = Some r →
  cloneWithRelationships fuel' this predicate h = Some r.
Proof.
  intros Hle. unfold cloneWithRelationships, getRootNode.
  destruct (getRootNode_loop fuel h this) as [root|] eqn:Hroot; [|done].
  rewrite (getRootNode_loop_mono _ _ _ _ _ Hle Hroot). simpl.
  destruct (traverse _ (clone_included predicate fuel) _ fuel root _)
    as [[s1 c1]|] eqn:H1; [|done].
  unfold traverse in *.
  rewrite (traverse_loop_mono _ _ (clone_included predicate fuel') _ _ _ _ _ _
             (λ n p s r, clone_included_mono predicate _ _ n p s r Hle)
             Hle H1).
  simpl. destruct c1; [|done].
  destruct (traverse_loop _ copy_edges _ fuel _ s1) as [[s2 c2]|] eqn:H2;
    [|done].
  by rewrite (traverse_loop_mono _ _ copy_edges _ _ _ _ _ _
                (λ n p s r H, H) Hle H2).
Qed.

(** *** The whole clone *)

Lemma symmetric_closed h : symmetric h → closed h.
Proof.
  intros Hsym a b [Hb|Hb].
  - apply Hsym in Hb. by eapply getDependents_in_heap.
  - apply Hsym in Hb. by eapply getDependencies_in_heap.
Qed.

Lemma symmetric_rtc h a b :
  symmetric h → rtc (dependency_edge h) a b → rtc (dependent_edge h) b a.
Proof.
  intros Hsym Hab. induction Hab as [|a b c Hab _ IH]; [done|].
  eapply rtc_r; [done|]. by apply Hsym.
Qed.

Lemma cloneWithRelationships_spec (h0 : heap) this predicate fuel :
  closed h0 → NoDup (_id <$> h0) → acyclic h0 →
  this < length h0 → length h0 < fuel →
  ∃ root h' r,
    getRootNode fuel h0 this = Some root
    ∧ cloneWithRelationships fuel this (Some predicate) h0 = Some (h', r)
    ∧ h0 `prefix_of` h'
    ∧ (∀ m, kept h0 root predicate m →
         ∃ c, length h0 ≤ c ∧ c < length h' ∧ id h' c = id h0 m)
    ∧ (kept h0 root predicate this →
         ∃ c, r = Normal c ∧ length h0 ≤ c ∧ id h' c = id h0 this)
    ∧ (¬ kept h0 root predicate this →
         r = Throw "Cloned graph missing node").
Proof.
  intros Hclosed Hids Hacyclic Hthis Hfuel.
  destruct (getRootNode_loop_terminates h0 fuel [] this) as [root Hroot];
    try done.
  { apply NoDup_nil_2. }
  { by intros s ?%elem_of_nil. }
  { by intros s ?%elem_of_nil. }
  { simpl. lia. }
  assert (root < length h0) as Hroot_lt.
  { apply (closed_rtc h0 this); [done|done|].
    by apply (getRootNode_loop_root fuel). }
  destruct (pass1_traverse h0 root predicate Hclosed Hids fuel)
    as (s1 & Hrun1 & Hp1 & Hkept); try done.
  destruct (pass2_traverse h0 root predicate Hclosed Hids Hacyclic fuel s1)
    as (s2 & Hrun2 & Hprefix2 & Hmap2 & Hlen2 & Hid2); try done.
  assert (∀ n, rtc (dependent_edge h0) root n → n < length h0) as Hdown.
  { intros n. apply reachable_in_heap; [|done].
    intros a b. by apply closed_dependents. }
  assert (∀ m, kept h0 root predicate m →
            m < length h0
            ∧ is_Some (idsToIncludedClones s1 !! id h0 m)) as Hmap.
  { intros m (n & Hn & Hpn & Hnm). revert m Hnm. apply rtc_ind_r.
    - split; [by apply Hdown|by apply Hkept].
    - intros m1 m _ Hm1m [Hm1 Hin]. split.
      + by eapply closed_dependencies.
      + by eapply (p1_closed _ _ _ _ Hp1). }
  assert (∀ m c, m < length h0 →
            idsToIncludedClones s1 !! id h0 m = Some c →
            length h0 ≤ c ∧ c < length (clone_heap s2)
            ∧ id (clone_heap s2) c = id h0 m) as Hclone.
  { intros m c Hm Hc.
    destruct (cw_fresh _ _ (p1_wf _ _ _ _ Hp1) _ _ Hc) as (? & ? & ?).
    split_and!; [done|lia|]. by rewrite Hid2. }
  exists root.
  assert (cloneWithRelationships fuel this (Some predicate) h0 =
          match idsToIncludedClones s1 !! id h0 this with
          | None => Some (clone_heap s2, Throw "Cloned graph missing node")
          | Some c => Some (clone_heap s2, Normal c)
          end) as Hrun.
  { unfold cloneWithRelationships. unfold getRootNode. rewrite Hroot. simpl.
    rewrite Hrun1. simpl. rewrite Hrun2. simpl.
    by rewrite Hmap2, (prefix_heap_id h0 _ Hprefix2 this Hthis). }
  destruct (idsToIncludedClones s1 !! id h0 this) as [c|] eqn:Hc.
  - exists (clone_heap s2), (Normal c). split_and!; try done.
    + intros m [Hm [c' Hc']]%Hmap. exists c'. by apply Hclone.
    + intros _. exists c. destruct (Hclone this c Hthis Hc) as (? & ? & ?).
      by split_and!.
    + intros Hnot. destruct Hnot.
      destruct (p1_sound _ _ _ _ Hp1 (id h0 this)) as (m & Hm & Hid & Hk);
        [by rewrite Hc|].
      by rewrite <- (id_injective h0 m this).
  - exists (clone_heap s2), (Throw "Cloned graph missing node").
    split_and!; try done.
    + intros m [Hm [c' Hc']]%Hmap. exists c'. by apply Hclone.
    + intros [_ [c Hc']]%Hmap. congruence.
Qed.

Lemma cloneWithRelationships_result (h0 : heap) this predicate :
  closed h0 → NoDup (_id <$> h0) → acyclic h0 → this < length h0 →
  ∃ root h' r,
    (∀ fuel, length h0 < fuel →
       getRootNode fuel h0 this = Some root
       ∧ cloneWithRelationships fuel this (Some predicate) h0 = Some (h', r))
    ∧ h0 `prefix_of` h'
    ∧ (∀ m, kept h0 root predicate m →
         ∃ c, length h0 ≤ c ∧ c < length h' ∧ id h' c = id h0 m)
    ∧ (kept h0 root predicate this →
         ∃ c, r = Normal c ∧ length h0 ≤ c ∧ id h' c = id h0 this)
    ∧ (¬ kept h0 root predicate this →
         r = Throw "Cloned graph missing node").
Proof.
  intros Hclosed Hids Hacyclic Hthis.
  destruct (cloneWithRelationships_spec h0 this predicate (S (length h0)))
    as (root & h' & r & Hroot & Hrun & Hrest); try done; [lia|].
  exists root, h', r. split; [|done].
  intros fuel Hfuel. split.
  - by apply (getRootNode_loop_mono (S (length h0))); [lia|].
  - by apply (cloneWithRelationships_mono (S (length h0))); [lia|].
Qed.

(** ** C4 *)



(** ** C8 *)

(** C8. On a graph with symmetric edge lists, pairwise different ids and
    no dependency cycle, [X.cloneWithRelationships(p)] with a predicate
    that matches neither [X] nor any node reachable from [X] along
    dependents ends (for any fuel above the number of nodes) by throwing
    the error for a clone map without [X]. *)
Theorem cloneWithRelationships_excluded_throws
    (h : heap) (X : ref) (predicate : ref → bool) :
  symmetric h → NoDup (_id <$> h) → acyclic h → X < length h →
  (∀ n, rtc (dependent_edge h) X n → predicate n = false) →
  ∃ h', ∀ fuel, length h < fuel →
    cloneWithRelationships fuel X (Some predicate) h =
      Some (h', Throw "Cloned graph missing node").
Proof.
  intros Hsym Hids Hacyclic HX Hexcl.
  destruct (cloneWithRelationships_result h X predicate)
    as (root & h' & r & Hrun & Hprefix & _ & _ & Hthrow); try done.
  { by apply symmetric_closed. }
  exists h'. intros fuel Hfuel.
  destruct (Hrun fuel Hfuel) as [_ ->]. rewrite Hthrow; [done|].
  intros (n & Hn & Hpn & HnX).
  apply (symmetric_rtc h n X Hsym) in HnX.
  rewrite (Hexcl n HnX) in Hpn. done.
Qed.

Lemma cloneWithRelationships_excluded_throws_witness :
  cloneWithRelationships 5 3 (Some only_R) diamond_heap =
    Some (diamond_heap ++ [mkBaseNode "R" false [] []],
          Throw "Cloned graph missing node").
Proof.
  destruct (cloneWithRelationships_excluded_throws diamond_heap 3 only_R)
    as [h' Hh'].
  - apply diamond_heap_symmetric.
  - apply (bool_decide_unpack _). by vm_compute.
  - apply diamond_heap_acyclic.
  - simpl. lia.
  - intros n [<-|(y & Hy & _)]%rtc_inv; [done|].
    unfold dependent_edge in Hy. vm_compute in Hy. by apply elem_of_nil in Hy.
  - pose proof (Hh' 5 ltac:(simpl; lia)) as Hrun.
    rewrite Hrun. f_equal. vm_compute in Hrun. by injection Hrun as <-.
Defined.

(** * Further properties *)

(** ** Edge management: what each call changes *)

Lemma alter_frame (f : BaseNode → BaseNode) (h : heap) r c :
  (∀ n, _id (f n) = _id n) →
  (∀ n, _isMainDocument (f n) = _isMainDocument n) →
  id (alter f r h) c = id h c
  ∧ isMainDocument (alter f r h) c = isMainDocument h c.
Proof.
  intros Hid Hmain. unfold id, isMainDocument.
  destruct (decide (r = c)) as [->|Hne].
  - rewrite list_lookup_alter_eq. destruct (h !! c); simpl; auto.
  - by rewrite list_lookup_alter_ne.
Qed.

Lemma addDependency_frame this node h c :
  length (addDependency this node h).1 = length h
  ∧ id (addDependency this node h).1 c = id h c
  ∧ isMainDocument (addDependency this node h).1 c = isMainDocument h c.
Proof.
  unfold addDependency. repeat case_match; simpl; try done.
  rewrite !length_alter. split; [done|].
  destruct (alter_frame (push_dependencies node)
              (alter (push_dependents this) node h) this c) as [-> ->];
    [done..|].
  by apply alter_frame.
Qed.

Lemma removeDependency_frame this node h c :
  length (removeDependency this node h) = length h
  ∧ id (removeDependency this node h) c = id h c
  ∧ isMainDocument (removeDependency this node h) c = isMainDocument h c.
Proof.
  unfold removeDependency. case_match; [done|].
  rewrite !length_alter. split; [done|].
  match goal with
  | |- context [alter ?f this (alter ?g node h)] =>
      destruct (alter_frame f (alter g node h) this c) as [-> ->]; [done..|];
      by apply alter_frame
  end.
Qed.

Lemma removeAllDependencies_frame this h c :
  length (removeAllDependencies this h) = length h
  ∧ id (removeAllDependencies this h) c = id h c
  ∧ isMainDocument (removeAllDependencies this h) c = isMainDocument h c.
Proof.
  unfold removeAllDependencies. generalize (getDependencies h this).
  intros l. revert h. induction l as [|x l IH]; intros h; simpl; [done|].
  destruct (IH (removeDependency this x h)) as (-> & -> & ->).
  apply removeDependency_frame.
Qed.

Lemma run_edge_op_frame op h c :
  length (run_edge_op op h) = length h
  ∧ id (run_edge_op op h) c = id h c
  ∧ isMainDocument (run_edge_op op h) c = isMainDocument h c.
Proof.
  destruct op; simpl; unfold addDependent, removeDependent.
  - apply addDependency_frame.
  - apply addDependency_frame.
  - apply removeDependency_frame.
  - apply removeDependency_frame.
  - apply removeAllDependencies_frame.
Qed.

(** Two heaps are equal when they agree on the four fields of every
    node. *)
Lemma heap_ext (h h' : heap) :
  length h = length h' →
  (∀ r, id h r = id h' r ∧ isMainDocument h r = isMainDocument h' r
        ∧ getDependents h r = getDependents h' r
        ∧ getDependencies h r = getDependencies h' r) →
  h = h'.
Proof.
  intros Hlen Hall. apply list_eq. intros r.
  destruct (Hall r) as (Hid & Hmain & Hdts & Hdcs).
  unfold id, isMainDocument, getDependents, getDependencies in *.
  destruct (h !! r) as [n|] eqn:Hn, (h' !! r) as [n'|] eqn:Hn'; simpl in *.
  - destruct n, n'; simpl in *; by subst.
  - apply lookup_lt_Some in Hn. apply lookup_ge_None in Hn'. lia.
  - apply lookup_lt_Some in Hn'. apply lookup_ge_None in Hn. lia.
  - done.
Qed.

(** The members of the edge lists after [addDependency], whatever the
    heap. *)
Lemma addDependency_dependencies_elem this node h r y :
  y ∈ getDependencies (addDependency this node h).1 r ↔
    y ∈ getDependencies h r
    ∨ (r = this ∧ y = node ∧ node ≠ this ∧ this < length h).
Proof.
  unfold addDependency, includes.
  destruct (decide (node = this)) as [->|Hne]; simpl; [tauto|].
  case_bool_decide as Hin; simpl.
  { split; [tauto|]. intros [?|(-> & -> & _)]; done. }
  rewrite getDependencies_alter.
  destruct (decide (this = r)) as [<-|Hr].
  - rewrite list_lookup_alter_ne by done. unfold getDependencies.
    destruct (h !! this) as [n|] eqn:Hn; simpl.
    + apply lookup_lt_Some in Hn.
      rewrite elem_of_app, list_elem_of_singleton. tauto.
    + apply lookup_ge_None in Hn. rewrite elem_of_nil. split; [done|].
      intros [[]|(_ & _ & _ & ?)]. lia.
  - rewrite getDependencies_alter.
    assert (from_option
              (λ n, _dependencies (push_dependents this n)) [] (h !! node)
            = getDependencies h node) as Hsame.
    { unfold getDependencies. by destruct (h !! node). }
    case_decide; subst; rewrite ?Hsame; split; try tauto;
      intros [?|(-> & _)]; done.
Qed.

Lemma addDependency_dependents_elem this node h r y :
  y ∈ getDependents (addDependency this node h).1 r ↔
    y ∈ getDependents h r
    ∨ (r = node ∧ y = this ∧ node ≠ this ∧ node < length h
       ∧ node ∉ getDependencies h this).
Proof.
  unfold addDependency, includes.
  destruct (decide (node = this)) as [->|Hne]; simpl; [tauto|].
  case_bool_decide as Hin; simpl; [tauto|].
  rewrite getDependents_alter.
  assert (getDependents (alter (push_dependents this) node h) r =
          if decide (r = node)
          then from_option (λ n, _dependents n ++ [this]) [] (h !! node)
          else getDependents h r) as Hinner.
  { rewrite getDependents_alter.
    destruct (decide (node = r)) as [<-|Hr'].
    - rewrite decide_True by done. by destruct (h !! node).
    - by rewrite decide_False by done. }
  assert (y ∈ getDependents (alter (push_dependents this) node h) r ↔
          y ∈ getDependents h r
          ∨ (r = node ∧ y = this ∧ node ≠ this ∧ node < length h
             ∧ node ∉ getDependencies h this)) as Hgoal.
  { rewrite Hinner. case_decide as Hr.
    - subst r. unfold getDependents.
      destruct (h !! node) as [n|] eqn:Hn; simpl.
      + apply lookup_lt_Some in Hn.
        rewrite elem_of_app, list_elem_of_singleton. tauto.
      + apply lookup_ge_None in Hn. rewrite elem_of_nil. split; [done|].
        intros [[]|(_ & _ & _ & ? & _)]. lia.
    - split; [tauto|]. intros [?|(-> & _)]; done. }
  destruct (decide (this = r)) as [<-|Hr]; [|done].
  rewrite <- Hgoal. unfold getDependents.
  by destruct (alter (push_dependents this) node h !! this).
Qed.

(** The dependencies after a new edge, for a [node] that need not be a
    node of the heap. *)
Lemma addDependency_dependencies_head this node h r :
  this < length h → node ≠ this → node ∉ getDependencies h this →
  getDependencies (addDependency this node h).1 r =
    if decide (r = this) then getDependencies h this ++ [node]
    else getDependencies h r.
Proof.
  intros Hthis Hne Hnew. unfold addDependency, includes.
  rewrite decide_False by done. rewrite bool_decide_eq_false_2 by done. simpl.
  rewrite getDependencies_alter.
  destruct (decide (this = r)) as [<-|Hr].
  - rewrite decide_True by done. rewrite list_lookup_alter_ne by done.
    destruct (lookup_in_heap h this Hthis) as [n Hn].
    unfold getDependencies. by rewrite Hn.
  - rewrite decide_False by done.
    rewrite getDependencies_alter. case_decide; [|done].
    subst. unfold getDependencies. by destruct (h !! r).
Qed.

(** The edge lists after [removeDependency] are sublists of the lists
    before. *)
Lemma removeDependency_sublists this node h r :
  getDependencies (removeDependency this node h) r
    `sublist_of` getDependencies h r
  ∧ getDependents (removeDependency this node h) r
      `sublist_of` getDependents h r.
Proof.
  destruct (decide (node ∈ getDependencies h this)) as [Hin|Hnew];
    [|by rewrite removeDependency_absent].
  rewrite removeDependency_present_dependencies,
    removeDependency_present_dependents by done.
  split; case_decide; subst; try done; apply splice1_sublist.
Qed.

Lemma indexOf_last x l : x ∉ l → indexOf x (l ++ [x]) = Z.of_nat (length l).
Proof.
  intros Hx.
  destruct (indexOf_elem x (l ++ [x])) as (i & Hi & Hl & _).
  { apply elem_of_app. right. by left. }
  rewrite Hi. f_equal.
  destruct (decide (i < length l)) as [Hlt|Hge].
  - rewrite lookup_app_l in Hl by done.
    destruct Hx. by eapply list_elem_of_lookup_2.
  - apply lookup_lt_Some in Hl. rewrite length_app in Hl. simpl in Hl. lia.
Qed.

Lemma splice1_indexOf_last x l :
  x ∉ l → splice1 (indexOf x (l ++ [x])) (l ++ [x]) = l.
Proof.
  intros Hx. rewrite indexOf_last by done.
  rewrite splice1_of_nat by (rewrite length_app; simpl; lia).
  by rewrite delete_middle, app_nil_r.
Qed.

Lemma splice1_removelast l : splice1 (-1) l = removelast l.
Proof.
  unfold splice1. simpl.
  induction l as [|x l _] using rev_ind; [done|].
  rewrite removelast_last, length_app. simpl.
  replace (Z.to_nat (Z.max (Z.of_nat (length l + 1) + -1) 0))
    with (length l) by lia.
  by rewrite delete_middle, app_nil_r.
Qed.

Lemma splice1_indexOf_length x l :
  x ∈ l → length (splice1 (indexOf x l) l) + 1 = length l.
Proof.
  intros Hx. destruct (indexOf_elem x l Hx) as (i & Hi & Hl & _).
  pose proof (lookup_lt_Some _ _ _ Hl) as Hlt.
  rewrite Hi, splice1_of_nat by done.
  rewrite length_delete by eauto. lia.
Qed.

(** *** Adding an edge *)

(** X1. [this.addDependency(node)] for a new edge between two different
    nodes returns normally, appends [node] at the end of the dependencies of
    [this] and [this] at the end of the dependents of [node], and changes no
    other list, no id, no main-document flag and not the number of nodes. *)
Theorem addDependency_appends (h : heap) (this node : ref) :
  this < length h → node < length h → node ≠ this →
  node ∉ getDependencies h this →
  let h' := (addDependency this node h).1 in
  (addDependency this node h).2 = Normal tt
  ∧ length h' = length h
  ∧ (∀ r, getDependencies h' r =
          if decide (r = this) then getDependencies h this ++ [node]
          else getDependencies h r)
  ∧ (∀ r, getDependents h' r =
          if decide (r = node) then getDependents h node ++ [this]
          else getDependents h r)
  ∧ (∀ r, id h' r = id h r ∧ isMainDocument h' r = isMainDocument h r).
Proof.
  intros Hthis Hnode Hne Hnew h'. subst h'. split_and!.
  - by rewrite addDependency_new.
  - apply (addDependency_frame this node h 0).
  - intros r. by apply addDependency_new_dependencies.
  - intros r. by apply addDependency_new_dependents.
  - intros r. apply (addDependency_frame this node h r).
Qed.

Lemma addDependency_appends_witness :
  let h := [mkBaseNode "a" false [] [2]; mkBaseNode "b" true [] [];
            mkBaseNode "c" false [0] []] in
  let h' := (addDependency 0 1 h).1 in
  getDependencies h' 0 = [2; 1] ∧ getDependents h' 1 = [0]
  ∧ isMainDocument h' 1 = true.
Proof.
  intros h h'.
  destruct (addDependency_appends h 0 1) as (_ & _ & Hdeps & Hdts & Hframe).
  - simpl. lia.
  - simpl. lia.
  - done.
  - vm_compute. intros [=]%list_elem_of_singleton.
  - split_and!.
    + exact (Hdeps 0).
    + exact (Hdts 1).
    + exact (proj2 (Hframe 1)).
Defined.

(** *** Removing an edge *)

(** X2. In a heap whose edge lists are symmetric and free of duplicates,
    [this.removeDependency(node)] on an edge that is there removes this edge
    from both lists and no other: every other edge is kept, and each of the
    two lists is one shorter. *)
Theorem removeDependency_removes (h : heap) (this node : ref) :
  symmetric h → duplicate_free h → node ∈ getDependencies h this →
  let h' := removeDependency this node h in
  (∀ r y, y ∈ getDependencies h' r ↔
          y ∈ getDependencies h r ∧ ¬ (r = this ∧ y = node))
  ∧ (∀ r y, y ∈ getDependents h' r ↔
            y ∈ getDependents h r ∧ ¬ (r = node ∧ y = this))
  ∧ getNumberOfDependencies h' this + 1 = getNumberOfDependencies h this
  ∧ getNumberOfDependents h' node + 1 = getNumberOfDependents h node.
Proof.
  intros Hsym Hnd Hin h'. subst h'.
  assert (this ∈ getDependents h node) as Hin' by by apply Hsym.
  unfold getNumberOfDependencies, getNumberOfDependents.
  split_and!.
  - intros r y. rewrite removeDependency_present_dependencies by done.
    case_decide as Hr.
    + subst r. rewrite splice1_indexOf_NoDup by (done || apply Hnd).
      intuition congruence.
    + intuition congruence.
  - intros r y. rewrite removeDependency_present_dependents by done.
    case_decide as Hr.
    + subst r. rewrite splice1_indexOf_NoDup by (done || apply Hnd).
      intuition congruence.
    + intuition congruence.
  - rewrite removeDependency_present_dependencies, decide_True by done.
    by apply splice1_indexOf_length.
  - rewrite removeDependency_present_dependents, decide_True by done.
    by apply splice1_indexOf_length.
Qed.

Lemma removeDependency_removes_witness :
  let h' := removeDependency 3 1 diamond_heap in
  (∀ y, y ∈ getDependencies h' 3 ↔ y ∈ getDependencies diamond_heap 3 ∧ y ≠ 1)
  ∧ getNumberOfDependencies h' 3 + 1 = 2.
Proof.
  intros h'. subst h'.
  destruct (removeDependency_removes diamond_heap 3 1)
    as (Hdeps & _ & Hlen & _).
  - apply diamond_heap_symmetric.
  - apply (built_heaps_edges_ok ["R"; "B"; "C"; "D"]
             [AddDependency 1 0; AddDependency 2 0;
              AddDependency 3 1; AddDependency 3 2]).
    repeat constructor; simpl; lia.
  - vm_compute. apply list_elem_of_here.
  - split; [|exact Hlen].
    intros y. rewrite (Hdeps 3 y). intuition congruence.
Defined.

(** X3. When [node] is a dependency of [this] but [this] is missing from the
    dependents of [node], [indexOf] gives -1 and [splice(-1, 1)] takes the
    last element: [this.removeDependency(node)] removes the last dependent
    of [node], which is another node. *)
Theorem removeDependency_unmatched_drops_last (h : heap) (this node : ref) :
  node ∈ getDependencies h this → this ∉ getDependents h node →
  getDependents (removeDependency this node h) node =
    removelast (getDependents h node).
Proof.
  intros Hin Hnot.
  rewrite removeDependency_present_dependents, decide_True by done.
  rewrite indexOf_not_elem by done. apply splice1_removelast.
Qed.

Lemma removeDependency_unmatched_drops_last_witness :
  let h := [mkBaseNode "a" false [] [1]; mkBaseNode "x" false [2; 3] [];
            mkBaseNode "y" false [] [1]; mkBaseNode "z" false [] [1]] in
  getDependents (removeDependency 0 1 h) 1 = [2]
  ∧ getDependencies (removeDependency 0 1 h) 3 = [1].
Proof.
  intros h. split; [|reflexivity].
  apply (removeDependency_unmatched_drops_last h 0 1).
  - vm_compute. apply list_elem_of_here.
  - vm_compute. intros [[=]|[[=]|[]%elem_of_nil]%elem_of_cons]%elem_of_cons.
Defined.

(** *** Round trip *)

(** X4. Adding an edge that is not there and removing it again gives back
    the heap as it was, list order included; the same holds for
    [addDependent] followed by [removeDependent]. *)
Theorem addDependency_removeDependency_round_trip
    (h : heap) (this node : ref) :
  this < length h → node < length h → node ≠ this →
  node ∉ getDependencies h this → this ∉ getDependents h node →
  removeDependency this node (addDependency this node h).1 = h
  ∧ removeDependent node this (addDependent node this h).1 = h.
Proof.
  intros Hthis Hnode Hne Hnew Hnew'.
  assert (removeDependency this node (addDependency this node h).1 = h)
    as Hround; [|by split].
  assert (node ∈ getDependencies (addDependency this node h).1 this) as Hin
    by by apply addDependency_adds.
  apply heap_ext.
  - destruct (removeDependency_frame this node
                (addDependency this node h).1 0) as [-> _].
    apply (addDependency_frame this node h 0).
  - intros r.
    destruct (removeDependency_frame this node
                (addDependency this node h).1 r) as (_ & -> & ->).
    destruct (addDependency_frame this node h r) as (_ & -> & ->).
    split_and!; [done|done| |].
    + rewrite removeDependency_present_dependents by done.
      rewrite !addDependency_new_dependents by done.
      case_decide; [subst|done]. rewrite decide_True by done.
      by apply splice1_indexOf_last.
    + rewrite removeDependency_present_dependencies by done.
      rewrite !addDependency_new_dependencies by done.
      case_decide; [subst|done]. rewrite decide_True by done.
      by apply splice1_indexOf_last.
Qed.

Lemma addDependency_removeDependency_round_trip_witness :
  removeDependency 3 0 (addDependency 3 0 diamond_heap).1 = diamond_heap
  ∧ getDependencies (addDependency 3 0 diamond_heap).1 3 = [1; 2; 0].
Proof.
  split; [|reflexivity].
  apply (addDependency_removeDependency_round_trip diamond_heap 3 0).
  - simpl. lia.
  - simpl. lia.
  - done.
  - vm_compute. intros [[=]|[[=]|[]%elem_of_nil]%elem_of_cons]%elem_of_cons.
  - vm_compute. intros [[=]|[[=]|[]%elem_of_nil]%elem_of_cons]%elem_of_cons.
Defined.

(** *** Removing all dependencies *)

Lemma removeDependency_dependencies_perm this node h :
  node ∈ getDependencies h this →
  getDependencies h this
    ≡ₚ node :: getDependencies (removeDependency this node h) this.
Proof.
  intros Hin.
  rewrite removeDependency_present_dependencies, decide_True by done.
  destruct (indexOf_elem node _ Hin) as (i & Hi & Hl & _).
  rewrite Hi, splice1_of_nat by by eapply lookup_lt_Some.
  by apply delete_Permutation.
Qed.

Lemma removeAllDependencies_loop_clears this (l : list ref) (h : heap) :
  l ≡ₚ getDependencies h this →
  getDependencies
    (foldl (λ h' node, removeDependency this node h') h l) this = [].
Proof.
  revert h. induction l as [|x l IH]; intros h Hperm; simpl.
  - by apply Permutation_nil.
  - apply IH.
    assert (x ∈ getDependencies h this) as Hin.
    { rewrite <- Hperm. by left. }
    pose proof (removeDependency_dependencies_perm this x h Hin) as Hrem.
    rewrite Hrem in Hperm. by apply Permutation_cons_inv in Hperm.
Qed.

Lemma removeAllDependencies_loop_others this (l : list ref) (h : heap) :
  edges_ok h → l ≡ₚ getDependencies h this →
  let h' := foldl (λ h' node, removeDependency this node h') h l in
  (∀ r, r ≠ this → getDependencies h' r = getDependencies h r)
  ∧ (∀ r y, y ∈ getDependents h' r ↔ y ∈ getDependents h r ∧ y ≠ this).
Proof.
  revert h. induction l as [|x l IH]; intros h Hok Hperm; simpl.
  - split; [done|]. intros r y. split; [|tauto].
    intros Hy. split; [done|]. intros ->.
    apply (proj1 Hok) in Hy. rewrite <- Hperm in Hy.
    by apply elem_of_nil in Hy.
  - assert (x ∈ getDependencies h this) as Hin.
    { rewrite <- Hperm. by left. }
    pose proof (removeDependency_dependencies_perm this x h Hin) as Hrem.
    destruct (IH (removeDependency this x h)) as [Hdeps Hdts].
    + by apply removeDependency_edges_ok.
    + rewrite Hrem in Hperm. by apply Permutation_cons_inv in Hperm.
    + destruct Hok as [Hsym Hnd]. split.
      * intros r Hr. rewrite Hdeps by done.
        rewrite removeDependency_present_dependencies by done.
        by rewrite decide_False.
      * intros r y. rewrite Hdts.
        rewrite removeDependency_present_dependents by done.
        case_decide as Hr; [|done]. subst r.
        rewrite splice1_indexOf_NoDup; [tauto|apply Hnd|by apply Hsym].
Qed.

(** X5. [this.removeAllDependencies()] leaves [this] without dependencies in
    every heap. When the edge lists were symmetric and free of duplicates,
    it removes [this] from the dependents of every node and changes nothing
    else: the other nodes keep their dependencies, and keep their dependents
    other than [this]. *)
Theorem removeAllDependencies_clears (h : heap) (this : ref) :
  let h' := removeAllDependencies this h in
  getDependencies h' this = []
  ∧ (symmetric h → duplicate_free h →
       (∀ r, r ≠ this → getDependencies h' r = getDependencies h r)
       ∧ (∀ r y, y ∈ getDependents h' r ↔ y ∈ getDependents h r ∧ y ≠ this)).
Proof.
  intros h'. subst h'. unfold removeAllDependencies. split.
  - by apply removeAllDependencies_loop_clears.
  - intros Hsym Hnd. by apply removeAllDependencies_loop_others.
Qed.

Lemma removeAllDependencies_clears_witness :
  let h' := removeAllDependencies 3 diamond_heap in
  getDependencies h' 3 = []
  ∧ (∀ y, y ∈ getDependents h' 1 ↔ y ∈ getDependents diamond_heap 1 ∧ y ≠ 3)
  ∧ getDependencies h' 1 = [0].
Proof.
  intros h'. subst h'.
  destruct (removeAllDependencies_clears diamond_heap 3) as [Hnone Hrest].
  destruct Hrest as [Hdeps Hdts].
  - apply diamond_heap_symmetric.
  - apply (built_heaps_edges_ok ["R"; "B"; "C"; "D"]
             [AddDependency 1 0; AddDependency 2 0;
              AddDependency 3 1; AddDependency 3 2]).
    repeat constructor; simpl; lia.
  - split_and!; [exact Hnone|exact (Hdts 1)|].
    by rewrite (Hdeps 1).
Defined.

(** *** What the calls never change *)

(** X6. None of the five edge-management calls changes the number of nodes,
    the id of a node or its main-document flag. *)
Theorem edge_ops_keep_nodes (op : edge_op) (h : heap) (r : ref) :
  length (run_edge_op op h) = length h
  ∧ id (run_edge_op op h) r = id h r
  ∧ isMainDocument (run_edge_op op h) r = isMainDocument h r.
Proof. apply run_edge_op_frame. Qed.

Lemma removeDependency_no_self_edges this node h :
  no_self_edges h → no_self_edges (removeDependency this node h).
Proof.
  intros Hno n. destruct (Hno n) as [Hd1 Hd2].
  destruct (removeDependency_sublists this node h n) as [Hs1 Hs2].
  split; intros Hin; [apply Hd1|apply Hd2]; by eapply elem_of_sublist.
Qed.

Lemma run_edge_op_no_self_edges op h :
  no_self_edges h → no_self_edges (run_edge_op op h).
Proof.
  assert (∀ this node h', no_self_edges h' →
            no_self_edges (addDependency this node h').1) as Hadd.
  { intros this node h' Hno n. destruct (Hno n) as [Hd1 Hd2].
    rewrite addDependency_dependencies_elem, addDependency_dependents_elem.
    split; intros [?|(-> & -> & ? & _)]; done. }
  intros Hno. destruct op; simpl; unfold addDependent, removeDependent.
  - by apply Hadd.
  - by apply Hadd.
  - by apply removeDependency_no_self_edges.
  - by apply removeDependency_no_self_edges.
  - unfold removeAllDependencies. generalize (getDependencies h this).
    intros l. revert h Hno.
    induction l as [|x l IH]; intros h Hno; simpl; [done|].
    by apply IH, removeDependency_no_self_edges.
Qed.

(** X7. No call creates a self-edge: from a heap in which no node is in its
    own dependencies or dependents, each of the five calls leaves such a
    heap, so that no heap built from newly constructed nodes by these calls
    has a node that depends on itself. *)
Theorem edge_ops_no_self_edges :
  (∀ (op : edge_op) (h : heap),
     no_self_edges h → no_self_edges (run_edge_op op h))
  ∧ (∀ (ids : list string) (ops : list edge_op),
       no_self_edges
         (foldl (λ h op, run_edge_op op h) (newBaseNode <$> ids) ops)).
Proof.
  split; [apply run_edge_op_no_self_edges|].
  intros ids ops.
  assert (no_self_edges (newBaseNode <$> ids)) as Hno.
  { intros n. unfold getDependencies, getDependents.
    rewrite list_lookup_fmap. destruct (ids !! n); simpl;
      split; apply not_elem_of_nil. }
  revert Hno. generalize (newBaseNode <$> ids). intros h.
  revert h. induction ops as [|op ops IH]; intros h Hno; simpl; [done|].
  by apply IH, run_edge_op_no_self_edges.
Qed.

Lemma edge_ops_no_self_edges_witness :
  no_self_edges (run_edge_op (AddDependency 0 0) diamond_heap)
  ∧ no_self_edges (run_edge_op (AddDependent 3 0) diamond_heap).
Proof.
  assert (no_self_edges diamond_heap) as Hno.
  { apply (proj2 edge_ops_no_self_edges ["R"; "B"; "C"; "D"]
             [AddDependency 1 0; AddDependency 2 0;
              AddDependency 3 1; AddDependency 3 2]). }
  split; by apply (proj1 edge_ops_no_self_edges).
Defined.

(** *** Cycles are not refused *)

(** X8. [addDependency] checks for a self-dependency only: for two different
    nodes [A] and [B], [A.addDependency(B)] followed by [B.addDependency(A)]
    returns normally both times and leaves [A] depending on itself through
    [B]. *)
Theorem addDependency_allows_cycle (h : heap) (A B : ref) :
  A < length h → B < length h → A ≠ B →
  let h1 := (addDependency A B h).1 in
  let h2 := (addDependency B A h1).1 in
  (addDependency A B h).2 = Normal tt
  ∧ (addDependency B A h1).2 = Normal tt
  ∧ tc (dependency_edge h2) A A
  ∧ ¬ acyclic h2.
Proof.
  intros HA HB Hne h1 h2.
  assert (∀ this node h', node ≠ this →
            (addDependency this node h').2 = Normal tt) as Hnormal.
  { intros this node h' Hn. unfold addDependency.
    rewrite decide_False by done. by case_match. }
  assert (tc (dependency_edge h2) A A) as Hcycle.
  { apply tc_l with B.
    - unfold dependency_edge. subst h2.
      apply addDependency_dependencies_elem. left.
      by apply addDependency_adds.
    - apply tc_once. unfold dependency_edge. subst h2.
      apply addDependency_adds; [|done]. subst h1.
      by rewrite (proj1 (addDependency_frame A B h 0)). }
  split_and!; [by apply Hnormal|by apply Hnormal|done|].
  intros Hac. by apply (Hac A).
Qed.

Lemma addDependency_allows_cycle_witness :
  let h := newBaseNode <$> ["a"; "b"] in
  let h2 := (addDependency 1 0 (addDependency 0 1 h).1).1 in
  h2 = [mkBaseNode "a" false [1] [1]; mkBaseNode "b" false [0] [0]]
  ∧ ¬ acyclic h2.
Proof.
  intros h h2. split; [reflexivity|].
  apply (addDependency_allows_cycle h 0 1); simpl; lia.
Defined.

(** ** Root resolution: what [getRootNode] returns, and when *)

Lemma getRootNode_loop_at_root fuel h r :
  getDependencies h r = [] → getRootNode_loop fuel h r = Some r.
Proof. intros Hr. destruct fuel; simpl; by rewrite Hr. Qed.

(** X9. On a graph without dependency cycles, [getRootNode] returns from
    every node: what it returns is a node without dependencies on which the
    start transitively depends, and it is returned again when [getRootNode]
    is called on it. *)
Theorem getRootNode_finds_root (h : heap) (this : ref) :
  closed h → acyclic h → this < length h →
  ∃ root,
    (∀ fuel, length h ≤ fuel → getRootNode fuel h this = Some root)
    ∧ root < length h
    ∧ getDependencies h root = []
    ∧ rtc (dependency_edge h) this root
    ∧ (∀ fuel, getRootNode fuel h root = Some root).
Proof.
  intros Hc Hac Hthis.
  destruct (getRootNode_loop_terminates h (length h) [] this) as [root Hr];
    try done.
  - apply NoDup_nil_2.
  - by intros s ?%elem_of_nil.
  - by intros s ?%elem_of_nil.
  - simpl. lia.
  - destruct (getRootNode_loop_root _ _ _ _ Hr) as [Hd Hrtc].
    exists root. split_and!; try done.
    + intros fuel Hfuel. by apply (getRootNode_loop_mono (length h)).
    + by eapply closed_rtc.
    + intros fuel. by apply getRootNode_loop_at_root.
Qed.

Lemma getRootNode_finds_root_witness :
  ∃ root,
    (∀ fuel, 3 ≤ fuel → getRootNode fuel two_roots_heap 2 = Some root)
    ∧ root < 3
    ∧ getDependencies two_roots_heap root = []
    ∧ rtc (dependency_edge two_roots_heap) 2 root
    ∧ (∀ fuel, getRootNode fuel two_roots_heap root = Some root).
Proof.
  apply (getRootNode_finds_root two_roots_heap 2).
  - by apply closedb_closed.
  - by apply (topologicalb_acyclic (λ r, if decide (r = 2) then 1 else 0)).
  - simpl. lia.
Defined.

(** X10. [getRootNode] has no exit but a node without dependencies: when
    every node on the chain of first dependencies from [this] has a
    dependency (the chain runs into a cycle), the loop does not end,
    whatever the number of iterations. *)
Theorem getRootNode_never_returns_on_cycle (h : heap) (this : ref) :
  (∀ n, rtc (first_dependency h) this n → getDependencies h n ≠ []) →
  ∀ fuel, getRootNode fuel h this = None.
Proof.
  intros Hchain fuel. unfold getRootNode. revert this Hchain.
  induction fuel as [|fuel IH]; intros this Hchain; simpl.
  - destruct (getDependencies h this) eqn:Hdeps; [|done].
    by destruct (Hchain this).
  - destruct (getDependencies h this) as [|first rest] eqn:Hdeps.
    + by destruct (Hchain this).
    + apply IH. intros n Hn. apply Hchain.
      eapply rtc_l; [|done]. unfold first_dependency. by rewrite Hdeps.
Qed.

Lemma getRootNode_never_returns_on_cycle_witness :
  getRootNode 1000 cycle_heap 0 = None
  ∧ ∀ fuel, getRootNode fuel cycle_heap 0 = None.
Proof.
  split; [reflexivity|].
  apply getRootNode_never_returns_on_cycle.
  assert (∀ n, rtc (first_dependency cycle_heap) 0 n → n < 3) as Hlt.
  { apply rtc_ind_r; [lia|]. intros x y _ Hxy Hx.
    unfold first_dependency in Hxy.
    destruct x as [|[|[|x]]]; [| | |lia];
      vm_compute in Hxy; injection Hxy as <-; lia. }
  intros n Hn%Hlt. by destruct n as [|[|[|n]]]; [| | |lia].
Defined.

Lemma getRootNode_loop_ext fuel (h h' : heap) a :
  (∀ r, head (getDependencies h' r) = head (getDependencies h r)) →
  getRootNode_loop fuel h' a = getRootNode_loop fuel h a.
Proof.
  intros Hhead. revert a. induction fuel as [|fuel IH]; intros a; simpl;
    specialize (Hhead a);
    destruct (getDependencies h' a), (getDependencies h a);
    simplify_eq/=; auto.
Qed.

(** X11. A new dependency is pushed at the end of the list and [getRootNode]
    follows the first entry: adding a dependency to a node that has one
    already changes the result of [getRootNode] for no node. *)
Theorem addDependency_keeps_root (h : heap) (this node : ref) :
  getDependencies h this ≠ [] →
  ∀ fuel a,
    getRootNode fuel (addDependency this node h).1 a = getRootNode fuel h a.
Proof.
  intros Hdeps fuel a. apply getRootNode_loop_ext. intros r.
  destruct (decide (node = this)) as [->|Hne].
  { unfold addDependency. by rewrite decide_True. }
  destruct (decide (node ∈ getDependencies h this)) as [Hin|Hnew].
  { by rewrite addDependency_present. }
  assert (this < length h) as Hthis.
  { destruct (getDependencies h this) as [|d l] eqn:Hd; [done|].
    apply (getDependencies_in_heap h this d). rewrite Hd. by left. }
  rewrite addDependency_dependencies_head by done.
  case_decide; [subst|done]. by destruct (getDependencies h this).
Qed.

Lemma addDependency_keeps_root_witness :
  getDependencies (addDependency 3 0 diamond_heap).1 3 = [1; 2; 0]
  ∧ ∀ fuel a,
      getRootNode fuel (addDependency 3 0 diamond_heap).1 a =
        getRootNode fuel diamond_heap a.
Proof.
  split; [reflexivity|].
  apply (addDependency_keeps_root diamond_heap 3 0). by vm_compute.
Defined.

(** ** Traversal: the order of the elements *)

Lemma adjacent_sorted (l : list nat) :
  (∀ i a b, l !! i = Some a → l !! S i = Some b → a ≤ b) →
  ∀ i j a b, i ≤ j → l !! i = Some a → l !! j = Some b → a ≤ b.
Proof.
  intros Hadj i j. revert i. induction j as [|j IH]; intros i a b Hle Ha Hb.
  - assert (i = 0) as -> by lia. by simplify_eq.
  - destruct (decide (i = S j)) as [->|Hne]; [by simplify_eq|].
    destruct (lookup_lt_is_Some_2 l j) as [c Hc].
    { apply lookup_lt_Some in Hb. lia. }
    transitivity c; [apply (IH i); [lia|done|done]|by apply (Hadj j)].
Qed.

Section levels.
Context (ids : ref → string) (getNextNodes : ref → list ref).

Lemma level_inv_start this : level_inv 1 [] [[this]].
Proof.
  split.
  - exists [[this]], []. split_and!; [done|by apply Forall_singleton|done].
  - done.
  - intros i p1 p2 Hp1. by rewrite lookup_nil in Hp1.
Qed.

Lemma level_inv_step m P p q v :
  level_inv m P (p :: q) →
  level_inv (length p) (P ++ [p])
    (enqueue ids (getNextNodes (top p)) p q v).1.
Proof.
  intros [(q1 & q2 & Hq & H1 & H2) Hlast Hadj].
  destruct (enqueue_spec ids (getNextNodes (top p)) p q v)
    as (new & -> & _).
  assert (m ≤ length p ≤ S m
          ∧ ∃ q1' q2', q = q1' ++ q2'
              ∧ Forall (λ p', length p' = length p) q1'
              ∧ Forall (λ p', length p' = S (length p)) q2')
    as (Hlen & q1' & q2' & -> & H1' & H2').
  { destruct q1 as [|p1 q1]; simpl in Hq.
    - subst q2. apply Forall_cons in H2 as [Hp H2].
      split; [lia|]. exists q, []. rewrite app_nil_r, Hp. by split_and!.
    - injection Hq as <- ->. apply Forall_cons in H1 as [Hp H1].
      split; [lia|]. exists q1, q2. rewrite Hp. by split_and!. }
  split.
  - exists q1', (q2' ++ ((λ y, y :: p) <$> new)).
    rewrite app_assoc. split_and!; [done|done|].
    apply Forall_app. split; [done|].
    apply Forall_fmap, Forall_forall. by intros y _.
  - intros p'. rewrite last_snoc. by intros [= <-].
  - intros i p1 p2 Hp1 Hp2.
    destruct (decide (S i < length P)) as [Hlt|Hge].
    + rewrite lookup_app_l in Hp1, Hp2 by lia. by apply (Hadj i).
    + assert (S i = length P) as Hi.
      { apply lookup_lt_Some in Hp2. rewrite length_app in Hp2.
        simpl in Hp2. lia. }
      rewrite lookup_app_l in Hp1 by lia.
      rewrite Hi, list_lookup_middle in Hp2 by done. injection Hp2 as <-.
      assert (last P = Some p1) as Hp1'.
      { rewrite last_lookup. rewrite <- Hi. simpl. done. }
      rewrite (Hlast p1 Hp1'). lia.
Qed.
End levels.

(** X12. The generator yields in breadth-first order, for every start, every
    expansion function and every assignment of ids: the first element is the
    start with the path [[this]], the paths of the elements never get
    shorter, and the path of an element is at most one node longer than the
    path of the element before it. *)
Theorem traverseGenerator_level_order
    (ids : ref → string) (getNextNodes : ref → list ref) (this : ref)
    (n i j : nat) (item1 item2 : traversal_item) :
  let items := yields n ids getNextNodes (traverseGenerator ids this) in
  i ≤ j → items !! i = Some item1 → items !! j = Some item2 →
  items !! 0 = Some (mkItem this [this])
  ∧ length (traversalPath item1) ≤ length (traversalPath item2)
  ∧ (j = S i →
       length (traversalPath item2) ≤ S (length (traversalPath item1))).
Proof.
  intros items Hij H1 H2.
  pose proof (yields_invariant ids getNextNodes
                (λ P q v, ∃ m, level_inv m P q)
                (λ P p q v '(ex_intro _ m H),
                   ex_intro _ (length p)
                     (level_inv_step ids getNextNodes m P p q v H))
                n [] (traverseGenerator ids this)
                (ex_intro _ 1 (level_inv_start this)))
    as [_ (q & v & m & Hinv)].
  simpl in Hinv. fold items in Hinv.
  destruct Hinv as [_ _ Hadj].
  assert (∀ k a b, (length <$> (traversalPath <$> items)) !! k = Some a →
            (length <$> (traversalPath <$> items)) !! S k = Some b →
            a ≤ b ∧ b ≤ S a) as Hadj'.
  { intros k a b. rewrite !list_lookup_fmap.
    destruct (items !! k) as [it1|] eqn:Hk; [|done].
    destruct (items !! S k) as [it2|] eqn:Hk'; [|done].
    intros [= <-] [= <-].
    apply (Hadj k); by rewrite list_lookup_fmap, ?Hk, ?Hk'. }
  split_and!.
  - subst items. by destruct n as [|n]; [simpl in H1|].
  - apply (adjacent_sorted (length <$> (traversalPath <$> items))
             (λ k a b Ha Hb, proj1 (Hadj' k a b Ha Hb)) i j); [done| |].
    + by rewrite !list_lookup_fmap, H1.
    + by rewrite !list_lookup_fmap, H2.
  - intros ->. apply (Hadj' i).
    + by rewrite !list_lookup_fmap, H1.
    + by rewrite !list_lookup_fmap, H2.
Qed.

Lemma traverseGenerator_level_order_witness :
  let items :=
    yields 4 (id diamond_heap) (getDependents diamond_heap)
      (traverseGenerator (id diamond_heap) 0) in
  items !! 2 = Some (mkItem 2 [2; 0])
  ∧ items !! 3 = Some (mkItem 3 [3; 1; 0])
  ∧ items !! 0 = Some (mkItem 0 [0])
  ∧ 2 ≤ 3.
Proof.
  intros items.
  assert (items !! 2 = Some (mkItem 2 [2; 0])) as H2 by reflexivity.
  assert (items !! 3 = Some (mkItem 3 [3; 1; 0])) as H3 by reflexivity.
  split; [exact H2|]. split; [exact H3|].
  destruct (traverseGenerator_level_order (id diamond_heap)
              (getDependents diamond_heap) 0 4 2 3
              (mkItem 2 [2; 0]) (mkItem 3 [3; 1; 0])) as (H0 & Hle & _).
  - lia.
  - exact H2.
  - exact H3.
  - split; [exact H0|exact Hle].
Defined.

(** ** [isDependentOn] *)

Section isDependentOn.
Context (h : heap) (this node : ref).
Hypothesis Hclosed : closed h.
Hypothesis Hids : NoDup (_id <$> h).
Hypothesis Hthis : this < length h.

Lemma dependencies_reachable_in_heap x :
  reachable (getDependencies h) this x → x < length h.
Proof.
  apply reachable_in_heap; [|done].
  intros a b. by apply closed_dependencies.
Qed.

Lemma isDependentOn_inv_step P p q v s :
  isDependentOn_inv h this node P (p :: q) v s →
  ∃ s', isDependentOn_callback node (top p) p s = Some (s', Normal tt)
    ∧ isDependentOn_inv h this node (P ++ [p])
        (enqueue (id h) (isDependentOn_getNextNodes h s' (top p)) p q v).1
        (enqueue (id h) (isDependentOn_getNextNodes h s' (top p)) p q v).2
        s'.
Proof.
  intros [Hinv Hs].
  destruct (ids_inv_pop _ _ _ _ _ _ Hinv) as [Hpop Htop].
  destruct s; simpl.
  - exists true. by split.
  - destruct Hs as [Hbfs Hnot].
    exists (bool_decide (top p = node)). split; [done|].
    case_bool_decide as Hp; simpl.
    + split; [done|]. subst node.
      destruct Hbfs as [[m Hq] _].
      apply (path_to_reachable (getDependencies h) this p).
      apply (inv_paths _ _ _ _ _ _ _ Hq), elem_of_app. right. by left.
    + split_and!.
      * apply ids_inv_step; [|done].
        intros x y _ Hy. apply elem_of_heap_refs.
        by eapply closed_dependencies.
      * apply bfs_inv_step; [|done].
        intros x y Hx%dependencies_reachable_in_heap
          Hy%dependencies_reachable_in_heap. by apply id_injective.
      * rewrite fmap_app, elem_of_app. simpl.
        rewrite list_elem_of_singleton. intros [?|?]; [done|congruence].
Qed.

Lemma isDependentOn_spec fuel :
  length h < fuel →
  ∃ b, isDependentOn fuel h this node = Some (Normal b)
       ∧ (b = true ↔ rtc (dependency_edge h) this node).
Proof.
  intros Hfuel. unfold isDependentOn, traverse.
  destruct (traverse_loop_rule (λ _ : bool, id h)
              (isDependentOn_callback node) (isDependentOn_getNextNodes h)
              (isDependentOn_inv h this node) (length h))
    with (fuel := fuel) (P := @nil (list ref))
         (g := traverseGenerator (id h) this) (s := false)
    as (P' & v' & b & -> & Hinv & Hb).
  - intros P q v s p [Hinv _]. apply (ids_nonempty _ _ _ _ _ Hinv).
  - intros P q v s [Hinv _]. by eapply ids_inv_heap_bound.
  - intros P p q v s. apply isDependentOn_inv_step.
  - simpl. split_and!.
    + apply ids_inv_start. by apply elem_of_heap_refs.
    + apply bfs_inv_start.
    + apply not_elem_of_nil.
  - simpl. lia.
  - simpl. exists b. split; [done|]. destruct b; [done|].
    destruct Hb as [Hbfs Hnot]. split; [done|]. intros Hreach.
    destruct Hnot.
    apply (bfs_inv_complete (id h) (getDependencies h) this P' v' node Hbfs).
    exact Hreach.
Qed.
End isDependentOn.

Lemma isDependentOn_total (h : heap) (this node : ref) :
  closed h → NoDup (_id <$> h) → this < length h →
  ∃ b,
    (∀ fuel, length h < fuel →
       isDependentOn fuel h this node = Some (Normal b))
    ∧ (b = true ↔ rtc (dependency_edge h) this node).
Proof.
  intros Hclosed Hids Hthis.
  destruct (isDependentOn_spec h this node Hclosed Hids Hthis
              (S (length h))) as (b & Hrun & Hb); [lia|].
  exists b. split; [|done].
  intros fuel Hfuel. unfold isDependentOn, traverse in *.
  destruct (traverse_loop _ _ _ (S (length h)) _ _) as [r|] eqn:Hr;
    [|done].
  rewrite (traverse_loop_mono (λ _ : bool, id h)
             (isDependentOn_callback node) (isDependentOn_callback node)
             (isDependentOn_getNextNodes h) (S (length h)) fuel
             (traverseGenerator (id h) this) false r);
    [done|done|lia|done].
Qed.

(** X13. In a graph whose nodes have pairwise different ids,
    [this.isDependentOn(node)] returns, and returns [true] exactly when
    [node] is [this] or is reached from [this] along dependency edges
    (whether or not the graph has cycles). *)
Theorem isDependentOn_reachability (h : heap) (this node : ref) :
  closed h → NoDup (_id <$> h) → this < length h →
  ∃ b,
    (∀ fuel, length h < fuel →
       isDependentOn fuel h this node = Some (Normal b))
    ∧ (b = true ↔ rtc (dependency_edge h) this node).
Proof. apply isDependentOn_total. Qed.

Lemma isDependentOn_reachability_witness :
  isDependentOn 4 cycle_heap 1 0 = Some (Normal true)
  ∧ rtc (dependency_edge cycle_heap) 1 0.
Proof.
  destruct (isDependentOn_reachability cycle_heap 1 0)
    as (b & Hrun & Hb).
  - by apply closedb_closed.
  - apply (bool_decide_unpack _). by vm_compute.
  - simpl. lia.
  - specialize (Hrun 4 ltac:(simpl; lia)).
    assert (b = true) as -> by (vm_compute in Hrun; congruence).
    split; [exact Hrun|by apply Hb].
Defined.

(** ** A callback that throws *)

Lemma traverse_loop_until_throw
    (ids : ref → string) (getNextNodes : ref → list ref)
    (bad : ref → bool) (msg : string) item post pre :
  ∀ fuel g log,
    drain fuel ids getNextNodes g = Some (pre ++ item :: post) →
    (∀ it, it ∈ pre → bad (node it) = false) → bad (node item) = true →
    traverse_loop (λ _ : list ref, ids)
      (λ n p log, Some (log ++ [n], if bad n then Throw msg else Normal tt))
      (λ _, getNextNodes) (S fuel) g log =
    Some (log ++ (node <$> pre) ++ [node item], Throw msg).
Proof.
  induction pre as [|it0 pre IH]; intros fuel g log Hdrain Hpre Hitem.
  - simpl in *. destruct fuel as [|fuel]; simpl in Hdrain;
      destruct (next ids getNextNodes g) as [[it g']|]; try done.
    destruct (drain fuel ids getNextNodes g'); [|done].
    injection Hdrain as -> _. by rewrite Hitem.
  - destruct fuel as [|fuel]; simpl in Hdrain;
      destruct (next ids getNextNodes g) as [[it g']|] eqn:Hnext; try done.
    destruct (drain fuel ids getNextNodes g') as [items|] eqn:Hd; [|done].
    injection Hdrain as -> ->.
    change (traverse_loop _ _ _ (S (S fuel)) g log) with
      (match next ids getNextNodes g with
       | None => Some (log, Normal tt)
       | Some (item0, g0) =>
           match (if bad (node item0) then Throw msg else Normal tt) with
           | Throw m => Some (log ++ [node item0], Throw m)
           | Normal _ =>
               traverse_loop (λ _ : list ref, ids)
                 (λ n p log,
                    Some (log ++ [n],
                          if bad n then Throw msg else Normal tt))
                 (λ _, getNextNodes) (S fuel) g0 (log ++ [node item0])
           end
       end).
    rewrite Hnext, (Hpre it0) by by left.
    rewrite (IH fuel g' (log ++ [node it0]) Hd);
      [|auto using list_elem_of_further|done].
    by rewrite fmap_cons, <- !app_assoc.
Qed.

(** X14. An error thrown by the callback ends the traversal and is thrown by
    [traverse]: the callback has then run on the elements of the generator
    up to the first one on which it throws, in their order, and on none of
    the later ones. *)
Theorem traverse_stops_at_throw
    (ids : ref → string) (getNextNodes : ref → list ref) (this : ref)
    (bad : ref → bool) (msg : string) (fuel : nat)
    (pre post : list traversal_item) (item : traversal_item) :
  drain fuel ids getNextNodes (traverseGenerator ids this)
    = Some (pre ++ item :: post) →
  (∀ it, it ∈ pre → bad (node it) = false) → bad (node item) = true →
  traverse (λ _ : list ref, ids)
    (λ n p log, Some (log ++ [n], if bad n then Throw msg else Normal tt))
    (λ _, getNextNodes) (S fuel) this [] =
  Some ((node <$> pre) ++ [node item], Throw msg).
Proof.
  intros Hdrain Hpre Hitem. unfold traverse.
  by rewrite (traverse_loop_until_throw ids getNextNodes bad msg item post pre
                fuel _ [] Hdrain Hpre Hitem).
Qed.

Lemma traverse_stops_at_throw_witness :
  traverse (λ _ : list ref, id diamond_heap)
    (λ n p log,
       Some (log ++ [n],
             if bool_decide (n = 2) then Throw "stop" else Normal tt))
    (λ _, getDependents diamond_heap) 5 0 [] =
  Some ([0; 1; 2], Throw "stop").
Proof.
  apply (traverse_stops_at_throw (id diamond_heap) (getDependents diamond_heap)
           0 (λ n, bool_decide (n = 2)) "stop" 4
           [mkItem 0 [0]; mkItem 1 [1; 0]] [mkItem 3 [3; 1; 0]]
           (mkItem 2 [2; 0])).
  - reflexivity.
  - intros it [->|[->|[]%elem_of_nil]%elem_of_cons]%elem_of_cons; reflexivity.
  - reflexivity.
Defined.

(** ** Cycle detection: what the answer of [hasCycle] means *)

Lemma explore_covers nodes depth tv da c :
  c ∈ nodes ∨ c ∈ tv → c ∈ (explore nodes depth tv da).1.
Proof.
  revert tv da. induction nodes as [|n nodes IH]; intros tv da; simpl.
  - intros [[]%elem_of_nil|?]. done.
  - unfold includes. intros Hc. case_bool_decide as Hn; apply IH.
    + destruct Hc as [[->|?]%elem_of_cons|?]; auto.
    + destruct Hc as [[->|?]%elem_of_cons|?]; [right; by left|by left|].
      right. by right.
Qed.

Section revisit.
Context (d : direction) (h : heap) (start : ref).

Local Abbreviation E := (explored_edge d h).

Lemma hasCycle_iteration_init :
  hasCycle_iteration d h (hasCycle_init start) =
    let '(toVisit', depthAdded') :=
      explore (nodesToExplore d h start) 1 [] {[start := 0]} in
    inl (mkCycleSearch ({[start]} ∪ ∅) [start] toVisit' depthAdded').
Proof.
  unfold hasCycle_iteration, includes. simpl.
  rewrite decide_False by apply not_elem_of_empty.
  by rewrite lookup_singleton_eq.
Qed.

Lemma revisit_inv_first st' :
  hasCycle_iteration d h (hasCycle_init start) = inl st' →
  revisit_inv d h start st'.
Proof.
  rewrite hasCycle_iteration_init.
  pose proof (explore_spec (nodesToExplore d h start) 1 []
                {[start := 0]}) as (new & Hnew & _ & Hin & _).
  pose proof (explore_covers (nodesToExplore d h start) 1 []
                {[start := 0]}) as Hcov.
  destruct (explore _ _ _ _) as [tv da]. simpl in *. intros [= <-].
  rewrite app_nil_r in Hnew. subst tv.
  split; simpl.
  - done.
  - apply elem_of_union. left. by apply elem_of_singleton.
  - intros x Hx. destruct (Hin x Hx) as (_ & _ & Hd). exists 1.
    split; [done|lia].
  - intros x y Hx Hxy. right. apply Hcov. left.
    apply elem_of_union in Hx as [->%elem_of_singleton|[]%elem_of_empty].
    done.
  - intros x Hx Hxs. apply Hcov. left.
    apply elem_of_union in Hx as [->%elem_of_singleton|[]%elem_of_empty].
    done.
Qed.

Lemma revisit_inv_step st st' :
  revisit_inv d h start st → hasCycle_iteration d h st = inl st' →
  revisit_inv d h start st'.
Proof.
  intros [Hhead Hseen Hdepth Hclosed Hstart].
  unfold hasCycle_iteration, includes.
  destruct (toVisit st) as [|N rest] eqn:Htv; [done|].
  case_bool_decide as Hpath; [done|].
  assert (N ≠ start) as HN.
  { intros ->. apply Hpath. destruct (currentPath st); simplify_eq/=.
    by left. }
  case_decide as HNseen.
  - intros [= <-]. split; simpl; try done.
    + intros x Hx. apply Hdepth. by right.
    + intros x y Hx Hxy.
      destruct (Hclosed x y Hx Hxy) as [?|Hy]; [auto|].
      apply elem_of_cons in Hy as [->|?]; auto.
    + intros x Hx Hxs. pose proof (Hstart x Hx Hxs) as Hs.
      apply elem_of_cons in Hs as [?|?]; [congruence|done].
  - destruct (Hdepth N) as (dN & HdN & HdNpos); [by left|].
    rewrite HdN. simpl.
    pose proof (explore_spec (nodesToExplore d h N)
                  (length (take dN (currentPath st) ++ [N])) rest
                  (depthAdded st)) as (new & Hnew & _ & Hin & Hold).
    pose proof (explore_covers (nodesToExplore d h N)
                  (length (take dN (currentPath st) ++ [N])) rest
                  (depthAdded st)) as Hcov.
    destruct (explore _ _ _ _) as [tv da]. simpl in *. intros [= <-].
    split; simpl.
    + destruct (currentPath st) as [|s p]; [done|].
      destruct dN as [|dN]; [lia|]. by simplify_eq/=.
    + apply elem_of_union. by right.
    + intros x Hx. rewrite Hnew in Hx.
      apply elem_of_app in Hx as [Hx|Hx].
      * destruct (Hin x Hx) as (_ & _ & Hd). eexists. split; [done|].
        rewrite length_app. simpl. lia.
      * rewrite Hold by done. apply Hdepth. by right.
    + intros x y [->%elem_of_singleton|Hx]%elem_of_union Hxy.
      * right. apply Hcov. by left.
      * destruct (Hclosed x y Hx Hxy) as [?|Hy].
        { left. apply elem_of_union. by right. }
        apply elem_of_cons in Hy as [->|?].
        -- left. apply elem_of_union. left. by apply elem_of_singleton.
        -- right. apply Hcov. by right.
    + intros x [->%elem_of_singleton|Hx]%elem_of_union Hxs.
      * apply Hcov. by left.
      * pose proof (Hstart x Hx Hxs) as Hs.
        apply elem_of_cons in Hs as [?|?]; [congruence|].
        apply Hcov. by right.
Qed.

(** A search that returns [false] has visited every node reachable from
    [start] and found no edge back to [start]. *)
Lemma revisit_inv_false fuel st :
  revisit_inv d h start st → hasCycle_loop fuel d h st = Some false →
  ¬ tc E start start.
Proof.
  revert st. induction fuel as [|fuel IH]; intros st Hinv; simpl;
    destruct (hasCycle_iteration d h st) as [st'|b] eqn:Hit; try done.
  all: try (by apply IH; eapply revisit_inv_step).
  all: intros [= ->]; intros Hcycle.
  all: assert (toVisit st = []) as Htv
    by (unfold hasCycle_iteration in Hit;
        destruct (toVisit st); [done|];
        destruct (includes _ _); [done|];
        case_decide; [done|]; by destruct (explore _ _ _ _)).
  all: destruct Hinv as [_ Hseen _ Hclosed Hstart]; rewrite Htv in *.
  all: assert (∀ x, rtc E start x → x ∈ seen st) as Hall
    by (apply rtc_ind_r; [done|]; intros x y _ Hxy Hx;
        destruct (Hclosed x y Hx Hxy) as [?|Hy]; [done|];
        by apply elem_of_nil in Hy).
  all: apply tc_nsteps in Hcycle as (n & Hn & Hsteps).
  all: destruct n as [|n]; [lia|].
  all: apply nsteps_inv_r in Hsteps as (y & Hy%rtc_nsteps_2 & Hys).
  all: pose proof (Hstart y (Hall y Hy) Hys) as Hs.
  all: by apply elem_of_nil in Hs.
Qed.

Lemma hasCycle_loop_finds_start fuel :
  tc E start start → search_bound d h ≤ fuel →
  hasCycle_loop fuel d h (hasCycle_init start) = Some true.
Proof.
  intros Hcycle Hfuel.
  destruct (hasCycle_loop_terminates fuel d h (hasCycle_init start))
    as [b Hb].
  { by rewrite search_measure_init. }
  destruct b; [done|]. exfalso.
  destruct fuel as [|fuel]; simpl in Hb;
    destruct (hasCycle_iteration d h (hasCycle_init start))
      as [st'|b] eqn:Hit; try done.
  - rewrite hasCycle_iteration_init in Hit. by destruct (explore _ _ _ _).
  - by eapply (revisit_inv_false fuel st'); [apply revisit_inv_first|..].
  - rewrite hasCycle_iteration_init in Hit. by destruct (explore _ _ _ _).
Qed.

(** A search that returns [true] has found a node reachable from [start]
    that reaches itself. *)
Lemma hasCycle_loop_true_cycle fuel :
  hasCycle_loop fuel d h (hasCycle_init start) = Some true →
  cycle_from E start.
Proof.
  intros (k & st & _ & Hst & N & rest & Htv & HN)%hasCycle_loop_true.
  pose proof (cycle_inv_iterations d h start k _ st
                (cycle_inv_init d h start) Hst) as Hinv.
  destruct (cycle_inv_back_edge d h start st N rest Hinv Htv HN)
    as (Hreach & y & _ & HNy & HyN).
  exists N. split; [done|].
  eapply tc_rtc_l; [done|]. by apply tc_once.
Qed.
End revisit.

Lemma symmetric_tc h a b :
  symmetric h → tc (dependent_edge h) a b → tc (dependency_edge h) b a.
Proof.
  intros Hsym Htc. induction Htc as [a b Hab|a b c Hab _ IH].
  - apply tc_once. by apply Hsym.
  - eapply tc_r; [done|]. by apply Hsym.
Qed.

(** X15. [hasCycle] has no false positive: when it returns [true], a node
    reachable from [node] in the direction searched reaches itself along one
    or more edges of that direction (for ['both'], in one of the two
    directions). On a graph with symmetric edge lists and no dependency
    cycle it therefore returns [false], for every node and direction. *)
Theorem hasCycle_true_is_cycle (h : heap) (node : ref) :
  (∀ fuel d, hasCycle fuel h node d = Some true →
     match d with
     | Dependents => cycle_from (dependent_edge h) node
     | Dependencies => cycle_from (dependency_edge h) node
     | Both => cycle_from (dependent_edge h) node
               ∨ cycle_from (dependency_edge h) node
     end)
  ∧ (symmetric h → acyclic h →
     ∀ fuel d,
       search_bound Dependents h `max` search_bound Dependencies h ≤ fuel →
       hasCycle fuel h node d = Some false).
Proof.
  assert (∀ fuel d, hasCycle fuel h node d = Some true →
     match d with
     | Dependents => cycle_from (dependent_edge h) node
     | Dependencies => cycle_from (dependency_edge h) node
     | Both => cycle_from (dependent_edge h) node
               ∨ cycle_from (dependency_edge h) node
     end) as Hsound.
  { intros fuel d. destruct d; simpl.
    - apply (hasCycle_loop_true_cycle Dependents).
    - apply (hasCycle_loop_true_cycle Dependencies).
    - destruct (hasCycle_loop fuel Dependents h (hasCycle_init node))
        as [[|]|] eqn:Hdts; [| |done].
      + intros _. left.
        by apply (hasCycle_loop_true_cycle Dependents h node fuel).
      + intros Hdcs. right.
        by apply (hasCycle_loop_true_cycle Dependencies h node fuel). }
  split; [done|].
  intros Hsym Hac fuel d Hfuel.
  destruct (hasCycle_terminates fuel h node d Hfuel) as [b Hb].
  destruct b; [|done]. exfalso.
  specialize (Hsound fuel d Hb).
  assert (cycle_from (dependent_edge h) node → False) as Hdts.
  { intros (x & _ & Hx). by apply (Hac x), symmetric_tc. }
  assert (cycle_from (dependency_edge h) node → False) as Hdcs.
  { intros (x & _ & Hx). by apply (Hac x). }
  destruct d; tauto.
Qed.

Lemma hasCycle_true_is_cycle_witness :
  hasCycle 9 diamond_heap 3 Both = Some false
  ∧ hasCycle 3 cycle_heap 0 Dependencies = Some true
  ∧ cycle_from (dependency_edge cycle_heap) 0.
Proof.
  split_and!.
  - apply (proj2 (hasCycle_true_is_cycle diamond_heap 3)).
    + apply diamond_heap_symmetric.
    + apply diamond_heap_acyclic.
    + vm_compute. lia.
  - reflexivity.
  - apply (proj1 (hasCycle_true_is_cycle cycle_heap 0) 3 Dependencies).
    reflexivity.
Defined.

(** X16. [hasCycle] finds every cycle through the node it is called on: when
    [node] reaches itself along one or more edges of the direction searched,
    the call returns [true] (for ['both'], when it does so in one of the two
    directions). *)
Theorem hasCycle_finds_cycle_through_node
    (h : heap) (node : ref) (fuel : nat) :
  search_bound Dependents h `max` search_bound Dependencies h ≤ fuel →
  (tc (dependent_edge h) node node →
     hasCycle fuel h node Dependents = Some true)
  ∧ (tc (dependency_edge h) node node →
       hasCycle fuel h node Dependencies = Some true)
  ∧ (tc (dependent_edge h) node node ∨ tc (dependency_edge h) node node →
       hasCycle fuel h node Both = Some true).
Proof.
  intros Hfuel.
  assert (tc (dependent_edge h) node node →
          hasCycle_loop fuel Dependents h (hasCycle_init node) = Some true)
    as Hdts.
  { intros Hc. apply hasCycle_loop_finds_start; [done|lia]. }
  assert (tc (dependency_edge h) node node →
          hasCycle_loop fuel Dependencies h (hasCycle_init node) = Some true)
    as Hdcs.
  { intros Hc. apply hasCycle_loop_finds_start; [done|lia]. }
  split_and!; [done|done|].
  intros Hc. simpl.
  destruct (hasCycle_loop_terminates fuel Dependents h (hasCycle_init node))
    as [b Hb].
  { rewrite search_measure_init. lia. }
  rewrite Hb. destruct b; [done|].
  destruct Hc as [Hc|Hc]; [|by apply Hdcs].
  rewrite (Hdts Hc) in Hb. done.
Qed.

Lemma hasCycle_finds_cycle_through_node_witness :
  hasCycle 9 late_cycle_heap 1 Dependencies = Some true
  ∧ hasCycle 9 late_cycle_heap 1 Both = Some true.
Proof.
  assert (tc (dependency_edge late_cycle_heap) 1 1) as Hcycle.
  { apply tc_l with 2; [|apply tc_once];
      unfold dependency_edge; vm_compute; apply list_elem_of_here. }
  destruct (hasCycle_finds_cycle_through_node late_cycle_heap 1 9)
    as (_ & Hdcs & Hboth).
  - vm_compute. lia.
  - split; [by apply Hdcs|]. apply Hboth. by right.
Defined.

(** ** Cloning: what the call leaves behind *)

(** *** Properties kept by every traversal *)

Section traverse_preserves.
Context {St : Type}.
Context (ids : St → ref → string).
Context (callback : ref → list ref → St → option (St * completion unit)).
Context (getNextNodes : St → ref → list ref).
Context (Q : St → Prop) (U : ref → Prop).
Hypothesis Q_callback : ∀ n p s r,
  U n → Q s → callback n p s = Some r → Q r.1.
Hypothesis U_next : ∀ s x y, Q s → U x → y ∈ getNextNodes s x → U y.

(** When the callback keeps [Q] on the nodes of [U] and the expansion
    function stays in [U], the state a traversal ends in, normally or
    not, satisfies [Q]. *)
Lemma traverse_loop_preserves fuel g s r :
  Q s → (∀ p, p ∈ queue g → U (top p)) →
  (∀ n p, suspended g = Some (n, p) → U n) →
  traverse_loop ids callback getNextNodes fuel g s = Some r → Q r.1.
Proof.
  revert g s. induction fuel as [|fuel IH]; intros g s HQ Hqueue Hsusp;
    simpl; [done|].
  destruct (next (ids s) (getNextNodes s) g) as [[item g']|] eqn:Hnext;
    [|by intros [= <-]].
  apply next_Some_generator in Hnext as (p & q & v & Hres & Hp & -> & ->).
  simpl.
  assert (∀ p', p' ∈ p :: q → U (top p')) as HU.
  { unfold resume in Hres. destruct (suspended g) as [[n0 p0]|] eqn:Hs.
    - destruct (enqueue_spec (ids s) (getNextNodes s n0) p0 (queue g)
                  (visited g)) as (new & Hq & Hnew & _).
      rewrite Hres in Hq. simpl in Hq. rewrite Hq.
      intros p' [Hp'|Hp']%elem_of_app; [by apply Hqueue|].
      apply list_elem_of_fmap in Hp' as (y & -> & Hy). simpl.
      eapply U_next; [done| |by apply Hnew]. by eapply Hsusp.
    - injection Hres as <- <-. done. }
  assert (U (top p)) as Hp' by (apply HU; by left).
  destruct (callback (top p) p s) as [[s' [u|msg]]|] eqn:Hcb; [| |done].
  - apply IH.
    + apply (Q_callback _ _ _ _ Hp' HQ Hcb).
    + intros p0 Hp0. simpl in Hp0. apply HU. by right.
    + simpl. by intros n p0 [= <- <-].
  - intros [= <-]. apply (Q_callback _ _ _ _ Hp' HQ Hcb).
Qed.

Lemma traverse_preserves fuel this s r :
  Q s → U this →
  traverse ids callback getNextNodes fuel this s = Some r → Q r.1.
Proof.
  intros HQ Hthis. apply traverse_loop_preserves; simpl; [done| |done].
  by intros p ->%list_elem_of_singleton.
Qed.
End traverse_preserves.

(** *** Traversals whose callback may throw *)

Section traverse_rule_throw.
Context {St : Type}.
Context (ids : St → ref → string).
Context (callback : ref → list ref → St → option (St * completion unit)).
Context (getNextNodes : St → ref → list ref).
Context (R : list (list ref) → list (list ref) → gset string → St → Prop).
Context (T : St → string → Prop).
Context (N : nat).
Hypothesis R_nonempty : ∀ P q v s p, R P q v s → p ∈ q → p ≠ [].
Hypothesis R_bound : ∀ P q v s, R P q v s → length P + length q ≤ N.
Hypothesis R_step : ∀ P p q v s,
  R P (p :: q) v s →
  ∃ s' c, callback (top p) p s = Some (s', c)
    ∧ match c with
      | Normal _ =>
          R (P ++ [p])
            (enqueue (ids s') (getNextNodes s' (top p)) p q v).1
            (enqueue (ids s') (getNextNodes s' (top p)) p q v).2 s'
      | Throw msg => T s' msg
      end.

(** With fuel for one more element than the bound, the traversal ends:
    normally, in a state that satisfies the invariant with an empty
    queue, or with the error of a callback. *)
Lemma traverse_loop_rule_throw fuel P g s :
  R P (resume (ids s) (getNextNodes s) g).1
      (resume (ids s) (getNextNodes s) g).2 s →
  N < fuel + length P →
  ∃ s' c,
    traverse_loop ids callback getNextNodes fuel g s = Some (s', c)
    ∧ match c with
      | Normal _ => ∃ P' v', R P' [] v' s'
      | Throw msg => T s' msg
      end.
Proof.
  revert P g s. induction fuel as [|fuel IH]; intros P g s HR Hfuel.
  - pose proof (R_bound _ _ _ _ HR). lia.
  - simpl.
    destruct (next (ids s) (getNextNodes s) g) as [[item g']|] eqn:Hnext.
    + apply next_Some_generator in Hnext
        as (p & q & v & Hres & Hp & -> & ->).
      rewrite Hres in HR. simpl in HR.
      destruct (R_step _ _ _ _ _ HR) as (s' & c & Hcb & HR'). simpl.
      rewrite Hcb. destruct c as [u|msg].
      * apply (IH (P ++ [p])); [done|]. rewrite length_app. simpl. lia.
      * by exists s', (Throw msg).
    + destruct (resume (ids s) (getNextNodes s) g) as [q v] eqn:Hres.
      simpl in HR.
      rewrite (next_None _ _ g q v Hnext Hres
        (λ p, R_nonempty _ _ _ _ p HR)) in HR.
      exists s, (Normal tt). split; [done|]. by exists P, v.
Qed.
End traverse_rule_throw.

(** *** The original nodes stay as they are *)

Lemma snoc_unlinked (h : heap) i b r :
  getDependencies (h ++ [mkBaseNode i b [] []]) r = getDependencies h r
  ∧ getDependents (h ++ [mkBaseNode i b [] []]) r = getDependents h r.
Proof.
  unfold getDependencies, getDependents.
  destruct (decide (r < length h)) as [Hlt|Hge].
  - by rewrite lookup_app_l.
  - rewrite (proj2 (lookup_ge_None h r)) by lia.
    destruct (decide (r = length h)) as [->|Hne].
    + by rewrite list_lookup_middle.
    + rewrite (proj2 (lookup_ge_None _ r)); [done|].
      rewrite length_app. simpl. lia.
Qed.

Lemma edges_ok_snoc (h : heap) i b :
  edges_ok h → edges_ok (h ++ [mkBaseNode i b [] []]).
Proof.
  intros [Hsym Hnd]. split.
  - intros x y. destruct (snoc_unlinked h i b y) as [-> _].
    destruct (snoc_unlinked h i b x) as [_ ->]. apply Hsym.
  - intros n. destruct (snoc_unlinked h i b n) as [-> ->]. apply Hnd.
Qed.

Lemma clone_into_map_keeps_wf h0 s node :
  clone_wf h0 s → clone_wf h0 (clone_into_map node s).
Proof.
  intros [Hprefix Hfresh]. unfold clone_into_map. simpl. split; simpl.
  - by apply prefix_app_r.
  - intros k c. rewrite length_app. simpl.
    pose proof (prefix_length _ _ Hprefix) as Hlen.
    intros [[<- <-]|[Hne Hk]]%lookup_insert_Some.
    + split_and!; [done|lia|]. unfold id at 1.
      by rewrite list_lookup_middle.
    + destruct (Hfresh k c Hk) as (? & ? & Hid).
      split_and!; [done|lia|]. unfold id in *.
      by rewrite lookup_app_l.
Qed.

Lemma addDependency_keeps_prefix (h0 h : heap) this node :
  h0 `prefix_of` h → length h0 ≤ this → length h0 ≤ node →
  h0 `prefix_of` (addDependency this node h).1.
Proof.
  intros Hprefix Hthis Hnode. unfold addDependency.
  repeat case_match; simpl; try done.
  apply alter_keeps_prefix; [apply alter_keeps_prefix|]; done.
Qed.

Section keeps_heap.
Context (h0 : heap).

(** Kept by every step of both passes, whatever the heap the call starts
    in: the original nodes are a prefix of the heap and the map names new
    nodes; symmetric duplicate-free lists stay so. *)
Local Abbreviation safe :=
  (λ s : clone_state,
     clone_wf h0 s ∧ (edges_ok h0 → edges_ok (clone_heap s))).
Local Abbreviation ids_of := (λ s : clone_state, id (clone_heap s)).

Lemma clone_into_map_safe node s : safe s → safe (clone_into_map node s).
Proof.
  intros [Hwf Hok]. split; [by apply clone_into_map_keeps_wf|].
  intros Hok0. unfold clone_into_map. simpl. by apply edges_ok_snoc, Hok.
Qed.

Lemma copy_dependencies_safe l c0 s :
  safe s → length h0 ≤ c0 → c0 < length (clone_heap s) →
  safe (copy_dependencies l c0 s).1.
Proof.
  revert s. induction l as [|d l IH]; intros s [Hwf Hok] Hc0 Hlt; simpl;
    [done|].
  destruct (idsToIncludedClones s !! id (clone_heap s) d) as [c|] eqn:Hc;
    [|done].
  destruct (cw_fresh _ _ Hwf _ _ Hc) as (Hfresh & Hclt & Hid).
  assert (safe (mkCloneState (addDependency c0 c (clone_heap s)).1
                  (idsToIncludedClones s))) as Hsafe.
  { split; [split|]; simpl.
    - apply addDependency_keeps_prefix; [apply Hwf|done|done].
    - intros k c' Hc'. destruct (cw_fresh _ _ Hwf _ _ Hc') as (? & ? & ?).
      destruct (addDependency_frame c0 c (clone_heap s) c') as (-> & -> & _).
      done.
    - intros Hok0. by apply addDependency_edges_ok, Hok. }
  destruct (addDependency c0 c (clone_heap s)) as [h' [u|msg]] eqn:Hadd;
    simpl in *; [|done].
  apply IH; [done|done|]. simpl.
  replace h' with (addDependency c0 c (clone_heap s)).1 by by rewrite Hadd.
  by rewrite (proj1 (addDependency_frame c0 c (clone_heap s) 0)).
Qed.

Lemma copy_edges_safe n p s r :
  safe s → copy_edges n p s = Some r → safe r.1.
Proof.
  intros Hsafe. unfold copy_edges.
  destruct (idsToIncludedClones s !! id (clone_heap s) n) as [c|] eqn:Hc.
  - intros [= <-].
    destruct (cw_fresh _ _ (proj1 Hsafe) _ _ Hc) as (Hfresh & Hclt & _).
    by apply copy_dependencies_safe.
  - by intros [= <-].
Qed.

Lemma clone_included_safe predicate fuel n p s r :
  safe s → clone_included predicate fuel n p s = Some r → safe r.1.
Proof.
  intros Hsafe. unfold clone_included.
  destruct (has _ _); [by intros [= <-]|].
  destruct predicate as [predicate|].
  - destruct (predicate n); [|by intros [= <-]].
    apply (traverse_preserves ids_of clone_ancestor uncloned_dependencies
             safe (λ _, True)); try done.
    intros n' p' s' r' _ Hs' [= <-]. by apply clone_into_map_safe.
  - intros [= <-]. by apply clone_into_map_safe.
Qed.
End keeps_heap.

(** X17. Whatever its outcome and whatever the state of the edge lists,
    [cloneWithRelationships] does not touch the nodes of the graph it is
    called on: the heap it leaves, also when it throws, is the heap it was
    called in followed by new nodes, and the node it returns is one of the
    new nodes.  When the edge lists were symmetric and free of duplicates,
    so are the edge lists it leaves, those of the clones included. *)
Theorem cloneWithRelationships_keeps_heap
    (fuel : nat) (this : ref) (predicate : option (ref → bool))
    (h h' : heap) (r : completion ref) :
  cloneWithRelationships fuel this predicate h = Some (h', r) →
  h `prefix_of` h'
  ∧ (∀ c, r = Normal c → length h ≤ c ∧ c < length h')
  ∧ (symmetric h → duplicate_free h → symmetric h' ∧ duplicate_free h').
Proof.
  unfold cloneWithRelationships.
  destruct (getRootNode fuel h this) as [root|]; [|done]. simpl.
  set (ids := λ s : clone_state, id (clone_heap s)).
  set (dependents := λ s : clone_state, default_getNextNodes (clone_heap s)).
  set (safe := λ s : clone_state,
         clone_wf h s ∧ (edges_ok h → edges_ok (clone_heap s))).
  assert (safe (mkCloneState h ∅)) as Hinit.
  { split; [split|]; simpl; [done| |done].
    intros k c Hc. by rewrite lookup_empty in Hc. }
  assert (∀ s, safe s →
            h `prefix_of` clone_heap s
            ∧ (symmetric h → duplicate_free h →
               symmetric (clone_heap s) ∧ duplicate_free (clone_heap s)))
    as Hdone.
  { intros s [[Hprefix _] Hok]. split; [done|].
    intros Hsym Hnd. by apply Hok. }
  destruct (traverse ids (clone_included predicate fuel) dependents fuel
              root (mkCloneState h ∅)) as [[s1 c1]|] eqn:Hrun1; [|done].
  simpl.
  assert (safe s1) as Hs1.
  { apply (traverse_preserves ids (clone_included predicate fuel) dependents
             safe (λ _, True)) in Hrun1; try done.
    intros n p s r0 _ Hs. by apply clone_included_safe. }
  destruct c1 as [u1|msg1].
  2: { intros [= <- <-]. destruct (Hdone s1 Hs1) as [Hp Hok].
       split_and!; done. }
  destruct (traverse ids copy_edges dependents fuel root s1)
    as [[s2 c2]|] eqn:Hrun2; [|done].
  simpl.
  assert (safe s2) as Hs2.
  { apply (traverse_preserves ids copy_edges dependents
             safe (λ _, True)) in Hrun2; try done.
    intros n p s r0 _ Hs. by apply copy_edges_safe. }
  destruct (Hdone s2 Hs2) as [Hp Hok].
  destruct c2 as [u2|msg2].
  2: { intros [= <- <-]. split_and!; done. }
  destruct (idsToIncludedClones s2 !! id (clone_heap s2) this)
    as [c|] eqn:Hc; intros [= <- <-]; split_and!; try done.
  intros c' [= <-].
  destruct (cw_fresh _ _ (proj1 Hs2) _ _ Hc) as (? & ? & _). done.
Qed.

(** Also on a state whose lists name a node twice (node 0 lists node 1
    twice): the two original nodes stay as they are; the root, node 1, is
    cloned first and the clone of node 0 is the new node 3. *)
Lemma cloneWithRelationships_keeps_heap_witness :
  (∃ h',
     cloneWithRelationships 5 2 None two_roots_heap =
       Some (h', Throw "Dependency somehow not cloned")
     ∧ two_roots_heap `prefix_of` h' ∧ symmetric h' ∧ duplicate_free h')
  ∧ (∃ h',
       cloneWithRelationships 5 0 None doubled_edge_heap =
         Some (h', Normal 3)
       ∧ doubled_edge_heap `prefix_of` h').
Proof.
  split.
  - destruct (cloneWithRelationships 5 2 None two_roots_heap)
      as [[h' r]|] eqn:Hrun; [|by vm_compute in Hrun].
    exists h'.
    destruct (cloneWithRelationships_keeps_heap 5 2 None two_roots_heap h' r)
      as (Hprefix & _ & Hok); [exact Hrun|].
    destruct Hok as [Hsym Hnd].
    + by apply symmetricb_symmetric.
    + intros n. destruct n as [|[|[|n]]];
        split; apply (bool_decide_unpack _); by vm_compute.
    + split_and!; [|done|done|done].
      vm_compute in Hrun. by injection Hrun as <- <-.
  - destruct (cloneWithRelationships 5 0 None doubled_edge_heap)
      as [[h' r]|] eqn:Hrun; [|by vm_compute in Hrun].
    exists h'.
    destruct (cloneWithRelationships_keeps_heap 5 0 None
                doubled_edge_heap h' r Hrun) as (Hprefix & _ & _).
    split; [|done]. vm_compute in Hrun. by injection Hrun as <- <-.
Defined.

(** *** The clones before their edges are copied *)

Lemma prefix_heap_isMainDocument (h0 hs : heap) r :
  h0 `prefix_of` hs → r < length h0 →
  isMainDocument hs r = isMainDocument h0 r.
Proof.
  intros Hprefix Hr. unfold isMainDocument.
  by rewrite (prefix_heap_lookup h0 hs Hprefix r Hr).
Qed.

Lemma clone_into_map_heap n s :
  clone_heap (clone_into_map n s) =
    clone_heap s ++ [mkBaseNode (id (clone_heap s) n)
                       (isMainDocument (clone_heap s) n) [] []].
Proof. done. Qed.

Lemma clone_into_map_map n s :
  idsToIncludedClones (clone_into_map n s) =
    <[id (clone_heap s) n := length (clone_heap s)]> (idsToIncludedClones s).
Proof. done. Qed.

Section cloned.
Context (h0 : heap).
Hypothesis Hclosed : closed h0.

Local Abbreviation ids_of := (λ s : clone_state, id (clone_heap s)).
Local Abbreviation in_heap := (λ n : ref, n < length h0).

Lemma cloned_inv_init : cloned_inv h0 (mkCloneState h0 ∅).
Proof.
  split; simpl.
  - split; simpl; [done|]. intros k c Hc. by rewrite lookup_empty in Hc.
  - intros c Hc. unfold getDependencies, getDependents.
    by rewrite (proj2 (lookup_ge_None h0 c)) by lia.
  - intros k c Hc. by rewrite lookup_empty in Hc.
Qed.

Lemma clone_into_map_cloned n s :
  n < length h0 → cloned_inv h0 s → cloned_inv h0 (clone_into_map n s).
Proof.
  intros Hn [Hwf Hun Horig].
  pose proof (cw_prefix _ _ Hwf) as Hprefix.
  split.
  - by apply clone_into_map_keeps_wf.
  - intros c Hc. rewrite clone_into_map_heap.
    destruct (snoc_unlinked (clone_heap s) (id (clone_heap s) n)
                (isMainDocument (clone_heap s) n) c) as [-> ->].
    by apply Hun.
  - rewrite clone_into_map_heap, clone_into_map_map.
    intros k c [[<- <-]|[Hne Hk]]%lookup_insert_Some.
    + exists n. split_and!; [done|symmetry; by apply prefix_heap_id|].
      unfold isMainDocument at 1. rewrite list_lookup_middle by done.
      simpl. by apply prefix_heap_isMainDocument.
    + destruct (Horig k c Hk) as (m & Hm & Hid & Hmain).
      exists m. split_and!; [done|done|]. rewrite <- Hmain.
      unfold isMainDocument. rewrite lookup_app_l; [done|].
      apply (cw_fresh _ _ Hwf _ _ Hk).
Qed.

Lemma clone_included_cloned predicate fuel n p s r :
  n < length h0 → cloned_inv h0 s →
  clone_included predicate fuel n p s = Some r → cloned_inv h0 r.1.
Proof.
  intros Hn Hs. unfold clone_included.
  destruct (has _ _); [by intros [= <-]|].
  destruct predicate as [predicate|].
  - destruct (predicate n); [|by intros [= <-]].
    apply (traverse_preserves ids_of clone_ancestor uncloned_dependencies
             (cloned_inv h0) in_heap); try done.
    + intros n' p' s' r' Hn' Hs' [= <-]. by apply clone_into_map_cloned.
    + intros s' x y Hs' Hx Hy. unfold uncloned_dependencies in Hy.
      apply list_elem_of_filter in Hy as [_ Hy].
      rewrite (prefix_heap_dependencies h0) in Hy;
        [|apply Hs'|done].
      by eapply closed_dependencies.
  - intros [= <-]. by apply clone_into_map_cloned.
Qed.

Lemma pass1_cloned predicate fuel root s1 c :
  root < length h0 →
  traverse ids_of (clone_included predicate fuel)
    (λ s, default_getNextNodes (clone_heap s)) fuel root
    (mkCloneState h0 ∅) = Some (s1, c) →
  cloned_inv h0 s1.
Proof.
  intros Hroot Hrun.
  apply (traverse_preserves ids_of (clone_included predicate fuel) _
           (cloned_inv h0) in_heap) in Hrun; try done.
  - intros n p s r Hn Hs. by apply clone_included_cloned.
  - intros s x y Hs Hx Hy. unfold default_getNextNodes in Hy.
    rewrite (prefix_heap_dependents h0) in Hy; [|apply Hs|done].
    by eapply closed_dependents.
  - apply cloned_inv_init.
Qed.
End cloned.

(** *** The walk down the dependents of the root *)

Section walk.
Context (h0 : heap) (root : ref).
Hypothesis Hclosed : closed h0.
Hypothesis Hids : NoDup (_id <$> h0).
Hypothesis Hroot : root < length h0.

Lemma walk_inv_start : walk_inv h0 root [] [[root]] {[id h0 root]}.
Proof.
  split; simpl.
  - apply ids_inv_start. by apply elem_of_heap_refs.
  - by intros p ->%list_elem_of_singleton.
  - by intros p y ?%elem_of_nil.
  - by apply elem_of_singleton.
Qed.

Lemma walk_inv_step hs P p q v :
  h0 `prefix_of` hs → walk_inv h0 root P (p :: q) v →
  let r := enqueue (id hs) (default_getNextNodes hs (top p)) p q v in
  walk_inv h0 root (P ++ [p]) r.1 r.2
  ∧ top p < length h0 ∧ top p ∉ top <$> P.
Proof.
  intros Hprefix [Hinv Hreach Hexp Hstart] r.
  destruct (ids_inv_pop _ _ _ _ _ _ Hinv) as [Hinv1 Hm%elem_of_heap_refs].
  assert (rtc (dependent_edge h0) root (top p)) as Hrm.
  { apply Hreach, elem_of_app. right. by left. }
  assert (r = enqueue (id h0) (getDependents h0 (top p)) p q v) as Hr.
  { subst r. unfold default_getNextNodes.
    rewrite (prefix_heap_dependents h0 _ Hprefix) by done.
    apply enqueue_ext. intros y Hy. apply (prefix_heap_id h0); [done|].
    by eapply closed_dependents. }
  destruct (enqueue_spec (id h0) (getDependents h0 (top p)) p q v)
    as (new & Hq & Hnew & Hv & Hall).
  rewrite <- Hr in Hq, Hv, Hall.
  split_and!; [split|done|].
  - rewrite Hr. apply ids_inv_enqueue; [done|].
    intros y Hy. apply elem_of_heap_refs. by eapply closed_dependents.
  - intros p'. rewrite Hq.
    intros [Hp'|Hp']%elem_of_done_queue; [by apply Hreach|].
    apply list_elem_of_fmap in Hp' as (y & -> & Hy).
    eapply rtc_r; [exact Hrm|]. by apply Hnew.
  - intros p0 y [Hp0|Hp0]%elem_of_app Hy.
    + apply Hv. by eapply Hexp.
    + apply list_elem_of_singleton in Hp0 as ->. by apply Hall.
  - by apply Hv.
  - intros (p' & Htop & Hp')%list_elem_of_fmap.
    pose proof (ids_nodup _ _ _ _ _ Hinv) as Hnd.
    rewrite path_ids_app in Hnd. apply NoDup_app in Hnd as (_ & Hdisj & _).
    apply (Hdisj (id h0 (top p))).
    + apply elem_of_path_ids. exists p'. split; [done|]. by rewrite Htop.
    + apply elem_of_path_ids. exists p. split; [by left|done].
Qed.

(** Once the queue is empty, the nodes yielded are the nodes reachable
    from the root along dependents. *)
Lemma walk_inv_complete P v n :
  walk_inv h0 root P [] v →
  rtc (dependent_edge h0) root n ↔ n ∈ top <$> P.
Proof.
  intros [Hinv Hreach Hexp Hstart]. rewrite app_nil_r in *. split.
  - revert n. apply rtc_ind_r.
    + destruct (ids_inv_visited_node h0 P [] v root)
        as (p & Hp & Htop); try done.
      rewrite app_nil_r in Hp. apply list_elem_of_fmap. by exists p.
    + intros x y _ Hxy (p & -> & Hp)%list_elem_of_fmap.
      destruct (ids_inv_visited_node h0 P [] v y)
        as (p' & Hp' & Htop); try done.
      * by eapply closed_dependents.
      * by eapply Hexp.
      * rewrite app_nil_r in Hp'. apply list_elem_of_fmap. by exists p'.
  - intros (p & -> & Hp)%list_elem_of_fmap. by apply Hreach.
Qed.

Lemma walk_inv_yielded P q v m :
  walk_inv h0 root P q v → m < length h0 →
  id h0 m ∈ path_ids (id h0) P ↔ m ∈ top <$> P.
Proof.
  intros [Hinv _ _ _] Hm. rewrite elem_of_path_ids, list_elem_of_fmap.
  split.
  - intros (p & Hp & Hid). exists p. split; [|done].
    apply (id_injective h0); [done|done| |done].
    apply elem_of_heap_refs, (ids_within _ _ _ _ _ Hinv), elem_of_app.
    by left.
  - intros (p & -> & Hp). by exists p.
Qed.

(** *** The first traversal of a call without predicate *)

Local Abbreviation ids_of := (λ s : clone_state, id (clone_heap s)).

Lemma clone_all_inv_step fuel P p q v s :
  clone_all_inv h0 root P (p :: q) v s →
  ∃ s', clone_included None fuel (top p) p s = Some (s', Normal tt)
    ∧ clone_all_inv h0 root (P ++ [p])
        (enqueue (ids_of s')
           (default_getNextNodes (clone_heap s') (top p)) p q v).1
        (enqueue (ids_of s')
           (default_getNextNodes (clone_heap s') (top p)) p q v).2 s'.
Proof.
  intros [Hwalk Hwf Hdom].
  destruct (ids_inv_pop _ _ _ _ _ _ (wk_ids _ _ _ _ _ Hwalk))
    as [_ Hm%elem_of_heap_refs].
  unfold clone_included.
  rewrite (prefix_heap_id h0 _ (cw_prefix _ _ Hwf) _ Hm).
  assert (∀ k, k ∈ path_ids (id h0) (P ++ [p]) ↔
               k ∈ path_ids (id h0) P ∨ k = id h0 (top p)) as Hsnoc.
  { intros k. rewrite path_ids_app.
    change (path_ids (id h0) [p]) with [id h0 (top p)].
    by rewrite elem_of_app, list_elem_of_singleton. }
  destruct (has (idsToIncludedClones s) (id h0 (top p))) eqn:Hhas.
  - exists s. split; [done|].
    destruct (walk_inv_step (clone_heap s) P p q v (cw_prefix _ _ Hwf) Hwalk)
      as (Hwalk' & _ & _).
    split; [done|done|].
    intros k. rewrite Hdom, Hsnoc. split; [tauto|].
    intros [?| ->]; [done|]. apply Hdom. by apply has_true.
  - exists (clone_into_map (top p) s). split; [done|].
    destruct (clone_into_map_wf h0 s (top p) Hwf Hm) as [Hwf' HM'].
    destruct (walk_inv_step (clone_heap (clone_into_map (top p) s))
                P p q v (cw_prefix _ _ Hwf') Hwalk) as (Hwalk' & _ & _).
    split; [done|done|].
    intros k. rewrite HM', lookup_insert_is_Some, Hdom, Hsnoc.
    destruct (decide (id h0 (top p) = k)); intuition congruence.
Qed.

Lemma clone_all_traverse fuel :
  length h0 < fuel →
  ∃ s1,
    traverse ids_of (clone_included None fuel)
      (λ s, default_getNextNodes (clone_heap s)) fuel root
      (mkCloneState h0 ∅) = Some (s1, Normal tt)
    ∧ clone_wf h0 s1
    ∧ ∀ m, m < length h0 →
        is_Some (idsToIncludedClones s1 !! id h0 m) ↔
          rtc (dependent_edge h0) root m.
Proof.
  intros Hfuel.
  destruct (traverse_loop_rule ids_of (clone_included None fuel)
    (λ s, default_getNextNodes (clone_heap s))
    (clone_all_inv h0 root) (length h0))
    with (fuel := fuel) (P := @nil (list ref))
    (g := traverseGenerator (id h0) root) (s := mkCloneState h0 ∅)
    as (P' & v' & s' & Hrun & Hend).
  - intros P q v s0 p Hinv.
    apply (ids_nonempty _ _ _ _ _ (wk_ids _ _ _ _ _ (ca_walk _ _ _ _ _ _ Hinv))).
  - intros P q v s0 Hinv.
    eapply ids_inv_heap_bound, (wk_ids _ _ _ _ _ (ca_walk _ _ _ _ _ _ Hinv)).
  - intros P p q v s0 Hinv. by apply clone_all_inv_step.
  - split; simpl.
    + apply walk_inv_start.
    + split; simpl; [done|]. intros k c Hc. by rewrite lookup_empty in Hc.
    + intros k. unfold path_ids. simpl. rewrite elem_of_nil.
      split; [|done]. intros [c Hc]. by rewrite lookup_empty in Hc.
  - simpl. lia.
  - exists s'. split; [exact Hrun|].
    destruct Hend as [Hwalk Hwf Hdom]. split; [done|].
    intros m Hm.
    by rewrite Hdom, (walk_inv_yielded P' [] v' m Hwalk Hm),
      (walk_inv_complete P' v' m Hwalk).
Qed.
End walk.

(** *** Copying the edges *)

Lemma elem_of_tops_snoc (P : list (list ref)) p m :
  m ∈ top <$> (P ++ [p]) ↔ m ∈ top <$> P ∨ m = top p.
Proof.
  rewrite fmap_app, elem_of_app. simpl. by rewrite list_elem_of_singleton.
Qed.

Lemma decide_tops_snoc {A} (P : list (list ref)) p m (x y : A) :
  m ≠ top p →
  (if decide (m ∈ top <$> (P ++ [p])) then x else y) =
  (if decide (m ∈ top <$> P) then x else y).
Proof.
  intros Hne. pose proof (elem_of_tops_snoc P p m) as Hsnoc.
  destruct (decide (m ∈ top <$> (P ++ [p]))) as [H1|H1],
    (decide (m ∈ top <$> P)) as [H2|H2]; try done; tauto.
Qed.

Lemma clones_of_cons_Some h0 clones d l c :
  clones !! id h0 d = Some c →
  clones_of h0 clones (d :: l) = c :: clones_of h0 clones l.
Proof. intros Hc. unfold clones_of. simpl. by rewrite Hc. Qed.

Lemma clones_of_Forall2 h0 (clones : gmap string ref) l :
  (∀ d, d ∈ l → is_Some (clones !! id h0 d)) →
  Forall2 (λ d cd, clones !! id h0 d = Some cd) l (clones_of h0 clones l).
Proof.
  induction l as [|d l IH]; intros Hall; [by constructor|].
  destruct (Hall d) as [c Hc]; [by left|].
  rewrite (clones_of_cons_Some h0 clones d l c Hc). constructor; [done|].
  apply IH. intros d' Hd'. apply Hall. by right.
Qed.

Section copy.
Context (h0 : heap) (clones : gmap string ref).
Hypothesis Hids : NoDup (_id <$> h0).

Local Abbreviation ids_of := (λ s : clone_state, id (clone_heap s)).

Lemma clones_injective s m m' c :
  clone_wf h0 s → idsToIncludedClones s = clones →
  m < length h0 → m' < length h0 →
  clones !! id h0 m = Some c → clones !! id h0 m' = Some c → m = m'.
Proof.
  intros Hwf <- Hm Hm' Hc Hc'. apply (id_injective h0); try done.
  destruct (cw_fresh _ _ Hwf _ _ Hc) as (_ & _ & <-).
  by destruct (cw_fresh _ _ Hwf _ _ Hc') as (_ & _ & <-).
Qed.

(** The [for] loop of the second traversal, for the clone [c0] of a node
    with the dependencies [l]: it returns normally when every dependency
    has a clone, and has then pushed their clones, in order, on the
    dependencies of [c0], and [c0] on the dependents of each of them; it
    throws at the first dependency without a clone. *)
Lemma copy_dependencies_spec c0 l s :
  clone_wf h0 s → idsToIncludedClones s = clones →
  length h0 ≤ c0 → c0 < length (clone_heap s) →
  (∀ d, d ∈ l → d < length h0) → NoDup l →
  (∀ d c, d ∈ l → clones !! id h0 d = Some c →
     c ≠ c0 ∧ c ∉ getDependencies (clone_heap s) c0) →
  ∃ s' r, copy_dependencies l c0 s = (s', r)
    ∧ clone_wf h0 s' ∧ idsToIncludedClones s' = clones
    ∧ length (clone_heap s') = length (clone_heap s)
    ∧ (∀ c, id (clone_heap s') c = id (clone_heap s) c
            ∧ isMainDocument (clone_heap s') c
              = isMainDocument (clone_heap s) c)
    ∧ match r with
      | Normal _ =>
          (∀ d, d ∈ l → is_Some (clones !! id h0 d))
          ∧ (∀ c, getDependencies (clone_heap s') c =
                  if decide (c = c0)
                  then getDependencies (clone_heap s) c0
                       ++ clones_of h0 clones l
                  else getDependencies (clone_heap s) c)
          ∧ (∀ c c', c' ∈ getDependents (clone_heap s') c ↔
                c' ∈ getDependents (clone_heap s) c
                ∨ (c' = c0 ∧ ∃ d, d ∈ l ∧ clones !! id h0 d = Some c))
      | Throw msg =>
          msg = "Dependency somehow not cloned"
          ∧ ∃ d, d ∈ l ∧ clones !! id h0 d = None
      end.
Proof.
  revert s. induction l as [|d l IH];
    intros s Hwf Hmap Hc0 Hlt Hl Hnd Hnew; simpl.
  - exists s, (Normal tt). split_and!; try done.
    + by intros d ?%elem_of_nil.
    + intros c. case_decide; [subst; by rewrite app_nil_r|done].
    + intros c c'. split; [tauto|].
      intros [?|(_ & d & Hd & _)]; [done|]. by apply elem_of_nil in Hd.
  - pose proof (cw_prefix _ _ Hwf) as Hprefix.
    assert (d < length h0) as Hd by (apply Hl; by left).
    apply NoDup_cons in Hnd as [Hdl Hnd].
    rewrite (prefix_heap_id h0 _ Hprefix d Hd), Hmap.
    destruct (clones !! id h0 d) as [c'|] eqn:Hc'.
    2: { exists s, (Throw "Dependency somehow not cloned").
         split_and!; try done. exists d. split; [by left|done]. }
    destruct (Hnew d c') as [Hne Hfresh]; [by left|done|].
    assert (length h0 ≤ c' ∧ c' < length (clone_heap s)) as [Hc'0 Hc'lt].
    { rewrite <- Hmap in Hc'.
      by destruct (cw_fresh _ _ Hwf _ _ Hc') as (? & ? & _). }
    pose proof (addDependency_new c0 c' (clone_heap s) Hne Hfresh) as Hadd.
    pose proof (addDependency_new_dependencies c0 c' (clone_heap s)
                  Hlt Hc'lt Hne Hfresh) as Hdeps1.
    pose proof (addDependency_new_dependents c0 c' (clone_heap s)
                  Hc'lt Hne Hfresh) as Hdts1.
    pose proof (addDependency_frame c0 c' (clone_heap s)) as Hframe.
    pose proof (addDependency_keeps_prefix h0 (clone_heap s) c0 c'
                  Hprefix Hc0 Hc'0) as Hprefix1.
    rewrite Hadd in *. simpl in *.
    match goal with
    | |- context [copy_dependencies l c0 (mkCloneState ?h ?m)] =>
        set (h1 := h) in *
    end.
    destruct (IH (mkCloneState h1 clones))
      as (s' & r & Hrun & Hwf' & Hmap' & Hlen' & Hnodes' & Hr); simpl.
    + split; simpl; [done|]. intros k c Hc. rewrite <- Hmap in Hc.
      destruct (cw_fresh _ _ Hwf _ _ Hc) as (? & ? & ?).
      destruct (Hframe c) as (-> & -> & _). done.
    + done.
    + done.
    + by rewrite (proj1 (Hframe 0)).
    + intros d' Hd'. apply Hl. by right.
    + done.
    + intros d' c Hd' Hc. destruct (Hnew d' c) as [? Hnot]; [by right|done|].
      split; [done|]. rewrite Hdeps1, decide_True by done.
      rewrite elem_of_app, list_elem_of_singleton. intros [?| ->]; [done|].
      destruct Hdl.
      rewrite (clones_injective s d d' c' Hwf Hmap); try done.
      apply Hl. by right.
    + simpl in *. exists s', r. split_and!; try done.
      * by rewrite Hlen', (proj1 (Hframe 0)).
      * intros c. destruct (Hnodes' c) as [-> ->].
        by destruct (Hframe c) as (_ & -> & ->).
      * destruct r as [u|msg].
        -- destruct Hr as (Hall & Hdeps' & Hdts'). split_and!.
           ++ intros d' [->|Hd']%elem_of_cons; [by rewrite Hc'|by apply Hall].
           ++ intros c. rewrite Hdeps'. case_decide as Hc.
              ** by rewrite Hdeps1, decide_True, <- app_assoc.
              ** by rewrite Hdeps1, decide_False.
           ++ intros c c''. rewrite Hdts', Hdts1. split.
              ** intros [Hin|(-> & d' & Hd' & Hcd')].
                 --- case_decide as Hc; [subst c|by left].
                     apply elem_of_app in Hin as [?|Hin]; [by left|].
                     apply list_elem_of_singleton in Hin as ->.
                     right. split; [done|]. exists d. split; [by left|done].
                 --- right. split; [done|]. exists d'. split; [by right|done].
              ** intros [Hin|(-> & d' & [->|Hd']%elem_of_cons & Hcd')].
                 --- left. case_decide; [subst c|done].
                     apply elem_of_app. by left.
                 --- left. rewrite Hc' in Hcd'. injection Hcd' as <-.
                     rewrite decide_True by done.
                     apply elem_of_app. right. by left.
                 --- right. split; [done|]. by exists d'.
        -- destruct Hr as (-> & d' & Hd' & Hnone). split; [done|].
           exists d'. split; [by right|done].
Qed.

Context (root : ref) (h1 : heap).
Hypothesis Hclosed : closed h0.
Hypothesis Hroot : root < length h0.
Hypothesis Hacyclic : acyclic h0.
Hypothesis Hnodup : ∀ m, NoDup (getDependencies h0 m).

Lemma copy_inv_step P p q v s :
  copy_inv h0 root h1 clones P (p :: q) v s →
  ∃ s' c, copy_edges (top p) p s = Some (s', c)
    ∧ match c with
      | Normal _ =>
          copy_inv h0 root h1 clones (P ++ [p])
            (enqueue (ids_of s')
               (default_getNextNodes (clone_heap s') (top p)) p q v).1
            (enqueue (ids_of s')
               (default_getNextNodes (clone_heap s') (top p)) p q v).2 s'
      | Throw msg => copy_failed h0 root clones s' msg
      end.
Proof.
  intros [Hwalk Hwf Hmap Hlen Hnodes Hcloned Hdeps Hdts].
  pose proof (cw_prefix _ _ Hwf) as Hprefix.
  destruct (walk_inv_step h0 root Hclosed (clone_heap s) P p q v
              Hprefix Hwalk) as (Hwalk0 & Hm0 & Hfresh).
  assert (rtc (dependent_edge h0) root (top p)) as Hreach.
  { apply (wk_reach _ _ _ _ _ Hwalk), elem_of_app. right. by left. }
  unfold copy_edges. rewrite (prefix_heap_id h0 _ Hprefix _ Hm0), Hmap.
  destruct (clones !! id h0 (top p)) as [c0|] eqn:Hc0.
  - rewrite (prefix_heap_dependencies h0 _ Hprefix _ Hm0).
    assert (length h0 ≤ c0 ∧ c0 < length (clone_heap s)) as [Hc00 Hc0lt].
    { rewrite <- Hmap in Hc0.
      by destruct (cw_fresh _ _ Hwf _ _ Hc0) as (? & ? & _). }
    assert (getDependencies (clone_heap s) c0 = []) as Hempty.
    { rewrite (Hdeps (top p) c0 Hm0 Hc0). by rewrite decide_False. }
    destruct (copy_dependencies_spec c0 (getDependencies h0 (top p)) s)
      as (s' & r & Hrun & Hwf' & Hmap' & Hlen' & Hnodes' & Hr); try done.
    { intros d Hd. by eapply closed_dependencies. }
    { intros d c Hd Hc. rewrite Hempty. split; [|apply not_elem_of_nil].
      intros ->.
      assert (d = top p) as ->.
      { apply (clones_injective s d (top p) c0); try done.
        by eapply closed_dependencies. }
      by apply (Hacyclic (top p)), tc_once. }
    exists s', r. rewrite Hrun. split; [done|].
    destruct r as [u|msg].
    + destruct Hr as (Hall & Hdeps' & Hdts').
      destruct (walk_inv_step h0 root Hclosed (clone_heap s') P p q v
                  (cw_prefix _ _ Hwf') Hwalk) as (Hwalk' & _ & _).
      split; try done.
      * congruence.
      * intros c. destruct (Hnodes' c) as [-> ->]. apply Hnodes.
      * intros p' d [Hp'|Hp']%elem_of_app Hp'c Hd; [by eapply Hcloned|].
        apply list_elem_of_singleton in Hp' as ->. by apply Hall.
      * intros m c Hm Hc. rewrite Hdeps'. case_decide as Hcc0.
        -- subst c.
           rewrite (clones_injective s m (top p) c0 Hwf Hmap Hm Hm0 Hc Hc0).
           rewrite Hempty, decide_True; [done|].
           apply elem_of_tops_snoc. by right.
        -- rewrite (Hdeps m c Hm Hc).
           assert (m ≠ top p) as Hne by (intros ->; congruence).
           by rewrite decide_tops_snoc.
      * intros m c c' Hm Hc. rewrite Hdts', (Hdts m c c' Hm Hc). split.
        -- intros [(m' & Hm' & Hc' & Hin)|(-> & d & Hd & Hcd)].
           ++ exists m'. split_and!; [|done|done].
              apply elem_of_tops_snoc. by left.
           ++ exists (top p). split_and!; [|done|].
              ** apply elem_of_tops_snoc. by right.
              ** rewrite (clones_injective s m d c Hwf Hmap Hm); try done.
                 by eapply closed_dependencies.
        -- intros (m' & [Hm'| ->]%elem_of_tops_snoc & Hc' & Hin).
           ++ left. by exists m'.
           ++ right. split; [congruence|]. by exists m.
    + destruct Hr as (-> & d & Hd & Hnone). split_and!; [done|apply Hwf'|].
      exists (top p), d. by split_and!.
  - exists s, (Normal tt). split; [done|].
    split; try done.
    + intros p' d [Hp'|Hp']%elem_of_app Hp'c Hd; [by eapply Hcloned|].
      apply list_elem_of_singleton in Hp' as ->.
      rewrite Hc0 in Hp'c. by destruct Hp'c.
    + intros m c Hm Hc. rewrite (Hdeps m c Hm Hc).
      assert (m ≠ top p) as Hne by (intros ->; congruence).
      by rewrite decide_tops_snoc.
    + intros m c c' Hm Hc. rewrite (Hdts m c c' Hm Hc). split.
      * intros (m' & Hm' & Hc' & Hin). exists m'. split_and!; [|done|done].
        apply elem_of_tops_snoc. by left.
      * intros (m' & [Hm'| ->]%elem_of_tops_snoc & Hc' & Hin);
          [by exists m'|congruence].
Qed.

(** The second traversal, from the state [s1] the first one has left. *)
Lemma copy_traverse fuel s1 :
  cloned_inv h0 s1 → idsToIncludedClones s1 = clones →
  clone_heap s1 = h1 → length h0 < fuel →
  ∃ s2 c,
    traverse ids_of copy_edges (λ s, default_getNextNodes (clone_heap s))
      fuel root s1 = Some (s2, c)
    ∧ match c with
      | Normal _ => ∃ P v, copy_inv h0 root h1 clones P [] v s2
      | Throw msg => copy_failed h0 root clones s2 msg
      end.
Proof.
  intros [Hwf Hun Horig] Hmap Hheap Hfuel.
  pose proof (cw_prefix _ _ Hwf) as Hprefix.
  destruct (traverse_loop_rule_throw ids_of copy_edges
    (λ s, default_getNextNodes (clone_heap s))
    (copy_inv h0 root h1 clones) (copy_failed h0 root clones) (length h0))
    with (fuel := fuel) (P := @nil (list ref))
    (g := traverseGenerator (ids_of s1) root) (s := s1)
    as (s2 & c & Hrun & Hend).
  - intros P q v s0 p Hinv.
    apply (ids_nonempty _ _ _ _ _
             (wk_ids _ _ _ _ _ (cp_walk _ _ _ _ _ _ _ _ Hinv))).
  - intros P q v s0 Hinv.
    eapply ids_inv_heap_bound,
      (wk_ids _ _ _ _ _ (cp_walk _ _ _ _ _ _ _ _ Hinv)).
  - intros P p q v s0 Hinv. by apply copy_inv_step.
  - simpl. rewrite (prefix_heap_id h0 _ Hprefix root Hroot).
    split; simpl; try done.
    + by apply walk_inv_start.
    + by rewrite Hheap.
    + intros c. by rewrite Hheap.
    + by intros p d ?%elem_of_nil.
    + intros m c Hm Hc. rewrite <- Hmap in Hc.
      destruct (cw_fresh _ _ Hwf _ _ Hc) as (Hc0 & _ & _).
      by destruct (Hun c Hc0) as [-> _].
    + intros m c c' Hm Hc. rewrite <- Hmap in Hc.
      destruct (cw_fresh _ _ Hwf _ _ Hc) as (Hc0 & _ & _).
      destruct (Hun c Hc0) as [_ ->]. split; [by intros ?%elem_of_nil|].
      intros (m' & Hm' & _). by apply elem_of_nil in Hm'.
  - simpl. lia.
  - exists s2, c. split; [exact Hrun|]. destruct c as [u|msg]; [|done].
    destruct Hend as (P' & v' & Hinv). by exists P', v'.
Qed.
End copy.

(** *** The whole call *)

(** The call from the end of its first traversal on: it throws because a
    dependency has no clone, or it ends with a clone graph and returns the
    clone of [this], when there is one. *)
Lemma cloneWithRelationships_copy (h0 : heap) this predicate fuel root s1 :
  closed h0 → NoDup (_id <$> h0) → acyclic h0 → duplicate_free h0 →
  this < length h0 → root < length h0 → length h0 < fuel →
  getRootNode_loop fuel h0 this = Some root →
  traverse (λ s, id (clone_heap s)) (clone_included predicate fuel)
    (λ s, default_getNextNodes (clone_heap s)) fuel root
    (mkCloneState h0 ∅) = Some (s1, Normal tt) →
  let clones := idsToIncludedClones s1 in
  ∃ h' r,
    cloneWithRelationships fuel this predicate h0 = Some (h', r)
    ∧ ((r = Throw "Dependency somehow not cloned"
        ∧ ∃ m d, rtc (dependent_edge h0) root m
            ∧ is_Some (clones !! id h0 m)
            ∧ d ∈ getDependencies h0 m ∧ clones !! id h0 d = None)
       ∨ (r = match clones !! id h0 this with
              | Some c => Normal c
              | None => Throw "Cloned graph missing node"
              end
          ∧ cloned_graph h0 root clones h'
          ∧ ∀ m d, rtc (dependent_edge h0) root m →
              is_Some (clones !! id h0 m) → d ∈ getDependencies h0 m →
              is_Some (clones !! id h0 d))).
Proof.
  intros Hclosed Hids Hacyclic Hnd Hthis Hroot Hfuel Hrootnode Hrun1 clones.
  pose proof (pass1_cloned h0 Hclosed predicate fuel root s1 _ Hroot Hrun1)
    as Hcloned.
  destruct (copy_traverse h0 clones Hids root (clone_heap s1) Hclosed Hroot
              Hacyclic (λ m, proj1 (Hnd m)) fuel s1)
    as (s2 & c & Hrun2 & Hend); try done.
  assert (cloneWithRelationships fuel this predicate h0 =
          match c with
          | Normal _ =>
              match idsToIncludedClones s2 !! id (clone_heap s2) this with
              | None =>
                  Some (clone_heap s2, Throw "Cloned graph missing node")
              | Some c' => Some (clone_heap s2, Normal c')
              end
          | Throw msg => Some (clone_heap s2, Throw msg)
          end) as Hrun.
  { unfold cloneWithRelationships. unfold getRootNode. rewrite Hrootnode.
    simpl. rewrite Hrun1. simpl. rewrite Hrun2. simpl. by destruct c. }
  destruct c as [u|msg].
  - destruct Hend as (P & v & [Hwalk Hwf Hmap Hlen Hnodes Hcl Hdeps Hdts]).
    pose proof (cw_prefix _ _ Hwf) as Hprefix.
    rewrite Hmap, (prefix_heap_id h0 _ Hprefix this Hthis) in Hrun.
    pose proof (walk_inv_complete h0 root Hclosed Hids Hroot P v) as Hall.
    assert (∀ m d, rtc (dependent_edge h0) root m →
              is_Some (clones !! id h0 m) → d ∈ getDependencies h0 m →
              is_Some (clones !! id h0 d)) as Hbelow.
    { intros m d Hm%Hall Hc Hd; [|done].
      apply list_elem_of_fmap in Hm as (p & -> & Hp). by eapply Hcl. }
    exists (clone_heap s2),
      (match clones !! id h0 this with
       | Some c => Normal c
       | None => Throw "Cloned graph missing node"
       end).
    split; [by destruct (clones !! id h0 this)|]. right.
    split_and!; [done| |done]. split.
    + done.
    + intros m c Hm Hc. rewrite <- Hmap in Hc.
      destruct (cw_fresh _ _ Hwf _ _ Hc) as (Hc0 & Hclt & Hcid).
      split_and!; [done|done|done|].
      destruct (Hnodes c) as [_ ->]. rewrite Hmap in Hc.
      destruct (cl_original _ _ Hcloned _ _ Hc) as (m' & Hm' & Hid & ->).
      by rewrite (id_injective h0 m' m).
    + intros m c Hm Hc Hreach. rewrite (Hdeps m c Hm Hc).
      rewrite decide_True by by apply Hall.
      apply clones_of_Forall2. intros d Hd. eapply Hbelow; [done| |done].
      by rewrite Hc.
    + intros m c Hm Hc Hreach. rewrite (Hdeps m c Hm Hc).
      rewrite decide_False; [done|]. intros Hin. by apply Hreach, Hall.
    + intros m c c' Hm Hc. rewrite (Hdts m c c' Hm Hc).
      split; intros (m' & Hm' & Hrest); exists m'; (split; [|done]);
        by apply Hall.
  - destruct Hend as (-> & Hprefix & m & d & Hm & Hc & Hd & Hnone).
    exists (clone_heap s2), (Throw "Dependency somehow not cloned").
    split; [done|]. left. split; [done|]. by exists m, d.
Qed.

Lemma diamond_heap_duplicate_free : duplicate_free diamond_heap.
Proof.
  apply (built_heaps_edges_ok ["R"; "B"; "C"; "D"]
           [AddDependency 1 0; AddDependency 2 0;
            AddDependency 3 1; AddDependency 3 2]).
  repeat constructor; simpl; lia.
Qed.

Lemma diamond_heap_ids : NoDup (_id <$> diamond_heap).
Proof. apply (bool_decide_unpack _). by vm_compute. Qed.

Lemma cloneWithRelationships_with_predicate
    (h : heap) (this : ref) (predicate : ref → bool) :
  closed h → duplicate_free h → NoDup (_id <$> h) → acyclic h →
  this < length h →
  ∃ root h' r clones,
    (∀ fuel, length h < fuel →
       getRootNode fuel h this = Some root
       ∧ cloneWithRelationships fuel this (Some predicate) h = Some (h', r))
    ∧ (∀ m, m < length h →
         is_Some (clones !! id h m) ↔ kept h root predicate m)
    ∧ r = match clones !! id h this with
          | Some c => Normal c
          | None => Throw "Cloned graph missing node"
          end
    ∧ cloned_graph h root clones h'.
Proof.
  intros Hclosed Hnd Hids Hacyclic Hthis.
  destruct (getRootNode_loop_terminates h (S (length h)) [] this)
    as [root Hroot]; try done.
  { apply NoDup_nil_2. }
  { by intros s ?%elem_of_nil. }
  { by intros s ?%elem_of_nil. }
  { simpl. lia. }
  assert (root < length h) as Hroot_lt.
  { apply (closed_rtc h this); [done|done|].
    by apply (getRootNode_loop_root (S (length h))). }
  destruct (pass1_traverse h root predicate Hclosed Hids (S (length h)))
    as (s1 & Hrun1 & Hp1 & Hkept); [done|lia|].
  assert (∀ n, rtc (dependent_edge h) root n → n < length h) as Hdown.
  { intros n. apply reachable_in_heap; [|done].
    intros a b. by apply closed_dependents. }
  destruct (cloneWithRelationships_copy h this (Some predicate)
              (S (length h)) root s1)
    as (h' & r & Hrun & [(_ & m & d & Hm & Hc & Hd & Hnone)|(Hr & Hg & _)]);
    try done; [lia| |].
  { destruct (p1_closed _ _ _ _ Hp1 m d) as [c' Hc']; auto. congruence. }
  exists root, h', r, (idsToIncludedClones s1). split_and!; try done.
  - intros fuel Hfuel. split.
    + by apply (getRootNode_loop_mono (S (length h))); [lia|].
    + by apply (cloneWithRelationships_mono (S (length h))); [lia|].
  - intros m Hm. split.
    + intros Hc.
      destruct (p1_sound _ _ _ _ Hp1 (id h m) Hc) as (m' & Hm' & Hid & Hk).
      by rewrite <- (id_injective h m' m).
    + intros (n & Hn & Hpn & Hnm). clear Hm. revert m Hnm.
      apply rtc_ind_r; [by apply Hkept|].
      intros m1 m Hnm1 Hm1m IH.
      apply (p1_closed _ _ _ _ Hp1 m1 m); [|done|done].
      by eapply getDependencies_in_heap.
Qed.


(** X18. With a predicate, on a graph without dependency cycles whose nodes
    have pairwise different ids, [cloneWithRelationships] returns: the nodes
    that get a clone are the nodes the predicate keeps (the nodes below the
    root that it matches, and their ancestors); the call returns the clone
    of [this] when [this] is one of them and throws "Cloned graph missing
    node" otherwise, never "Dependency somehow not cloned"; and the clones
    mirror the original graph: a clone has the id and the main-document flag
    of its original, the dependencies of the clone of a node below the root
    are the clones of its dependencies, in the same order, and the
    dependents of a clone are the clones of the nodes below the root that
    depend on its original. *)
Theorem cloneWithRelationships_mirrors_edges
    (h : heap) (this : ref) (predicate : ref → bool) :
  closed h → duplicate_free h → NoDup (_id <$> h) → acyclic h →
  this < length h →
  ∃ root h' r clones,
    (∀ fuel, length h < fuel →
       getRootNode fuel h this = Some root
       ∧ cloneWithRelationships fuel this (Some predicate) h = Some (h', r))
    ∧ (∀ m, m < length h →
         is_Some (clones !! id h m) ↔ kept h root predicate m)
    ∧ r = match clones !! id h this with
          | Some c => Normal c
          | None => Throw "Cloned graph missing node"
          end
    ∧ cloned_graph h root clones h'.
Proof. apply cloneWithRelationships_with_predicate. Qed.

Lemma cloneWithRelationships_mirrors_edges_witness :
  ∃ root h' r clones,
    (∀ fuel, 4 < fuel →
       getRootNode fuel diamond_heap 3 = Some root
       ∧ cloneWithRelationships fuel 3 (Some only_D) diamond_heap
         = Some (h', r))
    ∧ (∀ m, m < 4 →
         is_Some (clones !! id diamond_heap m) ↔
           kept diamond_heap root only_D m)
    ∧ r = match clones !! id diamond_heap 3 with
          | Some c => Normal c
          | None => Throw "Cloned graph missing node"
          end
    ∧ cloned_graph diamond_heap root clones h'.
Proof.
  apply (cloneWithRelationships_mirrors_edges diamond_heap 3 only_D).
  - apply diamond_heap_closed.
  - apply diamond_heap_duplicate_free.
  - apply diamond_heap_ids.
  - apply diamond_heap_acyclic.
  - simpl. lia.
Defined.

(** In a clone graph the chain of first dependencies of a clone follows
    the clones of the chain of its original. *)
Lemma cloned_graph_root (h : heap) root clones h' croot :
  symmetric h → cloned_graph h root clones h' →
  clones !! id h root = Some croot →
  ∀ fuel m c,
    getRootNode_loop fuel h m = Some root → m < length h →
    clones !! id h m = Some c →
    getRootNode_loop fuel h' c = Some croot.
Proof.
  intros Hsym Hg Hcroot fuel.
  induction fuel as [|fuel IH]; intros m c Hrun Hm Hc.
  - simpl in *. destruct (getDependencies h m) eqn:Hdeps; [|done].
    injection Hrun as ->.
    pose proof (cg_dependencies _ _ _ _ Hg root c Hm Hc (rtc_refl _ _))
      as Hmirror.
    rewrite Hdeps in Hmirror. apply Forall2_nil_inv_l in Hmirror.
    rewrite Hmirror. congruence.
  - assert (rtc (dependent_edge h) root m) as Hbelow.
    { apply symmetric_rtc; [done|]. by apply (getRootNode_loop_root (S fuel)). }
    pose proof (cg_dependencies _ _ _ _ Hg m c Hm Hc Hbelow) as Hmirror.
    simpl in *. destruct (getDependencies h m) as [|d l] eqn:Hdeps.
    + injection Hrun as ->. apply Forall2_nil_inv_l in Hmirror.
      rewrite Hmirror. congruence.
    + apply Forall2_cons_inv_l in Hmirror as (cd & cl & Hcd & _ & ->).
      apply (IH d cd); [done| |done].
      apply (closed_dependencies h m); [by apply symmetric_closed|].
      rewrite Hdeps. by left.
Qed.

(** X19. The root of the clone is the clone of the root: when the call with
    a predicate returns a clone (the predicate keeps [this]), [getRootNode]
    on the clone returns the clone of the node that [getRootNode] returns on
    [this], and this clone has no dependencies. *)
Theorem cloneWithRelationships_root
    (h : heap) (this : ref) (predicate : ref → bool) :
  symmetric h → duplicate_free h → NoDup (_id <$> h) → acyclic h →
  this < length h →
  ∃ root h' r,
    (∀ fuel, length h < fuel →
       getRootNode fuel h this = Some root
       ∧ cloneWithRelationships fuel this (Some predicate) h = Some (h', r))
    ∧ (kept h root predicate this →
         ∃ c croot,
           r = Normal c
           ∧ (∀ fuel, length h < fuel →
                getRootNode fuel h' c = Some croot)
           ∧ length h ≤ croot ∧ id h' croot = id h root
           ∧ getDependencies h' croot = []).
Proof.
  intros Hsym Hnd Hids Hacyclic Hthis.
  pose proof (symmetric_closed h Hsym) as Hclosed.
  destruct (cloneWithRelationships_with_predicate h this predicate)
    as (root & h' & r & clones & Hrun & Hdom & Hr & Hg); try done.
  exists root, h', r. split; [done|]. intros Hkept.
  destruct (Hrun (S (length h))) as [Hroot _]; [lia|].
  destruct (getRootNode_loop_root _ _ _ _ Hroot) as [Hnone Hup].
  assert (root < length h) as Hroot_lt by by apply (closed_rtc h this).
  assert (kept h root predicate root) as Hkept_root.
  { destruct Hkept as (n & Hn & Hpn & Hnthis). exists n.
    split_and!; [done|done|]. by etransitivity. }
  apply Hdom in Hkept as [c Hc]; [|done].
  apply Hdom in Hkept_root as [croot Hcroot]; [|done].
  exists c, croot. rewrite Hc in Hr.
  destruct (cg_clone _ _ _ _ Hg root croot Hroot_lt Hcroot)
    as (Hfresh & _ & Hid & _).
  split_and!; try done.
  - intros fuel Hfuel.
    apply (cloned_graph_root h root clones h' croot Hsym Hg Hcroot
             fuel this c); [|done|done].
    by destruct (Hrun fuel Hfuel).
  - pose proof (cg_dependencies _ _ _ _ Hg root croot Hroot_lt Hcroot
                  (rtc_refl _ _)) as Hmirror.
    rewrite Hnone in Hmirror. by apply Forall2_nil_inv_l in Hmirror.
Qed.

Lemma cloneWithRelationships_root_witness :
  cloneWithRelationships 5 3 (Some only_D) diamond_heap =
    Some (diamond_heap ++
            [mkBaseNode "D" false [] [5; 6]; mkBaseNode "B" false [4] [7];
             mkBaseNode "C" false [4] [7]; mkBaseNode "R" false [5; 6] []],
          Normal 4)
  ∧ getRootNode 5
      (diamond_heap ++
         [mkBaseNode "D" false [] [5; 6]; mkBaseNode "B" false [4] [7];
          mkBaseNode "C" false [4] [7]; mkBaseNode "R" false [5; 6] []])
      4 = Some 7
  ∧ ∃ root h' r,
      (∀ fuel, 4 < fuel →
         getRootNode fuel diamond_heap 3 = Some root
         ∧ cloneWithRelationships fuel 3 (Some only_D) diamond_heap
           = Some (h', r))
      ∧ (kept diamond_heap root only_D 3 →
           ∃ c croot,
             r = Normal c
             ∧ (∀ fuel, 4 < fuel → getRootNode fuel h' c = Some croot)
             ∧ 4 ≤ croot ∧ id h' croot = id diamond_heap root
             ∧ getDependencies h' croot = []).
Proof.
  split; [reflexivity|]. split; [reflexivity|].
  apply (cloneWithRelationships_root diamond_heap 3 only_D).
  - apply diamond_heap_symmetric.
  - apply diamond_heap_duplicate_free.
  - apply diamond_heap_ids.
  - apply diamond_heap_acyclic.
  - simpl. lia.
Defined.

(** X20. Without a predicate, on a graph with symmetric, duplicate-free edge
    lists, no dependency cycle and pairwise different ids, the call clones
    the nodes below the root it finds and nothing else. When every
    dependency of a node below the root is below the root, it returns the
    clone of [this], and the clones mirror the nodes below the root and
    their edges. Otherwise (a node below the root also depends on a node
    that is not, as in a graph with two roots) it throws "Dependency somehow
    not cloned". *)
Theorem cloneWithRelationships_without_predicate (h : heap) (this : ref) :
  symmetric h → duplicate_free h → NoDup (_id <$> h) → acyclic h →
  this < length h →
  ∃ root h' r,
    (∀ fuel, length h < fuel →
       getRootNode fuel h this = Some root
       ∧ cloneWithRelationships fuel this None h = Some (h', r))
    ∧ (¬ dependencies_below h root →
         r = Throw "Dependency somehow not cloned")
    ∧ (dependencies_below h root →
         ∃ clones c,
           r = Normal c ∧ clones !! id h this = Some c
           ∧ (∀ m, m < length h →
                is_Some (clones !! id h m) ↔
                  rtc (dependent_edge h) root m)
           ∧ cloned_graph h root clones h').
Proof.
  intros Hsym Hnd Hids Hacyclic Hthis.
  pose proof (symmetric_closed h Hsym) as Hclosed.
  destruct (getRootNode_loop_terminates h (S (length h)) [] this)
    as [root Hroot]; try done.
  { apply NoDup_nil_2. }
  { by intros s ?%elem_of_nil. }
  { by intros s ?%elem_of_nil. }
  { simpl. lia. }
  destruct (getRootNode_loop_root _ _ _ _ Hroot) as [_ Hup].
  assert (root < length h) as Hroot_lt by by apply (closed_rtc h this).
  destruct (clone_all_traverse h root Hclosed Hids Hroot_lt (S (length h)))
    as (s1 & Hrun1 & Hwf1 & Hdom); [lia|].
  assert (∀ n, rtc (dependent_edge h) root n → n < length h) as Hdown.
  { intros n. apply reachable_in_heap; [|done].
    intros a b. by apply closed_dependents. }
  destruct (cloneWithRelationships_copy h this None (S (length h)) root s1)
    as (h' & r & Hrun & Hcases); try done; [lia|].
  exists root, h', r. split_and!.
  - intros fuel Hfuel. split.
    + by apply (getRootNode_loop_mono (S (length h))); [lia|].
    + by apply (cloneWithRelationships_mono (S (length h))); [lia|].
  - intros Hnot. destruct Hcases as [[-> _]|(_ & _ & Hbelow)]; [done|].
    destruct Hnot. intros m d Hm Hd.
    apply Hdom; [by eapply closed_dependencies|].
    apply (Hbelow m d); [done| |done]. apply Hdom; [|done]. by apply Hdown.
  - intros Hbelow.
    destruct Hcases as [(_ & m & d & Hm & Hc & Hd & Hnone)|(Hr & Hg & _)].
    { assert (is_Some (idsToIncludedClones s1 !! id h d)) as [c Hc'];
        [|congruence].
      apply Hdom; [by eapply closed_dependencies|]. by apply (Hbelow m d). }
    assert (is_Some (idsToIncludedClones s1 !! id h this)) as [c Hc].
    { apply Hdom; [done|]. by apply symmetric_rtc. }
    exists (idsToIncludedClones s1), c. rewrite Hc in Hr. by split_and!.
Qed.

Lemma cloneWithRelationships_without_predicate_witness :
  (∃ root h' r,
     (∀ fuel, 3 < fuel →
        getRootNode fuel two_roots_heap 2 = Some root
        ∧ cloneWithRelationships fuel 2 None two_roots_heap = Some (h', r))
     ∧ (¬ dependencies_below two_roots_heap root →
          r = Throw "Dependency somehow not cloned"))
  ∧ cloneWithRelationships 4 2 None two_roots_heap =
      Some (two_roots_heap
              ++ [mkBaseNode "r1" false [4] []; mkBaseNode "c" false [] [3]],
            Throw "Dependency somehow not cloned").
Proof.
  split; [|reflexivity].
  destruct (cloneWithRelationships_without_predicate two_roots_heap 2)
    as (root & h' & r & Hrun & Hthrow & _).
  - by apply symmetricb_symmetric.
  - intros n. destruct n as [|[|[|n]]];
      split; apply (bool_decide_unpack _); by vm_compute.
  - apply (bool_decide_unpack _). by vm_compute.
  - by apply (topologicalb_acyclic (λ r, if decide (r = 2) then 1 else 0)).
  - simpl. lia.
  - exists root, h', r. by split.
Defined.

(** ** Acyclicity under the edge calls *)

Lemma tc_subrel {A} (R1 R2 : relation A) x y :
  (∀ a b, R1 a b → R2 a b) → tc R1 x y → tc R2 x y.
Proof.
  intros Hsub Htc. induction Htc as [x y Hxy|x y z Hxy _ IH].
  - by apply tc_once, Hsub.
  - eapply tc_l; [by apply Hsub|done].
Qed.

(** A chain of edges in a relation with one more edge [(a, b)] is a chain
    of the relation or passes through the new edge. *)
Lemma tc_extra_edge {A} (R R' : relation A) (a b x y : A) :
  (∀ u v, R' u v → R u v ∨ (u = a ∧ v = b)) →
  tc R' x y → tc R x y ∨ (rtc R x a ∧ rtc R b y).
Proof.
  intros Hsub Htc. induction Htc as [x y Hxy|x y z Hxy _ IH].
  - destruct (Hsub x y Hxy) as [?|[-> ->]]; [left; by apply tc_once|by right].
  - destruct (Hsub x y Hxy) as [Hold|[-> ->]].
    + destruct IH as [IH|[IH1 IH2]].
      * left. by eapply tc_l.
      * right. split; [by eapply rtc_l|done].
    + right. split; [done|].
      destruct IH as [IH|[IH1 IH2]]; [by apply tc_rtc|done].
Qed.

Lemma removeDependency_acyclic this node h :
  acyclic h → acyclic (removeDependency this node h).
Proof.
  intros Hac a Ha. apply (Hac a).
  apply (tc_subrel (dependency_edge (removeDependency this node h))); [|done].
  intros x y Hxy. unfold dependency_edge in *.
  destruct (removeDependency_sublists this node h x) as [Hsub _].
  by eapply elem_of_sublist.
Qed.

(** X21. Removing edges creates no cycle: called on a graph without
    dependency cycles, [removeDependency], [removeDependent] and
    [removeAllDependencies] leave a graph without dependency cycles. *)
Theorem edge_removal_keeps_acyclic (h : heap) (this node : ref) :
  acyclic h →
  acyclic (removeDependency this node h)
  ∧ acyclic (removeDependent this node h)
  ∧ acyclic (removeAllDependencies this h).
Proof.
  intros Hac. split_and!.
  - by apply removeDependency_acyclic.
  - by apply removeDependency_acyclic.
  - unfold removeAllDependencies. generalize (getDependencies h this).
    intros l. revert h Hac.
    induction l as [|x l IH]; intros h Hac; simpl; [done|].
    by apply IH, removeDependency_acyclic.
Qed.

Lemma edge_removal_keeps_acyclic_witness :
  acyclic (removeDependency 3 1 diamond_heap)
  ∧ acyclic (removeAllDependencies 3 diamond_heap).
Proof.
  destruct (edge_removal_keeps_acyclic diamond_heap 3 1) as (H1 & _ & H3).
  - apply diamond_heap_acyclic.
  - by split.
Defined.

(** X22. [isDependentOn] is the test that keeps the graph acyclic: in a
    graph without dependency cycles whose nodes have pairwise different ids,
    [node.isDependentOn(this)] returns, and [this.addDependency(node)]
    leaves a graph without dependency cycles exactly when it returns
    [false]. *)
Theorem isDependentOn_guards_addDependency (h : heap) (this node : ref) :
  closed h → NoDup (_id <$> h) → acyclic h →
  this < length h → node < length h → node ≠ this →
  ∃ b,
    (∀ fuel, length h < fuel →
       isDependentOn fuel h node this = Some (Normal b))
    ∧ (b = false ↔ acyclic (addDependency this node h).1).
Proof.
  intros Hclosed Hids Hac Hthis Hnode Hne.
  destruct (isDependentOn_total h node this Hclosed Hids Hnode)
    as (b & Hrun & Hb).
  exists b. split; [done|].
  assert (b = false ↔ ¬ rtc (dependency_edge h) node this) as ->.
  { destruct b; split; try done.
    - intros Hnot. destruct Hnot. by apply Hb.
    - intros _ Hreach. by apply Hb in Hreach. }
  split.
  - intros Hnot a Ha.
    destruct (tc_extra_edge (dependency_edge h)
                (dependency_edge (addDependency this node h).1)
                this node a a) as [Hold|[Ha1 Ha2]]; [|done| |].
    + intros u v Huv. unfold dependency_edge in *.
      apply addDependency_dependencies_elem in Huv
        as [?|(-> & -> & _)]; auto.
    + by apply (Hac a).
    + apply Hnot. by etransitivity.
  - intros Hac' Hreach. apply (Hac' this).
    apply tc_rtc_r with node.
    + apply tc_once. unfold dependency_edge. by apply addDependency_adds.
    + apply (rtc_subrel (dependency_edge h)); [|done].
      intros u v Huv. unfold dependency_edge in *.
      apply addDependency_dependencies_elem. by left.
Qed.

Lemma isDependentOn_guards_addDependency_witness :
  isDependentOn 5 diamond_heap 3 0 = Some (Normal true)
  ∧ ¬ acyclic (addDependency 0 3 diamond_heap).1
  ∧ isDependentOn 5 diamond_heap 1 2 = Some (Normal false)
  ∧ acyclic (addDependency 2 1 diamond_heap).1.
Proof.
  assert (∀ this node b, this < 4 → node < 4 → node ≠ this →
            isDependentOn 5 diamond_heap node this = Some (Normal b) →
            b = false ↔ acyclic (addDependency this node diamond_heap).1)
    as Hguard.
  { intros this node b Hthis Hnode Hne Hrun.
    destruct (isDependentOn_guards_addDependency diamond_heap this node)
      as (b' & Hrun' & Hb'); try done.
    - apply diamond_heap_closed.
    - apply diamond_heap_ids.
    - apply diamond_heap_acyclic.
    - rewrite Hrun' in Hrun by (simpl; lia). by injection Hrun as <-. }
  split_and!.
  - reflexivity.
  - intros Hac%(Hguard 0 3 true); [done|lia|lia|done|reflexivity].
  - reflexivity.
  - apply (Hguard 2 1 false); [lia|lia|done|reflexivity|done].
Defined.

(** ** The main-document flag and [cloneWithoutRelationships] *)

(** X23. [setIsMainDocument] sets the flag that [isMainDocument] reads, on
    this node only and without touching an id or an edge; and
    [cloneWithoutRelationships] allocates a new node with the id and the
    flag of [this], as it is then, and with no edges, leaving every existing
    node as it is. *)
Theorem setIsMainDocument_cloneWithoutRelationships
    (h : heap) (this : ref) (value : bool) :
  this < length h →
  let h1 := setIsMainDocument this value h in
  let '(h2, clone) := cloneWithoutRelationships this h1 in
  (∀ r, isMainDocument h1 r =
        if decide (r = this) then value else isMainDocument h r)
  ∧ (∀ r, id h1 r = id h r ∧ getDependencies h1 r = getDependencies h r
          ∧ getDependents h1 r = getDependents h r)
  ∧ clone = length h ∧ h1 `prefix_of` h2
  ∧ length h2 = S (length h)
  ∧ id h2 clone = id h this ∧ isMainDocument h2 clone = value
  ∧ getDependencies h2 clone = [] ∧ getDependents h2 clone = [].
Proof.
  intros Hthis. simpl.
  assert (∀ r, isMainDocument (setIsMainDocument this value h) r =
            if decide (r = this) then value else isMainDocument h r)
    as Hflag.
  { intros r. unfold isMainDocument, setIsMainDocument.
    destruct (decide (r = this)) as [->|Hne].
    - rewrite list_lookup_alter_eq.
      by destruct (lookup_in_heap h this Hthis) as [n ->].
    - by rewrite list_lookup_alter_ne. }
  assert (∀ r, id (setIsMainDocument this value h) r = id h r
               ∧ getDependencies (setIsMainDocument this value h) r
                 = getDependencies h r
               ∧ getDependents (setIsMainDocument this value h) r
                 = getDependents h r) as Hframe.
  { intros r. unfold id, getDependencies, getDependents, setIsMainDocument.
    destruct (decide (r = this)) as [->|Hne].
    - rewrite list_lookup_alter_eq. by destruct (h !! this).
    - by rewrite list_lookup_alter_ne. }
  assert (length (setIsMainDocument this value h) = length h) as Hlen.
  { unfold setIsMainDocument. by rewrite length_alter. }
  split_and!; try done.
  - by apply prefix_app_r.
  - rewrite length_app. simpl. lia.
  - unfold id at 1. rewrite list_lookup_middle by done. simpl.
    apply Hframe.
  - unfold isMainDocument at 1. rewrite list_lookup_middle by done. simpl.
    by rewrite Hflag, decide_True.
  - unfold getDependencies. by rewrite list_lookup_middle.
  - unfold getDependents. by rewrite list_lookup_middle.
Qed.

Lemma setIsMainDocument_cloneWithoutRelationships_witness :
  cloneWithoutRelationships 3 (setIsMainDocument 3 true diamond_heap) =
    (setIsMainDocument 3 true diamond_heap ++ [mkBaseNode "D" true [] []], 4)
  ∧ isMainDocument (setIsMainDocument 3 true diamond_heap) 3 = true.
Proof.
  split; [reflexivity|].
  pose proof (setIsMainDocument_cloneWithoutRelationships diamond_heap 3 true)
    as Hclone.
  simpl in Hclone. destruct Hclone as (Hflag & _); [lia|].
  exact (Hflag 3).
Defined.
